(** * A shallow embedding of the key-value store

    The development follows [kvstore_server.py] and [kvstore_cluster.py]:
    the write-ahead log and the checkpoint file (durability engine), the
    in-memory store, the request dispatcher, and the cluster coordinator
    (heartbeats, votes, elections); then [kvstore_client.py] (the client
    and the length-prefixed messages on the wire) and
    [kvstore_indexing.py] (the inverted index beside a store).

    Modelling conventions.
    - A decoded JSON document is a [Value].  Numbers are Python [int]s
      (binary floating point is outside the embedding); a decoded JSON
      object is an association list read by first match.
    - The store is a Python [dict]: a finite map whose keys are the hashable
      values, identified up to Python equality ([True == 1]).
    - A raised exception is a value of [exn]; a function that can raise
      returns [Res A]; a function that mutates an object and can raise
      returns the result together with the object as it was left.
    - [pickle] is an external library: it is a parameter ([Pickle]), with
      the two facts used about it stated as laws ([PickleLaws]).
    - Files are byte strings; a crash can fall between any two system calls
      the code issues, or inside a write, which then leaves a part of its
      bytes at the end of the file. *)

From Stdlib Require Import ZArith NArith Strings.Byte.
From stdpp Require Import gmap strings list fin_maps countable.

Set Warnings "-register-all".

(** ** Python values, exceptions, dictionaries *)

Inductive Value : Type :=
  | VNone
  | VBool (b : bool)
  | VInt (n : Z)
  | VStr (s : string)
  | VList (l : list Value)
  | VDict (d : list (string * Value)).

Inductive exn : Type :=
  | KeyError (k : string)
  | TypeError (msg : string)
  | AttributeError (msg : string)
  | OverflowError (msg : string)
  | PickleError (msg : string).

(** [str(e)] *)
Definition str_exn (e : exn) : string :=
  match e with
  | KeyError k => "'" +:+ k +:+ "'"
  | TypeError m | AttributeError m | OverflowError m | PickleError m => m
  end.

(** The error monad: [inl e] is "raised [e]", [inr x] is "returned [x]". *)
Abbreviation Res := (sum exn).

Definition ret {A} (x : A) : Res A := inr x.
Definition raise {A} (e : exn) : Res A := inl e.

Global Instance Res_bind : MBind Res := λ A B f m,
  match m with inl e => inl e | inr x => f x end.

(** Keys of a [dict]: hashable values up to [==].  [bool] is a subclass of
    [int], so [True] and [1] are the same key. *)
Inductive PyKey : Type :=
  | KNone
  | KNum (n : Z)
  | KStr (s : string).

Global Instance PyKey_eq_dec : EqDecision PyKey.
Proof. solve_decision. Defined.

Global Instance PyKey_countable : Countable PyKey.
Proof.
  refine (inj_countable'
    (λ k, match k with
          | KNone => inl ()
          | KNum n => inr (inl n)
          | KStr s => inr (inr s)
          end)
    (λ x, match x with
          | inl _ => KNone
          | inr (inl n) => KNum n
          | inr (inr s) => KStr s
          end) _); by intros [].
Defined.

(** [hash(key)]: lists and dicts are unhashable. *)
Definition py_hash (key : Value) : Res PyKey :=
  match key with
  | VNone => ret KNone
  | VBool b => ret (KNum (if b then 1 else 0))
  | VInt n => ret (KNum n)
  | VStr s => ret (KStr s)
  | VList _ => raise (TypeError "unhashable type: 'list'")
  | VDict _ => raise (TypeError "unhashable type: 'dict'")
  end.

Abbreviation Store := (gmap PyKey Value).

(** [d[key] = value] *)
Definition dict_setitem (d : Store) (key value : Value) : Res Store :=
  k ← py_hash key; ret (<[k := value]> d).

(** [d.pop(key, None)] *)
Definition dict_pop (d : Store) (key : Value) : Res Store :=
  k ← py_hash key; ret (base.delete k d).

(** [d.get(key)]: [None] when the key is absent. *)
Definition dict_get (d : Store) (key : Value) : Res Value :=
  k ← py_hash key; ret (default VNone (d !! k)).

(** [key in d] *)
Definition dict_contains (d : Store) (key : Value) : Res bool :=
  k ← py_hash key; ret (bool_decide (is_Some (d !! k))).

(** A decoded JSON object, and the dictionaries the code builds for its
    replies. *)
Abbreviation Obj := (list (string * Value)).

Fixpoint obj_lookup (o : Obj) (k : string) : option Value :=
  match o with
  | [] => None
  | (k', v) :: o' => if decide (k' = k) then Some v else obj_lookup o' k
  end.

(** [o.get(k)] and [o.get(k, dflt)] *)
Definition obj_get (o : Obj) (k : string) : Value := default VNone (obj_lookup o k).
Definition obj_get_default (o : Obj) (k : string) (dflt : Value) : Value :=
  default dflt (obj_lookup o k).

(** [o[k]] on a dict *)
Definition obj_getitem (o : Obj) (k : string) : Res Value :=
  match obj_lookup o k with
  | Some v => ret v
  | None => raise (KeyError k)
  end.

(** [v[k]] with a string subscript on an arbitrary value. *)
Definition py_getitem (v : Value) (k : string) : Res Value :=
  match v with
  | VDict o => obj_getitem o k
  | VList _ => raise (TypeError "list indices must be integers or slices, not str")
  | VStr _ => raise (TypeError "string indices must be integers")
  | VNone => raise (TypeError "'NoneType' object is not subscriptable")
  | VBool _ => raise (TypeError "'bool' object is not subscriptable")
  | VInt _ => raise (TypeError "'int' object is not subscriptable")
  end.

Fixpoint string_chars (s : string) : list Value :=
  match s with
  | EmptyString => []
  | String c s' => VStr (String c EmptyString) :: string_chars s'
  end.

(** [iter(v)]: what a [for] loop or a comprehension ranges over. *)
Definition py_iter (v : Value) : Res (list Value) :=
  match v with
  | VList l => ret l
  | VDict o => ret (map (λ kv, VStr (fst kv)) o)
  | VStr s => ret (string_chars s)
  | VNone => raise (TypeError "'NoneType' object is not iterable")
  | VBool _ => raise (TypeError "'bool' object is not iterable")
  | VInt _ => raise (TypeError "'int' object is not iterable")
  end.

(** ** Bytes, the 4-byte length prefix, and [pickle] *)

Definition byte_of_N (n : N) : byte := default "000"%byte (Byte.of_N n).

(** [n.to_bytes(4, byteorder='big')]; [OverflowError] from 2^32 on. *)
Definition to_bytes4 (n : N) : Res (list byte) :=
  if decide (n < 2 ^ 32)%N then
    ret [ byte_of_N ((n `div` 2 ^ 24) `mod` 256)%N; byte_of_N ((n `div` 2 ^ 16) `mod` 256)%N;
          byte_of_N ((n `div` 2 ^ 8) `mod` 256)%N; byte_of_N (n `mod` 256)%N ]
  else raise (OverflowError "int too big to convert").

(** [int.from_bytes(bs, byteorder='big')], for any number of bytes. *)
Definition from_bytes (bs : list byte) : N :=
  fold_left (λ acc b, (acc * 256 + Byte.to_N b)%N) bs 0%N.

(** [pickle.dumps] and [pickle.loads]; [loads] gives [None] where the
    library raises ([EOFError], [UnpicklingError]). *)
Class Pickle (A : Type) := {
  dumps : A → list byte;
  loads : list byte → option A
}.

(** What is used of [pickle]: a dump loads back, and a pickle cut short
    does not load (the stream ends with its STOP opcode). *)
Class PickleLaws (A : Type) `{Pickle A} : Prop := {
  loads_dumps : ∀ x : A, loads (dumps x) = Some x;
  loads_nil : loads [] = @None A;
  loads_truncated : ∀ (x : A) (n : nat),
    n < length (dumps x) → loads (take n (dumps x)) = None
}.

Definition pickle_loads {A} `{Pickle A} (bs : list byte) : Res A :=
  match loads bs with
  | Some x => ret x
  | None => raise (PickleError "pickle data was truncated")
  end.

(** ** The write-ahead log *)

(** The dictionaries [KVStore] logs: [{'type': 'set', 'key', 'value'}],
    [{'type': 'delete', 'key'}], [{'type': 'bulk_set', 'items'}]. *)
Inductive Record : Type :=
  | RSet (key value : Value)
  | RDelete (key : Value)
  | RBulkSet (items : list (Value * Value)).

(** The data directory: [data.pkl] (absent until the first checkpoint) and
    [wal.log]. *)
Record Disk : Type := mkDisk {
  data_file : option (list byte);
  wal_file : list byte
}.

Definition disk_init : Disk := mkDisk None [].

(** The system calls that change the data directory: [open(path, 'wb')],
    which creates the file or empties it, and a write at the end of a
    file. *)
Inductive FileName : Type := DataFile | WalFile.

Inductive SysCall : Type :=
  | SysOpenTrunc (f : FileName)
  | SysWrite (f : FileName) (bs : list byte).

Definition sys_exec (d : Disk) (c : SysCall) : Disk :=
  match c with
  | SysOpenTrunc DataFile => mkDisk (Some []) (wal_file d)
  | SysOpenTrunc WalFile => mkDisk (data_file d) []
  | SysWrite DataFile bs => mkDisk (Some (default [] (data_file d) ++ bs)) (wal_file d)
  | SysWrite WalFile bs => mkDisk (data_file d) (wal_file d ++ bs)
  end.

(** The states of the directory after each call of a sequence. *)
Fixpoint sys_trace (d : Disk) (cs : list SysCall) : list Disk :=
  match cs with
  | [] => []
  | c :: cs' => sys_exec d c :: sys_trace (sys_exec d c) cs'
  end.

Module WriteAheadLog.
Section wal.
Context `{Pickle Record}.

(** The bytes of one log entry: length prefix, then the pickle. *)
Definition frame (operation : Record) : Res (list byte) :=
  let entry := dumps operation in
  length_ ← to_bytes4 (N.of_nat (length entry));
  ret (length_ ++ entry).

(** [log_operation]: one [write] of prefix and entry (then flush, fsync). *)
Definition log_operation (d : Disk) (operation : Record) : Res Disk :=
  bs ← frame operation;
  ret (sys_exec d (SysWrite WalFile bs)).

(** The states of the data directory while [log_operation] runs: the
    bytes of its one [write] reach the end of the log one after the other,
    and a crash can fall after any of them. *)
Definition log_operation_trace (d : Disk) (operation : Record) : list Disk :=
  match frame operation with
  | inl _ => [d]
  | inr bs =>
      map (λ n, mkDisk (data_file d) (wal_file d ++ take n bs)) (seq 0 (S (length bs)))
  end.

(** The [while True] loop of [replay] over the unread rest [f] of the
    file.  Every turn that does not leave the loop reads at least one
    byte, so [fuel] above [length f] is never used up. *)
Fixpoint replay_loop (fuel : nat) (f : list byte) (operations : list Record)
    : Res (list Record) :=
  match fuel with
  | O => ret operations
  | S fuel' =>
      let length_bytes := take 4 f in
      let f := drop 4 f in
      match length_bytes with
      | [] => ret operations
      | _ =>
          let length_ := N.to_nat (from_bytes length_bytes) in
          let entry_bytes := take length_ f in
          let f := drop length_ f in
          operation ← pickle_loads entry_bytes;
          replay_loop fuel' f (operations ++ [operation])
      end
  end.

Definition replay (d : Disk) : Res (list Record) :=
  match wal_file d with
  | [] => ret []
  | f => replay_loop (S (length f)) f []
  end.

(** [checkpoint]: the log is closed, emptied by [open(wal_path, 'wb')],
    and opened again for appending. *)
Definition checkpoint (d : Disk) : Disk := sys_exec d (SysOpenTrunc WalFile).
End wal.
End WriteAheadLog.

(** ** The store: [class KVStore]

    [kvstore_server.py] and [kvstore_cluster.py] carry the same class (the
    cluster copy takes an unused [replicate] argument). *)

Global Instance Res_ret : MRet Res := λ A x, inr x.
Global Instance Res_fmap : FMap Res := λ A B f m,
  match m with inl e => inl e | inr x => inr (f x) end.

Record KVStore : Type := mkKV {
  store : Store;
  disk : Disk
}.

(** [for key, value in items: self.store[key] = value], leaving the store
    as it is when an assignment raises. *)
Fixpoint setitems (store : Store) (items : list (Value * Value)) : Res () * Store :=
  match items with
  | [] => (ret (), store)
  | (key, value) :: rest =>
      match dict_setitem store key value with
      | inl e => (inl e, store)
      | inr store' => setitems store' rest
      end
  end.

(** One turn of the replay loop of [_load_from_disk]. *)
Definition apply_op (store : Store) (op : Record) : Res () * Store :=
  match op with
  | RSet key value =>
      match dict_setitem store key value with
      | inl e => (inl e, store)
      | inr store' => (ret (), store')
      end
  | RDelete key =>
      match dict_pop store key with
      | inl e => (inl e, store)
      | inr store' => (ret (), store')
      end
  | RBulkSet items => setitems store items
  end.

(** [for op in operations: ...] *)
Fixpoint apply_ops (store : Store) (operations : list Record) : Res () * Store :=
  match operations with
  | [] => (ret (), store)
  | op :: rest =>
      match apply_op store op with
      | (inl e, store') => (inl e, store')
      | (inr _, store') => apply_ops store' rest
      end
  end.

(** The calls a store receives; [Checkpoint] comes from the timer thread
    and from [shutdown]. *)
Inductive Call : Type :=
  | CSet (key value : Value)
  | CGet (key : Value)
  | CDelete (key : Value)
  | CBulkSet (items : list (Value * Value))
  | CCheckpoint.

Module KVStore.
Section kvstore.
Context `{Pickle Record} `{Pickle Store}.

Definition _load_from_disk (d : Disk) : Res Store :=
  store ← match data_file d with
          | Some bs => pickle_loads bs
          | None => ret ∅
          end;
  operations ← WriteAheadLog.replay d;
  match apply_ops store operations with
  | (inl e, _) => raise e
  | (inr _, store') => ret store'
  end.

(** [KVStore(data_dir)] on an existing data directory. *)
Definition __init__ (d : Disk) : Res KVStore :=
  store ← _load_from_disk d; ret (mkKV store d).

Definition set (kv : KVStore) (key value : Value) : Res bool * KVStore :=
  match WriteAheadLog.log_operation (disk kv) (RSet key value) with
  | inl e => (inl e, kv)
  | inr d =>
      match dict_setitem (store kv) key value with
      | inl e => (inl e, mkKV (store kv) d)
      | inr store' => (ret true, mkKV store' d)
      end
  end.

Definition get (kv : KVStore) (key : Value) : Res Value :=
  dict_get (store kv) key.

Definition delete (kv : KVStore) (key : Value) : Res bool * KVStore :=
  match dict_contains (store kv) key with
  | inl e => (inl e, kv)
  | inr false => (ret false, kv)
  | inr true =>
      match WriteAheadLog.log_operation (disk kv) (RDelete key) with
      | inl e => (inl e, kv)
      | inr d =>
          match dict_pop (store kv) key with
          | inl e => (inl e, mkKV (store kv) d)
          | inr store' => (ret true, mkKV store' d)
          end
      end
  end.

Definition bulk_set (kv : KVStore) (items : list (Value * Value))
    : Res bool * KVStore :=
  match WriteAheadLog.log_operation (disk kv) (RBulkSet items) with
  | inl e => (inl e, kv)
  | inr d =>
      match setitems (store kv) items with
      | (inl e, store') => (inl e, mkKV store' d)
      | (inr _, store') => (ret true, mkKV store' d)
      end
  end.

(** The system calls of [checkpoint]: [open(self.data_file, 'wb')];
    [pickle.dump(self.store, f)], whose bytes the buffered file hands to the
    system in pieces ([chunks], which together are the dump); then
    [self.wal.checkpoint()]. *)
Definition checkpoint_calls (chunks : list (list byte)) : list SysCall :=
  SysOpenTrunc DataFile :: map (SysWrite DataFile) chunks ++ [SysOpenTrunc WalFile].

Definition checkpoint (kv : KVStore) : KVStore :=
  mkKV (store kv)
       (fold_left sys_exec (checkpoint_calls [dumps (store kv)]) (disk kv)).

(** The states of the data directory that [checkpoint] can go through
    after its start, whatever the pieces: the live file emptied, then
    holding a longer and longer prefix of the dump, and at last the log
    truncated. *)
Definition checkpoint_trace (kv : KVStore) : list Disk :=
  let bs := dumps (store kv) in
  map (λ n, mkDisk (Some (take n bs)) (wal_file (disk kv))) (seq 0 (S (length bs)))
  ++ [disk (checkpoint kv)].

(** [get_all_data]: a copy of the mapping. *)
Definition get_all_data (kv : KVStore) : Store := store kv.

(** [shutdown]: a last checkpoint, then the log is closed. *)
Definition shutdown (kv : KVStore) : KVStore := checkpoint kv.

(** One call, with its reply ([VNone] for [checkpoint]). *)
Definition call (kv : KVStore) (c : Call) : Res Value * KVStore :=
  match c with
  | CSet key value => let '(r, kv') := set kv key value in (VBool <$> r, kv')
  | CGet key => (get kv key, kv)
  | CDelete key => let '(r, kv') := delete kv key in (VBool <$> r, kv')
  | CBulkSet items => let '(r, kv') := bulk_set kv items in (VBool <$> r, kv')
  | CCheckpoint => (ret VNone, checkpoint kv)
  end.

(** The states of the data directory from the start of a call to its
    end.  [set] and [bulk_set] write one log entry; [delete] writes one
    when the key is in the store; [get] writes nothing. *)
Definition call_trace (kv : KVStore) (c : Call) : list Disk :=
  match c with
  | CSet key value => WriteAheadLog.log_operation_trace (disk kv) (RSet key value)
  | CGet _ => [disk kv]
  | CDelete key =>
      match dict_contains (store kv) key with
      | inr true => WriteAheadLog.log_operation_trace (disk kv) (RDelete key)
      | _ => [disk kv]
      end
  | CBulkSet items => WriteAheadLog.log_operation_trace (disk kv) (RBulkSet items)
  | CCheckpoint => disk kv :: checkpoint_trace kv
  end.

Fixpoint run (kv : KVStore) (cs : list Call) : KVStore :=
  match cs with
  | [] => kv
  | c :: cs' => run (snd (call kv c)) cs'
  end.

(** Every state of the data directory a crash can leave behind during
    a run of calls. *)
Fixpoint run_trace (kv : KVStore) (cs : list Call) : list Disk :=
  match cs with
  | [] => [disk kv]
  | c :: cs' => call_trace kv c ++ run_trace (snd (call kv c)) cs'
  end.
End kvstore.
End KVStore.

(** ** The request dispatcher: [KVStoreServer._process_request] *)

(** [v == s] for a string literal [s] *)
Definition is_str (v : Value) (s : string) : bool :=
  match v with
  | VStr s' => bool_decide (s' = s)
  | _ => false
  end.

(** [operation in ['HEARTBEAT', 'VOTE_REQUEST', 'VOTE_RESPONSE', 'REPLICATE']]
    and [operation in ['SET', 'DELETE', 'BULK_SET']] *)
Definition is_cluster_message (operation : Value) : bool :=
  is_str operation "HEARTBEAT" || is_str operation "VOTE_REQUEST"
  || is_str operation "VOTE_RESPONSE" || is_str operation "REPLICATE".

Definition is_write (operation : Value) : bool :=
  is_str operation "SET" || is_str operation "DELETE" || is_str operation "BULK_SET".

(** [[(item['key'], item['value']) for item in xs]] *)
Definition items_of (xs : Value) : Res (list (Value * Value)) :=
  l ← py_iter xs;
  mapM (λ item, key ← py_getitem item "key";
                value ← py_getitem item "value";
                mret (key, value)) l.

Definition reply_success (success : bool) : Obj :=
  [("status", VStr "OK"); ("success", VBool success)].
Definition reply_value (value : Value) : Obj :=
  [("status", VStr "OK"); ("value", value)].
Definition reply_not_found : Obj :=
  [("status", VStr "NOT_FOUND"); ("value", VNone)].
Definition reply_error (message : string) : Obj :=
  [("status", VStr "ERROR"); ("message", VStr message)].
Definition reply_ok : Obj := [("status", VStr "OK")].

(** The [GET] branch, shared by both dispatchers. *)
Definition get_reply (kv : KVStore) (request : Obj) : Res Obj :=
  key ← obj_getitem request "key";
  value ← KVStore.get kv key;
  match value with
  | VNone => ret reply_not_found
  | _ => ret (reply_value value)
  end.

Module KVStoreServer.
Section server.
Context `{Pickle Record} `{Pickle Store}.

(** The body of the [try] statement. *)
Definition process_body (kv : KVStore) (request : Obj) : Res Obj * KVStore :=
  let operation := obj_get request "operation" in
  if is_str operation "SET" then
    match (key ← obj_getitem request "key";
           value ← obj_getitem request "value"; mret (key, value)) with
    | inl e => (inl e, kv)
    | inr (key, value) =>
        let '(success, kv') := KVStore.set kv key value in
        (reply_success <$> success, kv')
    end
  else if is_str operation "GET" then
    (get_reply kv request, kv)
  else if is_str operation "DELETE" then
    match obj_getitem request "key" with
    | inl e => (inl e, kv)
    | inr key =>
        let '(success, kv') := KVStore.delete kv key in
        (reply_success <$> success, kv')
    end
  else if is_str operation "BULK_SET" then
    match (xs ← obj_getitem request "items"; items_of xs) with
    | inl e => (inl e, kv)
    | inr items =>
        let '(success, kv') := KVStore.bulk_set kv items in
        (reply_success <$> success, kv')
    end
  else (ret (reply_error "Unknown operation"), kv).

(** [try: ... except Exception as e: return {'status': 'ERROR', ...}] *)
Definition _process_request (kv : KVStore) (request : Obj) : Obj * KVStore :=
  match process_body kv request with
  | (inr response, kv') => (response, kv')
  | (inl e, kv') => (reply_error (str_exn e), kv')
  end.

(** A connection: requests served one after the other, with the replies. *)
Fixpoint serve (kv : KVStore) (requests : list Obj) : list Obj * KVStore :=
  match requests with
  | [] => ([], kv)
  | request :: rest =>
      let '(response, kv') := _process_request kv request in
      let '(responses, kv'') := serve kv' rest in
      (response :: responses, kv'')
  end.
End server.
End KVStoreServer.

(** ** The cluster coordinator: [class ClusterNode] *)

Inductive NodeRole : Type := PRIMARY | SECONDARY | CANDIDATE.

Global Instance NodeRole_eq_dec : EqDecision NodeRole.
Proof. solve_decision. Defined.

(** A [bool] or an [int] as the integer it compares as. *)
Definition py_int (v : Value) : option Z :=
  match v with
  | VBool b => Some (if b then 1 else 0)%Z
  | VInt n => Some n
  | _ => None
  end.

(** [a == b] *)
Fixpoint py_eqb (a b : Value) {struct a} : bool :=
  match a, b with
  | VNone, VNone => true
  | VStr s, VStr t => bool_decide (s = t)
  | VList l, VList m =>
      (fix go (l m : list Value) : bool :=
         match l, m with
         | [], [] => true
         | x :: l', y :: m' => py_eqb x y && go l' m'
         | _, _ => false
         end) l m
  | VDict d, VDict e =>
      Nat.eqb (length d) (length e) &&
      (fix go (d : list (string * Value)) : bool :=
         match d with
         | [] => true
         | (k, v) :: d' =>
             match obj_lookup e k with
             | Some w => py_eqb v w
             | None => false
             end && go d'
         end) d
  | _, _ =>
      match py_int a, py_int b with
      | Some x, Some y => Z.eqb x y
      | _, _ => false
      end
  end.

Global Arguments py_eqb : simpl never.

(** [bool(v)] *)
Definition py_truthy (v : Value) : bool :=
  match v with
  | VNone => false
  | VBool b => b
  | VInt n => negb (Z.eqb n 0)
  | VStr s => negb (bool_decide (s = ""))
  | VList l => negb (bool_decide (l = []))
  | VDict d => negb (bool_decide (d = []))
  end.

(** [v > n] against an [int]: other types do not compare. *)
Definition py_gt_int (v : Value) (n : Z) : Res bool :=
  match py_int v with
  | Some m => ret (bool_decide (n < m)%Z)
  | None => raise (TypeError "'>' not supported between instances")
  end.

(** [max(n, v)] *)
Definition py_max_int (n : Z) (v : Value) : Res Z :=
  b ← py_gt_int v n;
  ret (if b : bool then default n (py_int v) else n).

Abbreviation Addr := (string * Z)%type.

(** The fields of a node.  [term] is kept as the integer it compares as;
    time is a number of milliseconds ([heartbeat_timeout] is 5.0 s);
    [primary_node] is [None] or the pair [(host, port)], written as the
    two-element list that [json.dumps] makes of it. *)
Record ClusterNode : Type := mkNode {
  node_id : Z;
  host : string;
  port : Z;
  peers : list Addr;
  kvstore : KVStore;
  role : NodeRole;
  primary_node : Value;
  last_heartbeat : Z;
  heartbeat_timeout : Z;
  term : Z;
  voted_for : Value
}.

Definition set_kvstore (n : ClusterNode) (kv : KVStore) : ClusterNode :=
  mkNode (node_id n) (host n) (port n) (peers n) kv (role n) (primary_node n)
         (last_heartbeat n) (heartbeat_timeout n) (term n) (voted_for n).
Definition set_role (n : ClusterNode) (r : NodeRole) : ClusterNode :=
  mkNode (node_id n) (host n) (port n) (peers n) (kvstore n) r (primary_node n)
         (last_heartbeat n) (heartbeat_timeout n) (term n) (voted_for n).
Definition set_primary_node (n : ClusterNode) (p : Value) : ClusterNode :=
  mkNode (node_id n) (host n) (port n) (peers n) (kvstore n) (role n) p
         (last_heartbeat n) (heartbeat_timeout n) (term n) (voted_for n).
Definition set_last_heartbeat (n : ClusterNode) (t : Z) : ClusterNode :=
  mkNode (node_id n) (host n) (port n) (peers n) (kvstore n) (role n) (primary_node n)
         t (heartbeat_timeout n) (term n) (voted_for n).
Definition set_term (n : ClusterNode) (t : Z) : ClusterNode :=
  mkNode (node_id n) (host n) (port n) (peers n) (kvstore n) (role n) (primary_node n)
         (last_heartbeat n) (heartbeat_timeout n) t (voted_for n).
Definition set_voted_for (n : ClusterNode) (v : Value) : ClusterNode :=
  mkNode (node_id n) (host n) (port n) (peers n) (kvstore n) (role n) (primary_node n)
         (last_heartbeat n) (heartbeat_timeout n) (term n) v.

Definition reply_vote (vote_granted : bool) (term : Z) : Obj :=
  [("status", VStr "OK"); ("vote_granted", VBool vote_granted); ("term", VInt term)].
Definition reply_not_primary (primary : Value) : Obj :=
  [("status", VStr "ERROR"); ("message", VStr "Not primary"); ("primary", primary)].

Definition heartbeat_message (term : Z) (host : string) (port : Z) : Obj :=
  [("operation", VStr "HEARTBEAT"); ("term", VInt term);
   ("primary_host", VStr host); ("primary_port", VInt port)].
Definition vote_request_message (term : Z) (candidate_id : Value) : Obj :=
  [("operation", VStr "VOTE_REQUEST"); ("term", VInt term);
   ("candidate_id", candidate_id)].
Definition replicate_message (operation : Obj) : Obj :=
  [("operation", VStr "REPLICATE"); ("original_operation", VDict operation)].

Module ClusterNode.
Section cluster.
Context `{Pickle Record} `{Pickle Store}.

(** [_apply_operation_locally]; [operation.get] needs a dict. *)
Definition _apply_operation_locally (kv : KVStore) (operation : Value)
    : Res () * KVStore :=
  match operation with
  | VDict operation =>
      let op_type := obj_get operation "operation" in
      if is_str op_type "SET" then
        match (key ← obj_getitem operation "key";
               value ← obj_getitem operation "value"; mret (key, value)) with
        | inl e => (inl e, kv)
        | inr (key, value) =>
            let '(r, kv') := KVStore.set kv key value in ((λ _, ()) <$> r, kv')
        end
      else if is_str op_type "DELETE" then
        match obj_getitem operation "key" with
        | inl e => (inl e, kv)
        | inr key =>
            let '(r, kv') := KVStore.delete kv key in ((λ _, ()) <$> r, kv')
        end
      else if is_str op_type "BULK_SET" then
        match (xs ← obj_getitem operation "items"; items_of xs) with
        | inl e => (inl e, kv)
        | inr items =>
            let '(r, kv') := KVStore.bulk_set kv items in ((λ _, ()) <$> r, kv')
        end
      else (ret (), kv)
  | _ => (raise (AttributeError "object has no attribute 'get'"), kv)
  end.

(** [_handle_cluster_message], at time [now]. *)
Definition _handle_cluster_message (n : ClusterNode) (message : Obj) (now : Z)
    : Res Obj * ClusterNode :=
  let msg_type := obj_get message "operation" in
  if is_str msg_type "HEARTBEAT" then
    let n := set_last_heartbeat n now in
    let n := set_primary_node n
               (VList [obj_get message "primary_host"; obj_get message "primary_port"]) in
    match py_max_int (term n) (obj_get_default message "term" (VInt 0)) with
    | inl e => (inl e, n)
    | inr t =>
        let n := set_term n t in
        let n := if decide (role n ≠ SECONDARY) then set_role n SECONDARY else n in
        (ret reply_ok, n)
    end
  else if is_str msg_type "VOTE_REQUEST" then
    let candidate_term := obj_get_default message "term" (VInt 0) in
    let candidate_id := obj_get message "candidate_id" in
    match py_gt_int candidate_term (term n) with
    | inl e => (inl e, n)
    | inr newer =>
        let n := if newer : bool
                 then set_voted_for (set_term n (default (term n) (py_int candidate_term))) VNone
                 else n in
        if match voted_for n with VNone => true | v => py_eqb v candidate_id end
        then (ret (reply_vote true (term n)), set_voted_for n candidate_id)
        else (ret (reply_vote false (term n)), n)
    end
  else if is_str msg_type "REPLICATE" then
    if decide (role n = SECONDARY) then
      let original_op := obj_get message "original_operation" in
      match _apply_operation_locally (kvstore n) original_op with
      | (inl e, kv') => (inl e, set_kvstore n kv')
      | (inr _, kv') => (ret reply_ok, set_kvstore n kv')
      end
    else (ret reply_ok, n)
  else (ret (reply_error "Unknown cluster message"), n).

(** [_replicate_operation] sends one [REPLICATE] message to every peer and
    drops the answers; the messages sent are returned with the reply. *)
Definition _replicate_operation (n : ClusterNode) (operation : Obj)
    : list (Addr * Obj) :=
  map (λ peer, (peer, replicate_message operation)) (peers n).

(** After a store call of a write: replicate when primary, then reply. *)
Definition finish_write (n : ClusterNode) (request : Obj)
    (r : Res bool * KVStore) : Res Obj * ClusterNode * list (Addr * Obj) :=
  let n' := set_kvstore n (snd r) in
  match fst r with
  | inl e => (inl e, n', [])
  | inr success =>
      (ret (reply_success success), n',
       if decide (role n' = PRIMARY) then _replicate_operation n' request else [])
  end.

(** The body of the [try] statement of [ClusterNode._process_request]. *)
Definition process_body (n : ClusterNode) (request : Obj) (now : Z)
    : Res Obj * ClusterNode * list (Addr * Obj) :=
  let operation := obj_get request "operation" in
  if is_cluster_message operation then
    (_handle_cluster_message n request now, [])
  else if is_write operation && bool_decide (role n ≠ PRIMARY) then
    (ret (reply_not_primary (primary_node n)), n, [])
  else if is_str operation "SET" then
    match (key ← obj_getitem request "key";
           value ← obj_getitem request "value"; mret (key, value)) with
    | inl e => (inl e, n, [])
    | inr (key, value) => finish_write n request (KVStore.set (kvstore n) key value)
    end
  else if is_str operation "GET" then
    (get_reply (kvstore n) request, n, [])
  else if is_str operation "DELETE" then
    match obj_getitem request "key" with
    | inl e => (inl e, n, [])
    | inr key => finish_write n request (KVStore.delete (kvstore n) key)
    end
  else if is_str operation "BULK_SET" then
    match (xs ← obj_getitem request "items"; items_of xs) with
    | inl e => (inl e, n, [])
    | inr items => finish_write n request (KVStore.bulk_set (kvstore n) items)
    end
  else (ret (reply_error "Unknown operation"), n, []).

Definition _process_request (n : ClusterNode) (request : Obj) (now : Z)
    : Obj * ClusterNode * list (Addr * Obj) :=
  match process_body n request now with
  | (inr response, n', out) => (response, n', out)
  | (inl e, n', out) => (reply_error (str_exn e), n', out)
  end.

(** *** Several nodes

    The nodes of a cluster, by position.  [_send_to_peer] connects to an
    address, sends, and waits up to 2 s for the answer; [up] says which
    addresses answer.  Every failure gives an [ERROR] dictionary. *)

Definition resolve (nodes : list ClusterNode) (peer : Addr) : option (nat * ClusterNode) :=
  list_find (λ n, (host n, port n) = peer) nodes.

Definition _send_to_peer (nodes : list ClusterNode) (up : Addr → bool)
    (peer : Addr) (message : Obj) (now : Z) : Obj * list ClusterNode :=
  if up peer then
    match resolve nodes peer with
    | Some (j, n) =>
        let '(response, n', _) := _process_request n message now in
        (response, <[j := n']> nodes)
    | None => (reply_error "connection refused", nodes)
    end
  else (reply_error "timed out", nodes).

(** [for peer in self.peers: self._send_to_peer(peer, message)] *)
Definition send_all (nodes : list ClusterNode) (up : Addr → bool)
    (targets : list Addr) (message : Obj) (now : Z) : list ClusterNode :=
  fold_left (λ ns peer, snd (_send_to_peer ns up peer message now)) targets nodes.

Definition _send_heartbeats (nodes : list ClusterNode) (i : nat)
    (up : Addr → bool) (now : Z) : list ClusterNode :=
  match nodes !! i with
  | None => nodes
  | Some n =>
      send_all nodes up (peers n) (heartbeat_message (term n) (host n) (port n)) now
  end.

(** The vote-collecting loop of [_start_election]. *)
Definition collect_votes (nodes : list ClusterNode) (up : Addr → bool)
    (targets : list Addr) (message : Obj) (now : Z) : nat * list ClusterNode :=
  fold_left
    (λ '(votes, ns) peer,
       let '(response, ns') := _send_to_peer ns up peer message now in
       (if py_truthy (obj_get response "vote_granted") then S votes else votes, ns'))
    targets (1, nodes).

Definition _start_election (nodes : list ClusterNode) (i : nat)
    (up : Addr → bool) (now : Z) : list ClusterNode :=
  match nodes !! i with
  | None => nodes
  | Some n =>
      let n := set_voted_for (set_term (set_role n CANDIDATE) (term n + 1))
                             (VInt (node_id n)) in
      let nodes := <[i := n]> nodes in
      let message := vote_request_message (term n) (VInt (node_id n)) in
      let '(votes, nodes) := collect_votes nodes up (peers n) message now in
      if decide ((length (peers n) + 1) `div` 2 < votes) then
        alter (λ n, set_primary_node (set_role n PRIMARY)
                      (VList [VStr (host n); VInt (port n)])) i nodes
      else alter (λ n, set_role n SECONDARY) i nodes
  end.

(** A client request served by node [i], with its replication messages. *)
Definition client_request (nodes : list ClusterNode) (i : nat) (request : Obj)
    (up : Addr → bool) (now : Z) : list ClusterNode :=
  match nodes !! i with
  | None => nodes
  | Some n =>
      let '(_, n', out) := _process_request n request now in
      fold_left (λ ns '(peer, message), snd (_send_to_peer ns up peer message now))
                out (<[i := n']> nodes)
  end.

Record World : Type := mkWorld {
  nodes : list ClusterNode;
  clock : Z
}.

(** The cluster step relation: time passes; a primary's heartbeat loop
    sends heartbeats; the heartbeat loop of a node that is not primary
    starts an election once its timeout has passed; a node serves a
    client request.  In a step a round and each handler it reaches run to
    their end, one after the other.  The program can do that, so a run of
    steps is a run of the program; it can also interleave the handlers of
    a node, which run on one thread per connection and take no lock, and
    such runs are not in the relation.  The relation serves to exhibit
    runs, not to bound them. *)
Inductive step : World → World → Prop :=
  | step_tick w dt :
      (0 ≤ dt)%Z → step w (mkWorld (nodes w) (clock w + dt))
  | step_heartbeats w i n up :
      nodes w !! i = Some n → role n = PRIMARY →
      step w (mkWorld (_send_heartbeats (nodes w) i up (clock w)) (clock w))
  | step_election w i n up :
      nodes w !! i = Some n → role n ≠ PRIMARY →
      (clock w - last_heartbeat n > heartbeat_timeout n)%Z →
      step w (mkWorld (_start_election (nodes w) i up (clock w)) (clock w))
  | step_client w i request up :
      step w (mkWorld (client_request (nodes w) i request up (clock w)) (clock w)).

(** The worlds reached by a run of steps. *)
Definition reachable (w0 w : World) : Prop := rtc step w0 w.

(** [ClusterNode(node_id, host, port, peers, data_dir)] on an empty data
    directory, at time [now]; and [main] with the [--primary] flag. *)
Definition __init__ (node_id : Z) (host : string) (port : Z) (peers : list Addr)
    (now : Z) : ClusterNode :=
  mkNode node_id host port peers (mkKV ∅ disk_init) SECONDARY VNone now 5000 0 VNone.

Definition main_primary (node_id : Z) (host : string) (port : Z) (peers : list Addr)
    (now : Z) : ClusterNode :=
  set_last_heartbeat
    (set_primary_node (set_role (__init__ node_id host port peers now) PRIMARY)
                      (VList [VStr host; VInt port])) now.
End cluster.
End ClusterNode.

(** ** A reference codec

    One codec that satisfies [PickleLaws], so that every statement below
    can be run on concrete data directories: a value is numbered (it is
    countable) and the number written in binary digits, closed by a STOP
    byte as a pickle is. *)

Fixpoint value_to_tree (v : Value) : gen_tree (bool + Z + string) :=
  match v with
  | VNone => GenNode 0 []
  | VBool b => GenLeaf (inl (inl b))
  | VInt n => GenLeaf (inl (inr n))
  | VStr s => GenLeaf (inr s)
  | VList l => GenNode 1 (map value_to_tree l)
  | VDict d =>
      GenNode 2 (map (λ kv, GenNode 3 [GenLeaf (inr (fst kv)); value_to_tree (snd kv)]) d)
  end.

Fixpoint tree_to_value (t : gen_tree (bool + Z + string)) : Value :=
  match t with
  | GenLeaf (inl (inl b)) => VBool b
  | GenLeaf (inl (inr n)) => VInt n
  | GenLeaf (inr s) => VStr s
  | GenNode 1 ts => VList (map tree_to_value ts)
  | GenNode 2 ts =>
      VDict (map (λ t, match t with
                       | GenNode _ [GenLeaf (inr k); t'] => (k, tree_to_value t')
                       | _ => (EmptyString, VNone)
                       end) ts)
  | GenNode _ _ => VNone
  end.

Lemma Value_ind' (P : Value → Prop) :
  P VNone → (∀ b, P (VBool b)) → (∀ n, P (VInt n)) → (∀ s, P (VStr s)) →
  (∀ l, Forall P l → P (VList l)) →
  (∀ d, Forall (λ kv, P (snd kv)) d → P (VDict d)) →
  ∀ v, P v.
Proof.
  intros HN HB HI HS HL HD. fix IH 1. intros [| b | n | s | l | d].
  - exact HN.
  - apply HB.
  - apply HI.
  - apply HS.
  - apply HL. induction l as [| x l IHl]; constructor; [apply IH | exact IHl].
  - apply HD. induction d as [| [k x] d IHd]; constructor; [apply IH | exact IHd].
Qed.

Lemma tree_to_value_to_tree v : tree_to_value (value_to_tree v) = v.
Proof.
  induction v as [| | | | l IH | d IH] using Value_ind'; simpl; auto.
  - f_equal. induction IH as [| x l Hx _ IHl]; simpl; [done |]. by rewrite Hx, IHl.
  - f_equal. induction IH as [| [k x] d Hx _ IHd]; simpl; [done |].
    simpl in Hx. by rewrite Hx, IHd.
Qed.

Global Instance Value_eq_dec : EqDecision Value.
Proof.
  intros v w. destruct (decide (value_to_tree v = value_to_tree w)) as [E | E].
  - left. rewrite <- (tree_to_value_to_tree v), <- (tree_to_value_to_tree w).
    by rewrite E.
  - right. intros ->. by apply E.
Defined.

Global Instance Value_countable : Countable Value :=
  inj_countable' value_to_tree tree_to_value tree_to_value_to_tree.

Global Instance Record_eq_dec : EqDecision Record.
Proof. solve_decision. Defined.

Global Instance Record_countable : Countable Record.
Proof.
  refine (inj_countable'
    (λ r, match r with
          | RSet k v => inl (k, v)
          | RDelete k => inr (inl k)
          | RBulkSet items => inr (inr items)
          end)
    (λ x, match x with
          | inl (k, v) => RSet k v
          | inr (inl k) => RDelete k
          | inr (inr items) => RBulkSet items
          end) _); by intros [].
Defined.

Fixpoint pos_bytes (p : positive) : list byte :=
  match p with
  | xH => [x2e]
  | xO p => x30 :: pos_bytes p
  | xI p => x31 :: pos_bytes p
  end.

Fixpoint parse_pos (bs : list byte) : option positive :=
  match bs with
  | [] => None
  | b :: rest =>
      match b with
      | x2e => match rest with [] => Some xH | _ => None end
      | x30 => xO <$> parse_pos rest
      | x31 => xI <$> parse_pos rest
      | _ => None
      end
  end.

Definition reference_pickle (A : Type) `{Countable A} : Pickle A :=
  {| dumps x := pos_bytes (encode x);
     loads bs := p ← parse_pos bs; decode p |}.

Definition reference_record : Pickle Record := reference_pickle Record.
Definition reference_store : Pickle Store := reference_pickle Store.

Lemma parse_pos_bytes p : parse_pos (pos_bytes p) = Some p.
Proof. induction p as [p IH | p IH |]; simpl; [by rewrite IH .. | done]. Qed.

Lemma parse_pos_truncated p n :
  n < length (pos_bytes p) → parse_pos (take n (pos_bytes p)) = None.
Proof.
  revert n. induction p as [p IH | p IH |]; intros [| n] Hn; simpl in *; try done.
  - rewrite IH; [done | lia].
  - rewrite IH; [done | lia].
  - lia.
Qed.

Lemma reference_pickle_laws (A : Type) `{Countable A} :
  @PickleLaws A (reference_pickle A).
Proof.
  split; simpl.
  - intros x. rewrite parse_pos_bytes. simpl. apply decode_encode.
  - done.
  - intros x n Hn. by rewrite parse_pos_truncated.
Qed.

Definition reference_record_laws : @PickleLaws Record reference_record :=
  reference_pickle_laws Record.
Definition reference_store_laws : @PickleLaws Store reference_store :=
  reference_pickle_laws Store.


(** ** Vocabulary of the statements *)

Definition hashable (key : Value) : bool :=
  match key with
  | VList _ | VDict _ => false
  | _ => true
  end.

(** A call whose keys can be dictionary keys, as the protocol's string
    keys are. *)
Definition well_keyed (c : Call) : Prop :=
  match c with
  | CSet key _ => hashable key = true
  | CBulkSet items => Forall (λ kv, hashable (fst kv) = true) items
  | _ => True
  end.

Definition is_mutation (c : Call) : Prop :=
  match c with
  | CSet _ _ | CDelete _ | CBulkSet _ => True
  | _ => False
  end.

(** The value a batch gives a key: that of the last item with the key. *)
Fixpoint last_binding (items : list (Value * Value)) (k : PyKey) : option Value :=
  match items with
  | [] => None
  | (key, value) :: rest =>
      match last_binding rest k with
      | Some v => Some v
      | None =>
          match py_hash key with
          | inr k' => if decide (k' = k) then Some value else None
          | inl _ => None
          end
      end
  end.

(** The store call a client request asks for: [None] for an unknown
    operation, [inl e] when reading the request's fields raises. *)
Definition request_call (request : Obj) : option (Res Call) :=
  let operation := obj_get request "operation" in
  if is_str operation "SET" then
    Some (key ← obj_getitem request "key";
          value ← obj_getitem request "value"; mret (CSet key value))
  else if is_str operation "GET" then
    Some (key ← obj_getitem request "key"; mret (CGet key))
  else if is_str operation "DELETE" then
    Some (key ← obj_getitem request "key"; mret (CDelete key))
  else if is_str operation "BULK_SET" then
    Some (xs ← obj_getitem request "items"; items ← items_of xs; mret (CBulkSet items))
  else None.

(** The reply built from what the call returned. *)
Definition call_reply (c : Call) (r : Res Value) : Res Obj :=
  match c with
  | CGet _ =>
      value ← r;
      match value with
      | VNone => ret reply_not_found
      | _ => ret (reply_value value)
      end
  | _ => (λ success, [("status", VStr "OK"); ("success", success)]) <$> r
  end.

Definition status_ok (response : Obj) : Prop :=
  obj_lookup response "status" = Some (VStr "OK").

(** *** What a request asks for, read off the request

    The protocol's writes are [{operation: "SET", key, value}],
    [{operation: "DELETE", key}] and
    [{operation: "BULK_SET", items: [{key, value}, ...]}], with string
    keys.  The readings below follow these forms and the words of I1, I2
    and P3; they do not go through the dispatcher's decoding of a request. *)

(** The binding an item of a batch asks for: an object with both fields. *)
Definition item_binding (item : Value) : option (Value * Value) :=
  match item with
  | VDict o =>
      match obj_lookup o "key", obj_lookup o "value" with
      | Some key, Some value => Some (key, value)
      | _, _ => None
      end
  | _ => None
  end.

(** The bindings a [BULK_SET] request asks for, in the order of its
    [items] list. *)
Definition batch_bindings (request : Obj) : list (Value * Value) :=
  match obj_lookup request "items" with
  | Some (VList l) => omap item_binding l
  | _ => []
  end.

(** The value a batch gives the string key [k]: that of the last item
    whose key is [k]. *)
Fixpoint last_item (items : list (Value * Value)) (k : string) : option Value :=
  match items with
  | [] => None
  | (key, value) :: rest =>
      match last_item rest k with
      | Some v => Some v
      | None => if is_str key k then Some value else None
      end
  end.

(** No item of a [BULK_SET] request has a list or an object as its key. *)
Definition batch_keys_hashable (request : Obj) : Prop :=
  is_str (obj_get request "operation") "BULK_SET" = true →
  Forall (λ kv, hashable (fst kv) = true) (batch_bindings request).

(** Following the words of P3: the binding of the string key [k] after one
    exchange.  An acknowledged [SET] or [BULK_SET] to [k] binds it to the
    value written, an acknowledged [DELETE] of [k] leaves it unbound,
    anything else leaves it as it was. *)
Definition acknowledged_write (request response : Obj) (k : string)
    (before : option Value) : option Value :=
  if is_str (obj_get response "status") "OK" then
    let operation := obj_get request "operation" in
    if is_str operation "SET" then
      if is_str (obj_get request "key") k then Some (obj_get request "value") else before
    else if is_str operation "DELETE" then
      if is_str (obj_get request "key") k then None else before
    else if is_str operation "BULK_SET" then
      match last_item (batch_bindings request) k with
      | Some v => Some v
      | None => before
      end
    else before
  else before.

(** The value bound by the most recent acknowledged write to [k] in a
    history of exchanges; [None] when that write was a [DELETE] or there was
    none (the store started with [initial]). *)
Definition spec_binding (initial : option Value) (history : list (Obj * Obj))
    (k : string) : option Value :=
  fold_left (λ before x, acknowledged_write (fst x) (snd x) k before) history initial.

(** An item of a batch that is an object without ['key'] or ['value']. *)
Definition lacks_field (item : Value) : Prop :=
  ∃ o, item = VDict o ∧ (obj_lookup o "key" = None ∨ obj_lookup o "value" = None).

(** A request with a known operation and a required field missing. *)
Definition missing_field (request : Obj) : Prop :=
  let operation := obj_get request "operation" in
  (is_str operation "SET" = true ∧
     (obj_lookup request "key" = None ∨ obj_lookup request "value" = None))
  ∨ (is_str operation "GET" = true ∧ obj_lookup request "key" = None)
  ∨ (is_str operation "DELETE" = true ∧ obj_lookup request "key" = None)
  ∨ (is_str operation "BULK_SET" = true ∧
       (obj_lookup request "items" = None
        ∨ ∃ l, obj_lookup request "items" = Some (VList l) ∧ Exists lacks_field l)).

(** An [ERROR] reply with a message. *)
Definition is_error_reply (response : Obj) : Prop :=
  obj_lookup response "status" = Some (VStr "ERROR") ∧
  ∃ message, obj_lookup response "message" = Some (VStr message).

Section vocabulary.
Context `{Pickle Record} `{Pickle Store}.

(** The bytes of a log holding exactly the given entries. *)
Fixpoint log_bytes (operations : list Record) : Res (list byte) :=
  match operations with
  | [] => ret []
  | op :: rest =>
      b ← WriteAheadLog.frame op; bs ← log_bytes rest; ret (b ++ bs)
  end.

(** The data directory is as the store writes it (no checkpoint or a
    whole one, then whole log entries) and stands for the store [S]. *)
Definition disk_holds (d : Disk) (S : Store) : Prop :=
  ∃ (S0 : Store) (operations : list Record),
    (data_file d = None ∧ S0 = ∅ ∨ data_file d = Some (dumps S0)) ∧
    log_bytes operations = inr (wal_file d) ∧
    apply_ops S0 operations = (inr (), S).

(** The same directory when an entry with an unhashable key may have
    reached the log (the entry is written before the store raises): its
    replay gives the store [S], or raises at such an entry. *)
Definition disk_tracks (d : Disk) (S : Store) : Prop :=
  ∃ (S0 : Store) (operations : list Record),
    (data_file d = None ∧ S0 = ∅ ∨ data_file d = Some (dumps S0)) ∧
    log_bytes operations = inr (wal_file d) ∧
    (apply_ops S0 operations = (inr (), S)
     ∨ ∃ e S', apply_ops S0 operations = (inl e, S')).

(** Recovery run again and again on the directory each run leaves. *)
Fixpoint recover_times (n : nat) (d : Disk) : Res KVStore :=
  match n with
  | O => KVStore.__init__ d
  | S n' => kv ← KVStore.__init__ d; recover_times n' (disk kv)
  end.
End vocabulary.

(** What a list of log entries does to a store, as writes: see
    "The store as a sequence of writes" below. *)

Fixpoint items_writes (items : list (Value * Value))
    : Res () * list (PyKey * option Value) :=
  match items with
  | [] => (inr (), [])
  | (key, value) :: rest =>
      match py_hash key with
      | inl e => (inl e, [])
      | inr k => let '(r, ws) := items_writes rest in (r, (k, Some value) :: ws)
      end
  end.

Definition op_writes (op : Record) : Res () * list (PyKey * option Value) :=
  match op with
  | RSet key value =>
      match py_hash key with
      | inl e => (inl e, [])
      | inr k => (inr (), [(k, Some value)])
      end
  | RDelete key =>
      match py_hash key with
      | inl e => (inl e, [])
      | inr k => (inr (), [(k, None)])
      end
  | RBulkSet items => items_writes items
  end.

Fixpoint ops_writes (ops : list Record) : Res () * list (PyKey * option Value) :=
  match ops with
  | [] => (inr (), [])
  | op :: rest =>
      match op_writes op with
      | (inl e, ws) => (inl e, ws)
      | (inr _, ws) => let '(r, ws') := ops_writes rest in (r, ws ++ ws')
      end
  end.

Definition do_writes (S : Store) (ws : list (PyKey * option Value)) : Store :=
  fold_left (λ S w, partial_alter (λ _, snd w) (fst w) S) ws S.

(** The last write to a key, if any. *)
Fixpoint written (ws : list (PyKey * option Value)) (k : PyKey)
    : option (option Value) :=
  match ws with
  | [] => None
  | w :: rest =>
      match written rest k with
      | Some o => Some o
      | None => if decide (fst w = k) then Some (snd w) else None
      end
  end.

(** ** Sample data for the closed statements *)

Definition fresh : KVStore := mkKV ∅ disk_init.

Definition set_request (key : string) (value : Value) : Obj :=
  [("operation", VStr "SET"); ("key", VStr key); ("value", value)].
Definition get_request (key : string) : Obj :=
  [("operation", VStr "GET"); ("key", VStr key)].
Definition delete_request (key : string) : Obj :=
  [("operation", VStr "DELETE"); ("key", VStr key)].
Definition bulk_set_request (items : list (string * Value)) : Obj :=
  [("operation", VStr "BULK_SET");
   ("items", VList (map (λ kv, VDict [("key", VStr (fst kv)); ("value", snd kv)]) items))].


(** Every reply the function returns has a status. *)
Definition has_status (r : Res Obj) : Prop :=
  ∀ response, r = inr response → ∃ st, obj_lookup response "status" = Some (VStr st).


(** Three nodes started together at time 0, none with [--primary]. *)
Definition three_nodes : list ClusterNode :=
  [ ClusterNode.__init__ 0 "localhost" 10001 [("localhost", 10002%Z); ("localhost", 10003%Z)] 0;
    ClusterNode.__init__ 1 "localhost" 10002 [("localhost", 10001%Z); ("localhost", 10003%Z)] 0;
    ClusterNode.__init__ 2 "localhost" 10003 [("localhost", 10001%Z); ("localhost", 10002%Z)] 0 ].

Definition two_primaries (w : ClusterNode.World) : Prop :=
  ∃ i j ni nj,
    i ≠ j ∧ ClusterNode.nodes w !! i = Some ni ∧ ClusterNode.nodes w !! j = Some nj ∧
    role ni = PRIMARY ∧ role nj = PRIMARY ∧ term ni = term nj.


(** ** Vocabulary of the cluster statements *)

(** What no message changes of a node: who it is and whom it knows; and
    its term does not go down. *)
Definition node_extends (n n' : ClusterNode) : Prop :=
  node_id n' = node_id n ∧ host n' = host n ∧ port n' = port n ∧
  peers n' = peers n ∧ heartbeat_timeout n' = heartbeat_timeout n ∧
  (term n ≤ term n')%Z.

(** The number of messages of a round to [targets] that reach the node at
    position [j]: one for each target that answers and whose address is
    first held by that node. *)
Definition deliveries (nodes : list ClusterNode) (up : Addr → bool)
    (targets : list Addr) (j : nat) : nat :=
  length (filter (λ peer, up peer = true ∧ fst <$> ClusterNode.resolve nodes peer = Some j)
                 targets).

(** A node that follows the primary at [h]:[p] since [now], in a term that
    is at least [t]. *)
Definition follower (n : ClusterNode) (t : Z) (h : string) (p : Z) (now : Z)
    : ClusterNode :=
  mkNode (node_id n) (host n) (port n) (peers n) (kvstore n) SECONDARY
         (VList [VStr h; VInt p]) now (heartbeat_timeout n) (Z.max (term n) t)
         (voted_for n).

(** The node that starts an election: a candidate of the next term that
    has voted for itself. *)
Definition candidate (n : ClusterNode) : ClusterNode :=
  set_voted_for (set_term (set_role n CANDIDATE) (term n + 1)) (VInt (node_id n)).

(** What a vote request can change of a voter: its term, up to the
    request's, and its vote. *)
Definition vote_extends (T : Z) (n n' : ClusterNode) : Prop :=
  node_extends n n' ∧ role n' = role n ∧ kvstore n' = kvstore n ∧
  primary_node n' = primary_node n ∧ last_heartbeat n' = last_heartbeat n ∧
  (term n' ≤ Z.max (term n) T)%Z.

Section cluster_vocabulary.
Context `{Pickle Record}.

(** A secondary that has served the request on its own store; any other
    node as it is. *)
Definition replica (request : Obj) (n : ClusterNode) : ClusterNode :=
  if decide (role n = SECONDARY)
  then set_kvstore n (snd (KVStoreServer._process_request (kvstore n) request))
  else n.
End cluster_vocabulary.

(** A primary started with [--primary] and two secondaries that list it. *)
Definition primary_and_two : list ClusterNode :=
  [ ClusterNode.main_primary 0 "localhost" 10001
      [("localhost", 10002%Z); ("localhost", 10003%Z)] 0;
    ClusterNode.__init__ 1 "localhost" 10002 [("localhost", 10001%Z); ("localhost", 10003%Z)] 0;
    ClusterNode.__init__ 2 "localhost" 10003 [("localhost", 10001%Z); ("localhost", 10002%Z)] 0 ].

(** ** The client: [class KVStoreClient]

    [_send_request] hands a request to the other end of the connection
    and returns the reply; the methods build the requests and read the
    replies.  [Conn] is whatever stands at the other end.  ([Set] is
    [Set_] here: the name is taken.) *)

Module KVStoreClient.
Section client.
Context {Conn : Type} (_send_request : Conn → Obj → Obj * Conn).

(** [response.get('status') == 'OK' and response.get('success', False)] *)
Definition ok_and_success (response : Obj) : Value :=
  if is_str (obj_get response "status") "OK"
  then obj_get_default response "success" (VBool false)
  else VBool false.

Definition Set_ (c : Conn) (key value : Value) : Value * Conn :=
  let request := [("operation", VStr "SET"); ("key", key); ("value", value)] in
  let '(response, c) := _send_request c request in
  (ok_and_success response, c).

Definition Get (c : Conn) (key : Value) : Value * Conn :=
  let request := [("operation", VStr "GET"); ("key", key)] in
  let '(response, c) := _send_request c request in
  (if is_str (obj_get response "status") "NOT_FOUND" then VNone
   else obj_get response "value", c).

Definition Delete (c : Conn) (key : Value) : Value * Conn :=
  let request := [("operation", VStr "DELETE"); ("key", key)] in
  let '(response, c) := _send_request c request in
  (ok_and_success response, c).

Definition BulkSet (c : Conn) (items : list (Value * Value)) : Value * Conn :=
  let request :=
    [("operation", VStr "BULK_SET");
     ("items", VList (map (λ '(k, v), VDict [("key", k); ("value", v)]) items))] in
  let '(response, c) := _send_request c request in
  (ok_and_success response, c).
End client.
End KVStoreClient.

(** ** The wire: [json], sockets and the length-prefixed messages

    [_handle_client] (the same text in [KVStoreServer] and in
    [ClusterNode]) and [KVStoreClient._send_request]. *)

(** [json.dumps(v).encode('utf-8')] and [json.loads(bs.decode('utf-8'))];
    [json_loads] gives [None] where decoding raises. *)
Class Json := {
  json_dumps : Value → list byte;
  json_loads : list byte → option Value
}.

Class JsonLaws `{Json} : Prop := {
  json_loads_dumps : ∀ v : Value, json_loads (json_dumps v) = Some v
}.

(** The receiving side of a connected socket: the bytes still to come, in
    the pieces in which they arrive, and after them the peer's close.
    [recv(bufsize)] returns what has arrived, [bufsize] bytes at most, and
    [b''] once the peer has closed. *)
Abbreviation Socket := (list (list byte)).

Definition recv (sock : Socket) (bufsize : nat) : list byte * Socket :=
  match sock with
  | [] => ([], [])
  | piece :: rest =>
      if decide (length piece ≤ bufsize) then (piece, rest)
      else (take bufsize piece, drop bufsize piece :: rest)
  end.

(** [data = json.dumps(v).encode('utf-8')], then
    [len(data).to_bytes(4, byteorder='big') + data]: what [sendall] is
    given. *)
Definition message_bytes `{Json} (v : Value) : Res (list byte) :=
  let data := json_dumps v in
  length_ ← to_bytes4 (N.of_nat (length data));
  ret (length_ ++ data).

(** The loop [while len(message_data) < message_length] of
    [_handle_client]: it stops on an empty read.  Every turn adds a byte
    at least, so [message_length] turns are enough. *)
Fixpoint read_message (fuel : nat) (sock : Socket) (message_length : nat)
    (message_data : list byte) : list byte * Socket :=
  match fuel with
  | O => (message_data, sock)
  | S fuel' =>
      if decide (length message_data < message_length) then
        let '(chunk, sock') :=
          recv sock ((message_length - length message_data) `min` 4096) in
        match chunk with
        | [] => (message_data, sock')
        | _ => read_message fuel' sock' message_length (message_data ++ chunk)
        end
      else (message_data, sock)
  end.

Definition type_name (v : Value) : string :=
  match v with
  | VNone => "NoneType"
  | VBool _ => "bool"
  | VInt _ => "int"
  | VStr _ => "str"
  | VList _ => "list"
  | VDict _ => "dict"
  end.

Section handle_client.
Context `{Json} {State : Type} (_process_request : State → Obj → Obj * State).

(** [self._process_request(request)] on whatever [json.loads] returned:
    [request.get] inside the [try] raises on anything but an object. *)
Definition process_decoded (st : State) (request : Value) : Obj * State :=
  match request with
  | VDict request => _process_request st request
  | _ => (reply_error ("'" +:+ type_name request +:+ "' object has no attribute 'get'"), st)
  end.

(** The [while True] loop of [_handle_client]; [sent] is what [sendall]
    has been given so far.  Every way out of the loop ([break], or an
    exception caught by [except Exception]) ends in [client_socket.close()].
    Every turn that does not leave the loop reads a byte at least. *)
Fixpoint handle_loop (fuel : nat) (st : State) (sock : Socket) (sent : list byte)
    : State * list byte :=
  match fuel with
  | O => (st, sent)
  | S fuel' =>
      let '(length_bytes, sock) := recv sock 4 in
      match length_bytes with
      | [] => (st, sent)
      | _ =>
          let message_length := N.to_nat (from_bytes length_bytes) in
          let '(message_data, sock) := read_message message_length sock message_length [] in
          if decide (length message_data ≠ message_length) then (st, sent)
          else
            match json_loads message_data with
            | None => (st, sent)
            | Some request =>
                let '(response, st) := process_decoded st request in
                match message_bytes (VDict response) with
                | inl _ => (st, sent)
                | inr bs => handle_loop fuel' st sock (sent ++ bs)
                end
            end
      end
  end.

Definition _handle_client (st : State) (client_socket : Socket) : State * list byte :=
  handle_loop (S (length (concat client_socket))) st client_socket [].
End handle_client.

(** What [KVStoreClient._send_request] raises. *)
Inductive client_exn : Type :=
  | ConnectionError (msg : string)
  | ClientOverflowError
  | JSONDecodeError.

(** The loop [while len(response_data) < response_length] of
    [_send_request]: it raises on an empty read. *)
Fixpoint read_response (fuel : nat) (sock : Socket) (response_length : nat)
    (response_data : list byte) : (client_exn + list byte) * Socket :=
  match fuel with
  | O => (inr response_data, sock)
  | S fuel' =>
      if decide (length response_data < response_length) then
        let '(chunk, sock') :=
          recv sock ((response_length - length response_data) `min` 4096) in
        match chunk with
        | [] => (inl (ConnectionError "Connection closed by server"), sock')
        | _ => read_response fuel' sock' response_length (response_data ++ chunk)
        end
      else (inr response_data, sock)
  end.

(** [_send_request]: the bytes given to [sendall], what is returned or
    raised, and the socket as it is left.  [sock] is the receiving side
    after the request was sent. *)
Definition _send_request `{Json} (request : Obj) (sock : Socket)
    : list byte * (client_exn + Value) * Socket :=
  match message_bytes (VDict request) with
  | inl _ => ([], inl ClientOverflowError, sock)
  | inr bs =>
      let '(length_bytes, sock) := recv sock 4 in
      match length_bytes with
      | [] => (bs, inl (ConnectionError "Connection closed by server"), sock)
      | _ =>
          let response_length := N.to_nat (from_bytes length_bytes) in
          match read_response response_length sock response_length [] with
          | (inl e, sock) => (bs, inl e, sock)
          | (inr response_data, sock) =>
              match json_loads response_data with
              | None => (bs, inl JSONDecodeError, sock)
              | Some response => (bs, inr response, sock)
              end
          end
      end
  end.

(** What [ClusterNode._send_to_peer] returns: the decoded reply, or the
    [ERROR] dictionary that every failure gives ([{'status': 'ERROR'}],
    with the exception's text as ['message'] when one was raised). *)
Inductive peer_reply : Type :=
  | Reply (response : Value)
  | ErrorDict.

(** [_send_to_peer] once connected: the message is sent, the length is
    read, and the reply is read by one [sock.recv(response_length)]. *)
Definition send_to_peer_socket `{Json} (message : Obj) (sock : Socket)
    : list byte * peer_reply :=
  match message_bytes (VDict message) with
  | inl _ => ([], ErrorDict)
  | inr bs =>
      let '(length_bytes, sock) := recv sock 4 in
      match length_bytes with
      | [] => (bs, ErrorDict)
      | _ =>
          let response_length := N.to_nat (from_bytes length_bytes) in
          let '(response_data, _) := recv sock response_length in
          match json_loads response_data with
          | None => (bs, ErrorDict)
          | Some response => (bs, Reply response)
          end
      end
  end.

(** A JSON object cut short does not decode (it ends with its closing
    brace). *)
Class JsonObjectLaws `{Json} : Prop := {
  json_loads_truncated : ∀ (o : Obj) (n : nat),
    n < length (json_dumps (VDict o)) → json_loads (take n (json_dumps (VDict o))) = None
}.

(** A message arrives whole: in pieces that are not empty, the first of
    which holds the four bytes of the length at least. *)
Definition arrives (bs : list byte) (pieces : Socket) : Prop :=
  concat pieces = bs ∧ Forall (λ piece, piece ≠ []) pieces ∧
  4 ≤ length (default [] (head pieces)).

(** The connection ends inside a message: the peer closes at once, or
    after the length has been read fewer bytes follow than it announces. *)
Definition cut_short (sock : Socket) : Prop :=
  Forall (λ piece, piece ≠ []) sock ∧
  length (concat sock) - length (fst (recv sock 4))
  < N.to_nat (from_bytes (fst (recv sock 4))).

(** [json] for the closed statements: the reference codec on values. *)
Definition reference_json : Json :=
  {| json_dumps := @dumps Value (reference_pickle Value);
     json_loads := @loads Value (reference_pickle Value) |}.

(** The bytes of a message under the reference codec. *)
Definition reference_message (v : Value) : list byte :=
  match @message_bytes reference_json v with
  | inr bs => bs
  | inl _ => []
  end.

(** A message in two pieces, the first of six bytes. *)
Definition in_two_pieces (bs : list byte) : Socket := [take 6 bs; drop 6 bs].

(** ** The full-text index: [kvstore_indexing.py]

    [InvertedIndex] maps a word to the set of keys whose value holds it;
    [IndexedKVStore] keeps one beside a [KVStore].  [tokenize] is
    [re.findall(r'\w+', str(text).lower())]: [str] and regular
    expressions are the library's and stay a parameter.  Keys are the
    dictionary keys that [KVStore.set] accepted. *)

Class Tokenizer := tokenize : Value → list string.

Abbreviation Index := (gmap string (gset PyKey)).

(** [self.index.get(token, set())] *)
Definition postings (index : Index) (token : string) : gset PyKey :=
  default ∅ (index !! token).

Module InvertedIndex.
Section index.
Context `{Tokenizer}.

(** [remove_document]: the key leaves every word's set, and a word whose
    set becomes empty is deleted. *)
Definition remove_document (index : Index) (key : PyKey) : Index :=
  omap (λ keys : gset PyKey,
          if decide (key ∈ keys)
          then let keys := keys ∖ {[key]} in
               if decide (keys = ∅) then None else Some keys
          else Some keys) index.

(** [index_document]: the old entries of the key are removed, then
    [self.index[token].add(key)] for every token of the value. *)
Definition index_document (index : Index) (key : PyKey) (value : Value) : Index :=
  let index := remove_document index key in
  fold_left (λ index token, <[token := postings index token ∪ {[key]}]> index)
            (tokenize value) index.

(** [search]: the keys that every token of the query leads to. *)
Definition search (index : Index) (query : Value) : gset PyKey :=
  let tokens := tokenize query in
  match tokens with
  | [] => ∅
  | _ =>
      let result_sets := map (postings index) tokens in
      match result_sets with
      | [] => ∅
      | first :: others => fold_left (λ results s, results ∩ s) others first
      end
  end.

(** [search_or]: the keys that some token of the query leads to. *)
Definition search_or (index : Index) (query : Value) : gset PyKey :=
  let tokens := tokenize query in
  match tokens with
  | [] => ∅
  | _ => fold_left (λ results token, results ∪ postings index token) tokens ∅
  end.
End index.
End InvertedIndex.

(** A dictionary key as the value it is ([True] and [1] are one key). *)
Definition key_value (k : PyKey) : Value :=
  match k with
  | KNone => VNone
  | KNum n => VInt n
  | KStr s => VStr s
  end.

(** [IndexedKVStore]: the store and its inverted index (the n-gram
    index beside them is scored in floating point and is left out). *)
Record IndexedKVStore : Type := mkIndexed {
  indexed_kvstore : KVStore;
  inverted_index : Index
}.

Module IndexedKVStore.
Section indexed.
Context `{Pickle Record} `{Pickle Store} `{Tokenizer}.

(** [_rebuild_indexes]: every pair of [get_all_data()] is indexed. *)
Definition _rebuild_indexes (kv : KVStore) (index : Index) : Index :=
  map_fold (λ key value index, InvertedIndex.index_document index key value)
           index (KVStore.get_all_data kv).

Definition __init__ (kv : KVStore) : IndexedKVStore :=
  mkIndexed kv (_rebuild_indexes kv ∅).

(** [for key, value in items: self.inverted_index.index_document(key, value)];
    the store call has hashed every key before. *)
Definition index_items (index : Index) (items : list (Value * Value)) : Index :=
  fold_left (λ index '(key, value),
               match py_hash key with
               | inr k => InvertedIndex.index_document index k value
               | inl _ => index
               end) items index.

(** [set], [delete], [bulk_set]: the store call, then the index when the
    result is true; an exception of the store call leaves the index. *)
Definition set (st : IndexedKVStore) (key value : Value) : Res bool * IndexedKVStore :=
  let '(result, kv) := KVStore.set (indexed_kvstore st) key value in
  (result,
   mkIndexed kv
     match result, py_hash key with
     | inr true, inr k => InvertedIndex.index_document (inverted_index st) k value
     | _, _ => inverted_index st
     end).

Definition get (st : IndexedKVStore) (key : Value) : Res Value :=
  KVStore.get (indexed_kvstore st) key.

Definition delete (st : IndexedKVStore) (key : Value) : Res bool * IndexedKVStore :=
  let '(result, kv) := KVStore.delete (indexed_kvstore st) key in
  (result,
   mkIndexed kv
     match result, py_hash key with
     | inr true, inr k => InvertedIndex.remove_document (inverted_index st) k
     | _, _ => inverted_index st
     end).

Definition bulk_set (st : IndexedKVStore) (items : list (Value * Value))
    : Res bool * IndexedKVStore :=
  let '(result, kv) := KVStore.bulk_set (indexed_kvstore st) items in
  (result,
   mkIndexed kv
     match result with
     | inr true => index_items (inverted_index st) items
     | _ => inverted_index st
     end).

(** [search_fulltext]: the keys found, each with its value, without the
    keys whose value is [None]; in the order in which the set is gone
    through. *)
Definition search_fulltext (st : IndexedKVStore) (query : Value) (match_all : bool)
    : list (PyKey * Value) :=
  let keys := if match_all then InvertedIndex.search (inverted_index st) query
              else InvertedIndex.search_or (inverted_index st) query in
  omap (λ key,
          match KVStore.get (indexed_kvstore st) (key_value key) with
          | inr VNone | inl _ => None
          | inr value => Some (key, value)
          end) (elements keys).

(** The calls on the pair, as [Call]s; a checkpoint is the wrapped
    store's. *)
Definition call (st : IndexedKVStore) (c : Call) : IndexedKVStore :=
  match c with
  | CSet key value => snd (set st key value)
  | CGet _ => st
  | CDelete key => snd (delete st key)
  | CBulkSet items => snd (bulk_set st items)
  | CCheckpoint => mkIndexed (KVStore.checkpoint (indexed_kvstore st)) (inverted_index st)
  end.

Definition run (st : IndexedKVStore) (cs : list Call) : IndexedKVStore :=
  fold_left call cs st.
End indexed.
End IndexedKVStore.

(** The index agrees with the store: a word leads to a key exactly when
    the key is bound to a value that holds the word. *)
Definition index_agrees `{Tokenizer} (st : IndexedKVStore) : Prop :=
  ∀ (word : string) (k : PyKey),
    k ∈ postings (inverted_index st) word ↔
    ∃ value, store (indexed_kvstore st) !! k = Some value ∧ word ∈ tokenize value.

(** No word is kept with an empty set. *)
Definition no_empty_words (index : Index) : Prop :=
  ∀ word, index !! word ≠ Some ∅.

(** A tokenizer for the closed statements: a string is one word, anything
    else has none. *)
Definition one_word : Tokenizer :=
  λ v, match v with VStr s => [s] | _ => [] end.


(** * Properties *)

(** ** The model at work *)

(** Scenario "basic round-trip": SET, GET, DELETE, GET on an empty store. *)
Example basic_round_trip :
  fst (@KVStoreServer.serve reference_record fresh
         [set_request "a" (VStr "1"); get_request "a"; delete_request "a"; get_request "a"])
  = [reply_success true; reply_value (VStr "1"); reply_success true; reply_not_found].
Proof. vm_compute. reflexivity. Qed.

(** A crash after three acknowledged writes, then a restart: the store
    comes back from the log alone, then from checkpoint and log. *)
Example restart_from_log :
  let requests := [set_request "a" (VInt 1); bulk_set_request [("b", VInt 2); ("c", VInt 3)];
                   delete_request "a"] in
  let kv := snd (@KVStoreServer.serve reference_record fresh requests) in
  @KVStore.__init__ reference_record reference_store (disk kv) = inr kv ∧
  store kv = {[ KStr "b" := VInt 2; KStr "c" := VInt 3 ]} ∧
  let kv' := snd (@KVStoreServer.serve reference_record
                    (@KVStore.checkpoint reference_store kv) [set_request "d" VNone]) in
  @KVStore.__init__ reference_record reference_store (disk kv') = inr kv'.
Proof. split_and!; vm_compute; reflexivity. Qed.

(** An unknown operation, a request without operation, a missing key. *)
Example error_replies :
  fst (@KVStoreServer.serve reference_record fresh
         [[("operation", VStr "PING")]; []; [("operation", VStr "GET")]])
  = [reply_error "Unknown operation"; reply_error "Unknown operation"; reply_error "'key'"].
Proof. vm_compute. reflexivity. Qed.

(** Write gating: a secondary refuses a write and names the primary it
    last heard of. *)
Example not_primary :
  let n := set_primary_node (ClusterNode.__init__ 1 "localhost" 10002 [] 0)
             (VList [VStr "localhost"; VInt 10001]) in
  fst (fst (@ClusterNode._process_request reference_record n (set_request "k" (VInt 1)) 0))
  = reply_not_primary (VList [VStr "localhost"; VInt 10001]).
Proof. vm_compute. reflexivity. Qed.

(** ** Bytes and framing *)

Lemma to_N_byte_of_N n : (n < 256)%N → Byte.to_N (byte_of_N n) = n.
Proof.
  intros Hn. unfold byte_of_N. destruct (Byte.of_N n) as [b |] eqn:E.
  - simpl. by apply Byte.to_of_N.
  - apply Byte.of_N_None_iff in E. lia.
Qed.

Lemma from_bytes_to_bytes4 n bs :
  to_bytes4 n = inr bs → from_bytes bs = n ∧ length bs = 4.
Proof.
  unfold to_bytes4. case_decide as Hn; [| done]. intros [= <-]. split; [| done].
  unfold from_bytes. simpl.
  rewrite !to_N_byte_of_N by (apply N.mod_lt; done).
  change (2 ^ 24)%N with 16777216%N. change (2 ^ 16)%N with 65536%N.
  change (2 ^ 8)%N with 256%N. change (2 ^ 32)%N with 4294967296%N in Hn.
  zify. Z.to_euclidean_division_equations. lia.
Qed.

Section framing.
Context `{Pickle Record} `{!PickleLaws Record}.

Lemma frame_inv op b :
  WriteAheadLog.frame op = inr b →
  ∃ pre, b = pre ++ dumps op ∧ length pre = 4 ∧
         N.to_nat (from_bytes pre) = length (dumps op).
Proof.
  unfold WriteAheadLog.frame.
  destruct (to_bytes4 _) as [e | pre] eqn:E; [done |]. intros [= <-].
  apply from_bytes_to_bytes4 in E as [E1 E2].
  exists pre. rewrite E1. split_and!; [done | done | lia].
Qed.

Lemma frame_length op b : WriteAheadLog.frame op = inr b → 4 ≤ length b.
Proof.
  intros (pre & -> & Hl & _)%frame_inv. rewrite length_app. lia.
Qed.

(** The loop does not depend on its fuel, once above the bytes left. *)
Lemma replay_loop_fuel fuel fuel' f acc :
  length f < fuel → length f < fuel' →
  WriteAheadLog.replay_loop fuel f acc = WriteAheadLog.replay_loop fuel' f acc.
Proof.
  revert fuel' f acc. induction fuel as [| fuel IH]; intros [| fuel'] f acc H1 H2;
    [lia .. |].
  simpl. destruct (take 4 f) as [| b0 pre] eqn:Et; [done |].
  destruct (pickle_loads _) as [e | op]; [done |]. simpl.
  assert (length (drop 4 f) < length f).
  { rewrite length_drop. destruct f; [done | simpl; lia]. }
  apply IH; rewrite length_drop; lia.
Qed.

Lemma replay_loop_nil fuel acc : WriteAheadLog.replay_loop fuel [] acc = inr acc.
Proof. by destruct fuel. Qed.

(** One whole entry at the head of the file is read and decoded. *)
Lemma replay_loop_frame op b rest acc fuel :
  WriteAheadLog.frame op = inr b → length (b ++ rest) < fuel →
  WriteAheadLog.replay_loop fuel (b ++ rest) acc
  = WriteAheadLog.replay_loop (S (length rest)) rest (acc ++ [op]).
Proof.
  intros (pre & -> & Hl & Hn)%frame_inv Hf.
  remember (WriteAheadLog.replay_loop (S (length rest)) rest (acc ++ [op])) as R.
  destruct fuel as [| fuel]; [lia |]. simpl.
  rewrite <- !(assoc_L (++)). rewrite take_app_length' by done.
  rewrite drop_app_length' by done.
  destruct pre as [| b0 pre]; [done |].
  rewrite Hn, take_app_length, drop_app_length.
  unfold pickle_loads. rewrite loads_dumps. simpl. subst R.
  apply replay_loop_fuel; [| lia].
  rewrite !length_app in Hf. simpl in Hf. lia.
Qed.

Lemma log_bytes_snoc ops op bs b :
  log_bytes ops = inr bs → WriteAheadLog.frame op = inr b →
  log_bytes (ops ++ [op]) = inr (bs ++ b).
Proof.
  revert bs. induction ops as [| o ops IH]; simpl; intros bs.
  - intros [= <-] ->. simpl. by rewrite (right_id_L [] (++)).
  - destruct (WriteAheadLog.frame o) as [e | b0]; [done |]. simpl.
    destruct (log_bytes ops) as [e | bs0]; [done |]. simpl.
    intros [= <-] Hb. rewrite (IH bs0) by done. simpl.
    by rewrite (assoc_L (++)).
Qed.

(** A log of whole entries, then anything: the entries are read, and the
    loop goes on with what follows. *)
Lemma replay_loop_log ops bs tail acc fuel :
  log_bytes ops = inr bs → length (bs ++ tail) < fuel →
  WriteAheadLog.replay_loop fuel (bs ++ tail) acc
  = WriteAheadLog.replay_loop (S (length tail)) tail (acc ++ ops).
Proof.
  revert bs acc fuel. induction ops as [| o ops IH]; intros bs acc fuel Hl Hf;
    simpl in Hl.
  - injection Hl as <-. rewrite (right_id_L [] (++)).
    apply replay_loop_fuel; simpl in Hf; lia.
  - destruct (WriteAheadLog.frame o) as [e | b0] eqn:Eo; [done |]. simpl in Hl.
    destruct (log_bytes ops) as [e | bs0] eqn:Eops; [done |]. simpl in Hl.
    injection Hl as <-. rewrite <- (assoc_L (++)).
    rewrite (replay_loop_frame o b0) by (rewrite ?(assoc_L (++)); done).
    rewrite (IH bs0) by (done || lia).
    by rewrite <- (assoc_L (++)).
Qed.

Lemma replay_eq d :
  WriteAheadLog.replay d
  = WriteAheadLog.replay_loop (S (length (wal_file d))) (wal_file d) [].
Proof. unfold WriteAheadLog.replay. by destruct (wal_file d). Qed.

(** Replay of a log of whole entries gives the entries, in order. *)
Lemma replay_log d ops :
  log_bytes ops = inr (wal_file d) → WriteAheadLog.replay d = inr ops.
Proof.
  intros Hl. unfold WriteAheadLog.replay.
  destruct (wal_file d) as [| b0 f] eqn:Ef.
  - destruct ops as [| o ops]; [done |]. simpl in Hl.
    destruct (WriteAheadLog.frame o) as [e | b] eqn:Eo; [done |].
    apply frame_length in Eo. simpl in Hl.
    destruct (log_bytes ops); [done |]. simpl in Hl.
    injection Hl as Hl. destruct b; simpl in *; [lia | done].
  - rewrite <- (right_id_L [] (++) (b0 :: f)).
    rewrite (replay_loop_log ops (b0 :: f) [] []) by (rewrite ?(right_id_L [] (++)); done || lia).
    by rewrite replay_loop_nil.
Qed.

(** A cut-short entry at the head of what is left makes the loop raise. *)
Lemma replay_loop_truncated op b n acc fuel :
  WriteAheadLog.frame op = inr b → 0 < n < length b → n < fuel →
  ∃ e, WriteAheadLog.replay_loop fuel (take n b) acc = inl e.
Proof.
  intros (pre & -> & Hl & Hn)%frame_inv Hlt Hf.
  destruct fuel as [| fuel]; [lia |]. simpl.
  rewrite take_take. destruct (decide (n < 4)) as [Hn4 | Hn4].
  - rewrite Nat.min_r by lia. rewrite take_app_le by lia.
    rewrite (drop_ge (take n pre)) by (rewrite length_take; lia).
    destruct (take n pre) as [| b0 pre'] eqn:Ep.
    { apply (f_equal length) in Ep. rewrite length_take in Ep. simpl in Ep. lia. }
    rewrite take_nil. unfold pickle_loads. rewrite loads_nil. by eexists.
  - rewrite Nat.min_l by lia. rewrite take_app_length' by done.
    destruct pre as [| b0 pre']; [done |].
    rewrite take_app_ge by lia. rewrite drop_app_length' by done.
    rewrite Hl, Hn. rewrite take_take. rewrite length_app in Hlt.
    rewrite Nat.min_r by lia.
    unfold pickle_loads. rewrite loads_truncated by lia. by eexists.
Qed.
End framing.

(** ** The store as a sequence of writes

    What a list of log entries does to a store does not depend on the
    store: it is a fixed list of writes (bind a key, unbind a key), cut
    where an unhashable key raises. *)

Lemma lookup_do_writes ws (S : Store) k :
  do_writes S ws !! k = default (S !! k) (written ws k).
Proof.
  revert S. induction ws as [| [k' o] ws IH]; intros S; simpl; [done |].
  unfold do_writes in *. simpl. rewrite IH.
  destruct (written ws k); simpl; [done |].
  case_decide as E.
  - subst. by rewrite lookup_partial_alter_eq.
  - by rewrite lookup_partial_alter_ne.
Qed.

Lemma do_writes_idempotent ws (S : Store) :
  do_writes (do_writes S ws) ws = do_writes S ws.
Proof.
  apply map_eq. intros k. rewrite !lookup_do_writes.
  by destruct (written ws k).
Qed.

Lemma do_writes_app (S : Store) ws ws' :
  do_writes S (ws ++ ws') = do_writes (do_writes S ws) ws'.
Proof. apply fold_left_app. Qed.

Lemma setitems_writes (S : Store) items :
  setitems S items = (fst (items_writes items), do_writes S (snd (items_writes items))).
Proof.
  revert S. induction items as [| [key value] items IH]; intros S; simpl; [done |].
  unfold dict_setitem. destruct (py_hash key) as [e | k]; simpl; [done |].
  rewrite IH. by destruct (items_writes items).
Qed.

Lemma apply_op_writes (S : Store) op :
  apply_op S op = (fst (op_writes op), do_writes S (snd (op_writes op))).
Proof.
  destruct op as [key value | key | items]; simpl.
  - unfold dict_setitem. by destruct (py_hash key).
  - unfold dict_pop. by destruct (py_hash key).
  - apply setitems_writes.
Qed.

Lemma apply_ops_writes (S : Store) ops :
  apply_ops S ops = (fst (ops_writes ops), do_writes S (snd (ops_writes ops))).
Proof.
  revert S. induction ops as [| op ops IH]; intros S; simpl; [done |].
  rewrite apply_op_writes. destruct (op_writes op) as [[e | []] ws]; simpl; [done |].
  rewrite IH. destruct (ops_writes ops) as [r ws']. simpl.
  by rewrite do_writes_app.
Qed.

Lemma apply_ops_app (S : Store) ops ops' :
  apply_ops S (ops ++ ops') =
  match apply_ops S ops with
  | (inl e, S') => (inl e, S')
  | (inr _, S') => apply_ops S' ops'
  end.
Proof.
  revert S. induction ops as [| op ops IH]; intros S; simpl; [done |].
  destruct (apply_op S op) as [[e | []] S1]; [done |]. apply IH.
Qed.

Lemma apply_ops_twice (S : Store) ops :
  apply_ops (snd (apply_ops S ops)) ops = apply_ops S ops.
Proof.
  rewrite !apply_ops_writes. simpl. by rewrite do_writes_idempotent.
Qed.

Lemma hashable_py_hash key : hashable key = true → ∃ k, py_hash key = inr k.
Proof. destruct key; simpl; try done; eauto. Qed.

Lemma py_hash_hashable key k : py_hash key = inr k → hashable key = true.
Proof. by destruct key. Qed.

(** A batch of hashable keys goes through, and leaves every key at the
    value of its last item, the other keys as they were. *)
Lemma setitems_hashable (S : Store) items :
  Forall (λ kv, hashable (fst kv) = true) items →
  ∃ S', setitems S items = (inr (), S') ∧
        ∀ k, S' !! k = match last_binding items k with
                       | Some v => Some v
                       | None => S !! k
                       end.
Proof.
  revert S. induction items as [| [key value] items IH]; intros S Hh; simpl.
  - by exists S.
  - inversion Hh as [| ? ? [k Hk]%hashable_py_hash Hh']; subst. simpl in Hk.
    unfold dict_setitem. rewrite Hk. simpl.
    destruct (IH (<[k:=value]> S) Hh') as (S' & -> & HS'). exists S'. split; [done |].
    intros k0. rewrite HS'. destruct (last_binding items k0); [done |].
    case_decide as E.
    + subst. by rewrite lookup_insert_eq.
    + by rewrite lookup_insert_ne.
Qed.

(** Conversely a batch that goes through had hashable keys only. *)
Lemma setitems_ok_hashable (S S' : Store) items :
  setitems S items = (inr (), S') → Forall (λ kv, hashable (fst kv) = true) items.
Proof.
  revert S. induction items as [| [key value] items IH]; intros S; simpl; [done |].
  unfold dict_setitem. destruct (py_hash key) as [e | k] eqn:Ek; simpl; [done |].
  intros Hs. constructor; [by eapply py_hash_hashable | by eapply IH].
Qed.

(** ** The dispatcher in terms of store calls *)

Section dispatch.
Context `{Pickle Record} `{Pickle Store}.

Lemma server_body_call kv request :
  KVStoreServer.process_body kv request =
  match request_call request with
  | None => (ret (reply_error "Unknown operation"), kv)
  | Some (inl e) => (inl e, kv)
  | Some (inr c) => (call_reply c (fst (KVStore.call kv c)), snd (KVStore.call kv c))
  end.
Proof.
  unfold KVStoreServer.process_body, request_call.
  destruct (is_str _ "SET").
  { destruct (obj_getitem request "key") as [e | key]; simpl; [done |].
    destruct (obj_getitem request "value") as [e | value]; simpl; [done |].
    by destruct (KVStore.set kv key value) as [[e | b] kv']. }
  destruct (is_str _ "GET").
  { unfold get_reply. destruct (obj_getitem request "key") as [e | key]; simpl; [done |].
    by destruct (KVStore.get kv key) as [e | v]. }
  destruct (is_str _ "DELETE").
  { destruct (obj_getitem request "key") as [e | key]; simpl; [done |].
    by destruct (KVStore.delete kv key) as [[e | b] kv']. }
  destruct (is_str _ "BULK_SET"); [| done].
  destruct (obj_getitem request "items") as [e | xs]; simpl; [done |].
  destruct (items_of xs) as [e | items]; simpl; [done |].
  by destruct (KVStore.bulk_set kv items) as [[e | b] kv'].
Qed.

(** An [OK] reply to a write: the store call was made and returned. *)
Lemma server_write_ok kv request response kv' :
  KVStoreServer._process_request kv request = (response, kv') →
  is_write (obj_get request "operation") = true →
  status_ok response →
  ∃ m b, request_call request = Some (inr m) ∧ is_mutation m ∧
         KVStore.call kv m = (inr (VBool b), kv').
Proof.
  unfold KVStoreServer._process_request. rewrite server_body_call.
  unfold request_call, is_write.
  destruct (is_str _ "SET") eqn:E1.
  { destruct (obj_getitem request "key") as [e | key]; simpl.
    { by intros [= <- <-]. }
    destruct (obj_getitem request "value") as [e | value]; simpl.
    { by intros [= <- <-]. }
    destruct (KVStore.set kv key value) as [[e | b] kv1] eqn:Es; simpl.
    { by intros [= <- <-]. }
    intros [= <- <-] _ _. exists (CSet key value), b. split_and!; [done | done |].
    simpl. by rewrite Es. }
  destruct (is_str _ "GET") eqn:E2.
  { intros _ Hw _. exfalso.
    destruct (obj_get request "operation") as [| | | s | |]; try done.
    simpl in E2. case_bool_decide; [subst | done]. by vm_compute in Hw. }
  destruct (is_str _ "DELETE") eqn:E3.
  { destruct (obj_getitem request "key") as [e | key]; simpl.
    { by intros [= <- <-]. }
    destruct (KVStore.delete kv key) as [[e | b] kv1] eqn:Es; simpl.
    { by intros [= <- <-]. }
    intros [= <- <-] _ _. exists (CDelete key), b. split_and!; [done | done |].
    simpl. by rewrite Es. }
  destruct (is_str _ "BULK_SET") eqn:E4; [| done].
  destruct (obj_getitem request "items") as [e | xs]; simpl.
  { by intros [= <- <-]. }
  destruct (items_of xs) as [e | items]; simpl.
  { by intros [= <- <-]. }
  destruct (KVStore.bulk_set kv items) as [[e | b] kv1] eqn:Es; simpl.
    { by intros [= <- <-]. }
    intros [= <- <-] _ _. exists (CBulkSet items), b. split_and!; [done | done |].
    simpl. by rewrite Es.
Qed.
(** The dispatcher's decoding of a batch gives the bindings the request
    asks for. *)
Lemma items_of_list_bindings l items :
  items_of (VList l) = inr items → items = omap item_binding l.
Proof.
  unfold items_of. simpl. revert items.
  induction l as [| item l IH]; intros items; simpl; [by intros [= <-] |].
  destruct item as [| | | | | o]; simpl; try done.
  unfold obj_getitem.
  destruct (obj_lookup o "key") as [key |]; simpl; [| done].
  destruct (obj_lookup o "value") as [value |]; simpl; [| done].
  destruct (mapM _ l) as [e | items'] eqn:El; simpl; [done |].
  intros [= <-]. by rewrite (IH items').
Qed.

Lemma items_of_batch_bindings request xs items :
  obj_getitem request "items" = inr xs → items_of xs = inr items →
  items = batch_bindings request.
Proof.
  unfold obj_getitem, batch_bindings.
  destruct (obj_lookup request "items") as [xs' |]; [| done]. intros [= ->].
  destruct xs as [| | | s | l | o]; try done.
  - destruct s; [by intros [= <-] | done].
  - apply items_of_list_bindings.
  - destruct o as [| [] o]; [by intros [= <-] | done].
Qed.

Lemma py_hash_str key k : py_hash key = inr (KStr k) ↔ key = VStr k.
Proof.
  destruct key as [| [] | | | |]; simpl; split; intros E; try done;
    by injection E as ->.
Qed.

Lemma is_str_true v s : is_str v s = true ↔ v = VStr s.
Proof.
  destruct v; simpl; try (split; done).
  rewrite bool_decide_eq_true. split; [by intros -> | by intros [= ->]].
Qed.

Lemma last_binding_str items k : last_binding items (KStr k) = last_item items k.
Proof.
  induction items as [| [key value] items IH]; simpl; [done |].
  rewrite IH. destruct (last_item items k); [done |].
  destruct (is_str key k) eqn:Ek.
  - apply is_str_true in Ek as ->. simpl. by rewrite decide_True.
  - destruct (py_hash key) as [e | k'] eqn:Eh; [done |].
    case_decide as E; [| done]. subst.
    apply py_hash_str in Eh as ->. simpl in Ek.
    by rewrite bool_decide_eq_true_2 in Ek.
Qed.

Lemma obj_getitem_get o k v : obj_getitem o k = inr v → obj_get o k = v.
Proof.
  unfold obj_getitem, obj_get. destruct (obj_lookup o k); [| done].
  by intros [= ->].
Qed.

Lemma lookup_insert_str (S : Store) key k0 k value :
  py_hash key = inr k0 →
  <[k0:=value]> S !! KStr k = if is_str key k then Some value else S !! KStr k.
Proof.
  intros Hk. destruct (is_str key k) eqn:Ek.
  - apply is_str_true in Ek as ->. simpl in Hk. injection Hk as <-.
    by rewrite lookup_insert_eq.
  - rewrite lookup_insert_ne; [done |]. intros ->.
    apply py_hash_str in Hk as ->. simpl in Ek.
    by rewrite bool_decide_eq_true_2 in Ek.
Qed.

Lemma lookup_delete_str (S : Store) key k0 k :
  py_hash key = inr k0 →
  base.delete k0 S !! KStr k = if is_str key k then None else S !! KStr k.
Proof.
  intros Hk. destruct (is_str key k) eqn:Ek.
  - apply is_str_true in Ek as ->. simpl in Hk. injection Hk as <-.
    by rewrite lookup_delete_eq.
  - rewrite lookup_delete_ne; [done |]. intros ->.
    apply py_hash_str in Hk as ->. simpl in Ek.
    by rewrite bool_decide_eq_true_2 in Ek.
Qed.

(** A reply built by [reply_error] is not an acknowledgement. *)
Lemma reply_error_not_ok message :
  is_str (obj_get (reply_error message) "status") "OK" = false.
Proof. done. Qed.

Lemma reply_success_ok success :
  is_str (obj_get (reply_success success) "status") "OK" = true.
Proof. done. Qed.

(** One exchange moves the binding of every string key as
    [acknowledged_write] says, when a batch has no unhashable key. *)
Lemma process_request_binding kv request response kv' k :
  KVStoreServer._process_request kv request = (response, kv') →
  batch_keys_hashable request →
  store kv' !! KStr k = acknowledged_write request response k (store kv !! KStr k).
Proof.
  unfold KVStoreServer._process_request, KVStoreServer.process_body,
    acknowledged_write, batch_keys_hashable.
  destruct (is_str _ "SET") eqn:E1.
  { intros Hp _.
    destruct (obj_getitem request "key") as [e | key] eqn:Ekey; simpl in Hp.
    { injection Hp as <- <-. by rewrite reply_error_not_ok. }
    destruct (obj_getitem request "value") as [e | value] eqn:Evalue; simpl in Hp.
    { injection Hp as <- <-. by rewrite reply_error_not_ok. }
    rewrite (obj_getitem_get _ _ _ Ekey), (obj_getitem_get _ _ _ Evalue).
    unfold KVStore.set in Hp.
    destruct (WriteAheadLog.log_operation _ _) as [e | d]; simpl in Hp.
    { injection Hp as <- <-. by rewrite reply_error_not_ok. }
    unfold dict_setitem in Hp.
    destruct (py_hash key) as [e | k0] eqn:Ek0; simpl in Hp.
    { injection Hp as <- <-. by rewrite reply_error_not_ok. }
    injection Hp as <- <-. rewrite reply_success_ok. simpl.
    by apply lookup_insert_str. }
  destruct (is_str _ "GET") eqn:E2.
  { intros Hp _. destruct (get_reply kv request) as [e | r] eqn:Eg.
    { injection Hp as <- <-. by rewrite reply_error_not_ok. }
    injection Hp as <- <-. apply is_str_true in E2. rewrite E2. cbn [is_str].
    rewrite !bool_decide_eq_false_2 by done. by destruct (is_str _ "OK"). }
  destruct (is_str _ "DELETE") eqn:E3.
  { intros Hp _.
    destruct (obj_getitem request "key") as [e | key] eqn:Ekey; simpl in Hp.
    { injection Hp as <- <-. by rewrite reply_error_not_ok. }
    rewrite (obj_getitem_get _ _ _ Ekey).
    unfold KVStore.delete, dict_contains in Hp.
    destruct (py_hash key) as [e | k0] eqn:Ek0; simpl in Hp.
    { injection Hp as <- <-. by rewrite reply_error_not_ok. }
    case_bool_decide as Hin.
    - destruct (WriteAheadLog.log_operation _ _) as [e | d]; simpl in Hp.
      { injection Hp as <- <-. by rewrite reply_error_not_ok. }
      unfold dict_pop in Hp. rewrite Ek0 in Hp. simpl in Hp.
      injection Hp as <- <-. rewrite reply_success_ok. simpl.
      by apply lookup_delete_str.
    - simpl in Hp. injection Hp as <- <-. rewrite reply_success_ok.
      destruct (is_str key k) eqn:Ek; [| done].
      apply is_str_true in Ek as ->. simpl in Ek0. injection Ek0 as <-.
      destruct (store kv !! KStr k) eqn:El; [| done].
      destruct Hin. by eexists. }
  destruct (is_str _ "BULK_SET") eqn:E4.
  2: { intros [= <- <-] _. by destruct (is_str _ "OK"). }
  intros Hp Hk. specialize (Hk eq_refl).
  destruct (obj_getitem request "items") as [e | xs] eqn:Exs; simpl in Hp.
  { injection Hp as <- <-. by rewrite reply_error_not_ok. }
  destruct (items_of xs) as [e | items] eqn:Ei; simpl in Hp.
  { injection Hp as <- <-. by rewrite reply_error_not_ok. }
  rewrite <- (items_of_batch_bindings request xs items Exs Ei) in *.
  unfold KVStore.bulk_set in Hp.
  destruct (WriteAheadLog.log_operation _ _) as [e | d]; simpl in Hp.
  { injection Hp as <- <-. by rewrite reply_error_not_ok. }
  destruct (setitems_hashable (store kv) items Hk) as (S' & Hs & HS').
  rewrite Hs in Hp. simpl in Hp. injection Hp as <- <-.
  rewrite reply_success_ok. simpl. rewrite HS', last_binding_str. done.
Qed.

(** An acknowledged write had no unhashable key. *)
Lemma acknowledged_keys_hashable kv request response kv' :
  KVStoreServer._process_request kv request = (response, kv') →
  status_ok response → batch_keys_hashable request.
Proof.
  unfold KVStoreServer._process_request, KVStoreServer.process_body,
    batch_keys_hashable, status_ok.
  intros Hp Hok Hop. rewrite Hop in Hp.
  destruct (is_str _ "SET") eqn:E1.
  { apply is_str_true in E1. apply is_str_true in Hop. congruence. }
  destruct (is_str _ "GET") eqn:E2.
  { apply is_str_true in E2. apply is_str_true in Hop. congruence. }
  destruct (is_str _ "DELETE") eqn:E3.
  { apply is_str_true in E3. apply is_str_true in Hop. congruence. }
  destruct (obj_getitem request "items") as [e | xs] eqn:Exs; simpl in Hp.
  { injection Hp as <- <-. done. }
  destruct (items_of xs) as [e | items] eqn:Ei; simpl in Hp.
  { injection Hp as <- <-. done. }
  rewrite <- (items_of_batch_bindings request xs items Exs Ei).
  unfold KVStore.bulk_set in Hp.
  destruct (WriteAheadLog.log_operation _ _) as [e | d]; simpl in Hp.
  { injection Hp as <- <-. done. }
  destruct (setitems (store kv) items) as [[e | []] S'] eqn:Es; simpl in Hp.
  { injection Hp as <- <-. done. }
  by eapply setitems_ok_hashable.
Qed.

End dispatch.

(** ** Recovery and the data directory *)

Section durability.
Context `{Pickle Record} `{Pickle Store} `{!PickleLaws Record} `{!PickleLaws Store}.

Lemma disk_holds_load d (S : Store) :
  disk_holds d S → KVStore._load_from_disk d = inr S.
Proof.
  intros (S0 & ops & Hd & Hl & Ha). unfold KVStore._load_from_disk.
  rewrite (replay_log d ops Hl).
  destruct Hd as [[-> ->] | ->]; simpl.
  - by rewrite Ha.
  - unfold pickle_loads. rewrite loads_dumps. simpl. by rewrite Ha.
Qed.

Lemma disk_holds_init : disk_holds disk_init ∅.
Proof. exists ∅, []. split_and!; [by left | done | done]. Qed.

(** One more whole entry in the log, one more operation applied. *)
Lemma disk_holds_log d d' (S S' : Store) op :
  disk_holds d S → WriteAheadLog.log_operation d op = inr d' →
  apply_op S op = (inr (), S') → disk_holds d' S'.
Proof.
  intros (S0 & ops & Hd & Hl & Ha). unfold WriteAheadLog.log_operation.
  destruct (WriteAheadLog.frame op) as [e | b] eqn:Eb; [done |]. simpl.
  intros [= <-] Hop. exists S0, (ops ++ [op]). split_and!; simpl.
  - done.
  - by apply log_bytes_snoc.
  - rewrite apply_ops_app, Ha. simpl. by rewrite Hop.
Qed.

(** Every call with hashable keys leaves a directory that stands for the
    store in memory. *)
Lemma call_holds kv c :
  disk_holds (disk kv) (store kv) → well_keyed c →
  disk_holds (disk (snd (KVStore.call kv c))) (store (snd (KVStore.call kv c))).
Proof.
  intros Hh Hk. destruct c as [key value | key | key | items |]; simpl.
  - unfold KVStore.set.
    destruct (WriteAheadLog.log_operation _ _) as [e | d] eqn:El; [done |].
    simpl in Hk. apply hashable_py_hash in Hk as [k Hk].
    unfold dict_setitem. rewrite Hk. simpl.
    eapply disk_holds_log; [done | done |]. simpl. unfold dict_setitem.
    by rewrite Hk.
  - done.
  - unfold KVStore.delete, dict_contains.
    destruct (py_hash key) as [e | k] eqn:Ek; simpl; [done |].
    case_bool_decide; [| done].
    destruct (WriteAheadLog.log_operation _ _) as [e | d] eqn:El; [done |].
    unfold dict_pop. rewrite Ek. simpl.
    eapply disk_holds_log; [done | done |]. simpl. unfold dict_pop.
    by rewrite Ek.
  - unfold KVStore.bulk_set.
    destruct (WriteAheadLog.log_operation _ _) as [e | d] eqn:El; [done |].
    simpl in Hk. destruct (setitems_hashable (store kv) items Hk) as (S' & Hs & _).
    rewrite Hs. simpl. by eapply disk_holds_log.
  - exists (store kv), []. split_and!; [by right | done | done].
Qed.

(** Recovery on a directory of whole files replays the log on the
    checkpointed store. *)
Lemma load_whole d (S0 : Store) ops :
  (data_file d = None ∧ S0 = ∅ ∨ data_file d = Some (dumps S0)) →
  log_bytes ops = inr (wal_file d) →
  KVStore._load_from_disk d
  = match apply_ops S0 ops with
    | (inl e, _) => inl e
    | (inr _, S1) => inr S1
    end.
Proof.
  intros Hd Hl. unfold KVStore._load_from_disk. rewrite (replay_log d ops Hl).
  destruct Hd as [[-> ->] | ->]; simpl; [done |].
  unfold pickle_loads. by rewrite loads_dumps.
Qed.

Lemma disk_holds_tracks d (S : Store) : disk_holds d S → disk_tracks d S.
Proof. intros (S0 & ops & Hd & Hl & Ha). exists S0, ops. split_and!; [done .. | by left]. Qed.

Lemma disk_tracks_load d (S : Store) :
  disk_tracks d S →
  (∃ e, KVStore._load_from_disk d = inl e) ∨ KVStore._load_from_disk d = inr S.
Proof.
  intros (S0 & ops & Hd & Hl & Ha). rewrite (load_whole d S0 ops Hd Hl).
  destruct Ha as [-> | (e & S' & ->)]; [by right | left; by eexists].
Qed.

(** Where a list of entries raises does not depend on the store. *)
Lemma apply_ops_raises (S T : Store) ops e S' :
  apply_ops S ops = (inl e, S') → ∃ T', apply_ops T ops = (inl e, T').
Proof.
  rewrite !apply_ops_writes. intros [= He _]. rewrite He. by eexists.
Qed.

(** One more whole entry in the log: the directory follows the store,
    also when applying the entry raises. *)
Lemma disk_tracks_log d d' (S S' : Store) op r :
  disk_tracks d S → WriteAheadLog.log_operation d op = inr d' →
  apply_op S op = (r, S') → disk_tracks d' S'.
Proof.
  intros (S0 & ops & Hd & Hl & Ha). unfold WriteAheadLog.log_operation.
  destruct (WriteAheadLog.frame op) as [e | b] eqn:Eb; [done |]. simpl.
  intros [= <-] Hop. exists S0, (ops ++ [op]). split_and!; simpl.
  - done.
  - by apply log_bytes_snoc.
  - rewrite apply_ops_app. destruct Ha as [-> | (e & S1 & ->)].
    + simpl. rewrite Hop. destruct r as [e | []]; [right; by eexists _, _ | by left].
    + right. by eexists _, _.
Qed.

(** Every call leaves a directory that follows the store in memory. *)
Lemma call_tracks kv c :
  disk_tracks (disk kv) (store kv) →
  disk_tracks (disk (snd (KVStore.call kv c))) (store (snd (KVStore.call kv c))).
Proof.
  intros Hh. destruct c as [key value | key | key | items |]; simpl.
  - unfold KVStore.set.
    destruct (WriteAheadLog.log_operation _ _) as [e | d] eqn:El; [done |].
    destruct (dict_setitem (store kv) key value) as [e | S'] eqn:Es; simpl.
    + eapply disk_tracks_log; [done | done |]. simpl. by rewrite Es.
    + eapply disk_tracks_log; [done | done |]. simpl. by rewrite Es.
  - done.
  - unfold KVStore.delete.
    destruct (dict_contains (store kv) key) as [e | []]; simpl; [done | | done].
    destruct (WriteAheadLog.log_operation _ _) as [e | d] eqn:El; [done |].
    destruct (dict_pop (store kv) key) as [e | S'] eqn:Es; simpl.
    + eapply disk_tracks_log; [done | done |]. simpl. by rewrite Es.
    + eapply disk_tracks_log; [done | done |]. simpl. by rewrite Es.
  - unfold KVStore.bulk_set.
    destruct (WriteAheadLog.log_operation _ _) as [e | d] eqn:El; [done |].
    destruct (setitems (store kv) items) as [[e | []] S'] eqn:Es; simpl.
    + by eapply disk_tracks_log.
    + by eapply disk_tracks_log.
  - exists (store kv), []. split_and!; [by right | done | by left].
Qed.

(** A log entry never has fewer than five bytes. *)
Lemma frame_longer op b : WriteAheadLog.frame op = inr b → 4 < length b.
Proof.
  intros (pre & -> & Hl & _)%frame_inv. rewrite length_app.
  destruct (dumps op) as [| b0 bs] eqn:Ed; [| simpl; lia].
  pose proof (loads_dumps op) as Hld. by rewrite Ed, loads_nil in Hld.
Qed.

Lemma dump_nonempty (S : Store) : 0 < length (dumps S).
Proof.
  destruct (dumps S) as [| b0 bs] eqn:Ed; [| simpl; lia].
  pose proof (loads_dumps S) as Hld. by rewrite Ed, loads_nil in Hld.
Qed.

(** A log entry cut short at the end of a log of whole entries makes
    recovery raise, whatever the checkpoint file. *)
Lemma torn_log_raises ops (wal : list byte) op b n (checkpoint_file : option (list byte)) :
  log_bytes ops = inr wal → WriteAheadLog.frame op = inr b → 0 < n < length b →
  ∃ e, KVStore._load_from_disk (mkDisk checkpoint_file (wal ++ take n b)) = inl e.
Proof.
  intros Hl Hb Hn. unfold KVStore._load_from_disk. cbn [data_file].
  assert (∃ e, WriteAheadLog.replay (mkDisk checkpoint_file (wal ++ take n b)) = inl e)
    as [e He].
  { rewrite replay_eq. cbn [wal_file].
    rewrite (replay_loop_log ops wal (take n b) []) by (done || lia).
    apply (replay_loop_truncated op b n); [done | done |].
    rewrite length_take. lia. }
  rewrite He.
  destruct checkpoint_file as [bs |]; simpl; [| by eexists].
  destruct (pickle_loads bs); simpl; by eexists.
Qed.

(** The states during one log write: the log as it was, or with a part
    of the entry, or with the whole entry. *)
Lemma log_operation_trace_cases d op d' :
  d' ∈ WriteAheadLog.log_operation_trace d op →
  d' = d
  ∨ (∃ b n, WriteAheadLog.frame op = inr b ∧ 0 < n < length b ∧
            d' = mkDisk (data_file d) (wal_file d ++ take n b))
  ∨ WriteAheadLog.log_operation d op = inr d'.
Proof.
  unfold WriteAheadLog.log_operation_trace, WriteAheadLog.log_operation.
  destruct (WriteAheadLog.frame op) as [e | b] eqn:Eb.
  { rewrite list_elem_of_singleton. by left. }
  rewrite list_elem_of_fmap. intros (n & -> & Hn). apply elem_of_seq in Hn.
  destruct (decide (n = 0)) as [-> | Hn0].
  { left. rewrite take_0, (right_id_L [] (++)). by destruct d. }
  destruct (decide (n < length b)) as [Hlt | Hge].
  { right. left. exists b, n. split_and!; [done | lia | lia | done]. }
  right. right. simpl. by rewrite take_ge by lia.
Qed.

Lemma log_operation_trace_torn d op b n :
  WriteAheadLog.frame op = inr b → n ≤ length b →
  mkDisk (data_file d) (wal_file d ++ take n b) ∈ WriteAheadLog.log_operation_trace d op.
Proof.
  intros Hb Hn. unfold WriteAheadLog.log_operation_trace. rewrite Hb.
  apply list_elem_of_fmap. exists n. split; [done |]. apply elem_of_seq. lia.
Qed.

(** Recovery at the states of one log write, when the directory follows
    the store before it. *)
Lemma log_write_recovery d d' op (S S' : Store) r :
  disk_tracks d S → apply_op S op = (r, S') →
  d' ∈ WriteAheadLog.log_operation_trace d op →
  (∃ e, KVStore._load_from_disk d' = inl e)
  ∨ KVStore._load_from_disk d' = inr S
  ∨ KVStore._load_from_disk d' = inr S'.
Proof.
  intros Hh Hop [-> | [(b & n & Hb & Hn & ->) | Hl]]%log_operation_trace_cases.
  - destruct (disk_tracks_load d S Hh) as [He | Hs]; [by left | right; by left].
  - left. destruct Hh as (S0 & ops & _ & Hl & _). by eapply torn_log_raises.
  - destruct (disk_tracks_load d' S' (disk_tracks_log d d' S S' op r Hh Hl Hop))
      as [He | Hs]; [by left | right; by right].
Qed.

(** A cut-short checkpoint file makes recovery raise. *)
Lemma torn_load_raises d (S : Store) n :
  n < length (dumps S) → data_file d = Some (take n (dumps S)) →
  ∃ e, KVStore._load_from_disk d = inl e.
Proof.
  intros Hn Hd. unfold KVStore._load_from_disk. rewrite Hd.
  unfold pickle_loads. rewrite loads_truncated by done. by eexists.
Qed.
(** Recovery at the states of a checkpoint. *)
Lemma checkpoint_recovery kv d :
  disk_tracks (disk kv) (store kv) → d ∈ KVStore.checkpoint_trace kv →
  (∃ e, KVStore._load_from_disk d = inl e) ∨ KVStore._load_from_disk d = inr (store kv).
Proof.
  intros Hh. unfold KVStore.checkpoint_trace.
  rewrite elem_of_app, list_elem_of_fmap, list_elem_of_singleton.
  intros [(n & -> & Hn) | ->].
  - apply elem_of_seq in Hn.
    destruct (decide (n < length (dumps (store kv)))) as [Hlt | Hge].
    { left. by eapply (torn_load_raises _ (store kv) n). }
    rewrite take_ge by lia.
    destruct Hh as (S0 & ops & _ & Hl & Ha).
    rewrite (load_whole _ (store kv) ops) by (done || by right).
    destruct Ha as [Ha | (e & S' & Ha)].
    + right. pose proof (apply_ops_twice S0 ops) as Ht. rewrite Ha in Ht.
      simpl in Ht. by rewrite Ht.
    + left. destruct (apply_ops_raises S0 (store kv) ops e S' Ha) as [T' ->].
      by eexists.
  - apply disk_tracks_load. exact (call_tracks kv CCheckpoint Hh).
Qed.

(** Recovery at the states of one call: it raises, or returns the store
    as it was before the call or as the call left it. *)
Lemma call_trace_recovery kv c d :
  disk_tracks (disk kv) (store kv) → d ∈ KVStore.call_trace kv c →
  (∃ e, KVStore._load_from_disk d = inl e)
  ∨ KVStore._load_from_disk d = inr (store kv)
  ∨ KVStore._load_from_disk d = inr (store (snd (KVStore.call kv c))).
Proof.
  intros Hh. pose proof (disk_tracks_load _ _ Hh) as Hnow.
  assert (∀ T : Store, d = disk kv →
          (∃ e, KVStore._load_from_disk d = inl e)
          ∨ KVStore._load_from_disk d = inr (store kv)
          ∨ KVStore._load_from_disk d = inr T) as Hsame.
  { intros T ->. destruct Hnow as [He | Hs]; [by left | right; by left]. }
  destruct c as [key value | key | key | items |]; simpl.
  - intros Hd. unfold KVStore.set.
    destruct (apply_op (store kv) (RSet key value)) as [r S'] eqn:Hop.
    pose proof (log_write_recovery _ _ _ _ _ _ Hh Hop Hd) as Hr.
    destruct (WriteAheadLog.log_operation _ _) as [e | d1] eqn:El.
    { apply Hsame. apply log_operation_trace_cases in Hd as [-> | [Ht | Hl]]; [done | |].
      - destruct Ht as (b & n & Hb & _). unfold WriteAheadLog.log_operation in El.
        by rewrite Hb in El.
      - by rewrite El in Hl. }
    simpl in Hop. by destruct (dict_setitem (store kv) key value); simplify_eq.
  - rewrite list_elem_of_singleton. apply Hsame.
  - unfold KVStore.delete.
    destruct (dict_contains (store kv) key) as [e | []];
      [rewrite list_elem_of_singleton; apply Hsame | | rewrite list_elem_of_singleton; apply Hsame].
    intros Hd.
    destruct (apply_op (store kv) (RDelete key)) as [r S'] eqn:Hop.
    pose proof (log_write_recovery _ _ _ _ _ _ Hh Hop Hd) as Hr.
    destruct (WriteAheadLog.log_operation _ _) as [e | d1] eqn:El.
    { apply Hsame. apply log_operation_trace_cases in Hd as [-> | [Ht | Hl]]; [done | |].
      - destruct Ht as (b & n & Hb & _). unfold WriteAheadLog.log_operation in El.
        by rewrite Hb in El.
      - by rewrite El in Hl. }
    simpl in Hop. by destruct (dict_pop (store kv) key); simplify_eq.
  - intros Hd. unfold KVStore.bulk_set.
    destruct (apply_op (store kv) (RBulkSet items)) as [r S'] eqn:Hop.
    pose proof (log_write_recovery _ _ _ _ _ _ Hh Hop Hd) as Hr.
    destruct (WriteAheadLog.log_operation _ _) as [e | d1] eqn:El.
    { apply Hsame. apply log_operation_trace_cases in Hd as [-> | [Ht | Hl]]; [done | |].
      - destruct Ht as (b & n & Hb & _). unfold WriteAheadLog.log_operation in El.
        by rewrite Hb in El.
      - by rewrite El in Hl. }
    simpl in Hop. rewrite Hop. by destruct r as [e | []].
  - rewrite elem_of_cons. intros [-> | Hd]; [by apply Hsame |].
    destruct (checkpoint_recovery kv d Hh Hd) as [He | Hs]; [by left | right; by left].
Qed.

(** Recovery at every state of a run of calls, whatever the calls: it
    raises, or returns the store as it was between two calls of the run. *)
Lemma run_trace_recovery cs : ∀ kv d,
  disk_tracks (disk kv) (store kv) → d ∈ KVStore.run_trace kv cs →
  (∃ e, KVStore._load_from_disk d = inl e)
  ∨ ∃ past, past `prefix_of` cs ∧
            KVStore._load_from_disk d = inr (store (KVStore.run kv past)).
Proof.
  induction cs as [| c cs IH]; intros kv d Hh; simpl.
  - rewrite list_elem_of_singleton. intros ->.
    destruct (disk_tracks_load _ _ Hh) as [He | Hs]; [by left |].
    right. by exists [].
  - rewrite elem_of_app. intros [Hin | Hin].
    + destruct (call_trace_recovery kv c d Hh Hin) as [He | [Hs | Hs]].
      * by left.
      * right. exists []. split; [apply prefix_nil | done].
      * right. exists [c]. split; [| done]. by apply prefix_cons, prefix_nil.
    + destruct (IH (snd (KVStore.call kv c)) d) as [He | (past & Hp & Hs)];
        [by apply call_tracks | done | by left |].
      right. exists (c :: past). split; [by apply prefix_cons | done].
Qed.
End durability.

(** ** Replay of the log (C4, C9) *)

(** C4.  A log made of whole entries followed by one entry cut short (by
    its length prefix or by its payload) is not replayed up to the whole
    entries: [replay] raises, on every such log.  The claim that the cut
    entry is dropped silently does not hold of the code. *)
Theorem replay_truncated_tail_raises `{Pickle Record} `{!PickleLaws Record}
    (ops : list Record) (bs : list byte) (op : Record) (b : list byte) (n : nat)
    (checkpoint_file : option (list byte)) :
  log_bytes ops = inr bs →
  WriteAheadLog.frame op = inr b →
  0 < n < length b →
  ∃ e, WriteAheadLog.replay (mkDisk checkpoint_file (bs ++ take n b)) = inl e.
Proof.
  intros Hl Hb Hn. rewrite replay_eq. cbn [wal_file].
  rewrite (replay_loop_log ops bs (take n b) []) by (done || lia).
  apply (replay_loop_truncated op b n); [done | done |].
  rewrite length_take. lia.
Qed.

Lemma replay_truncated_tail_raises_witness :
  ∃ bs b,
    @log_bytes reference_record [RSet (VStr "a") (VInt 1)] = inr bs ∧
    @WriteAheadLog.frame reference_record (RSet (VStr "b") (VInt 2)) = inr b ∧
    0 < 1 < length b ∧
    ∃ e, @WriteAheadLog.replay reference_record (mkDisk None (bs ++ take 1 b)) = inl e.
Proof.
  eexists _, _. split; [vm_compute; reflexivity |].
  split; [vm_compute; reflexivity |]. split; [vm_compute; lia |].
  apply (@replay_truncated_tail_raises reference_record reference_record_laws
           [RSet (VStr "a") (VInt 1)] _ (RSet (VStr "b") (VInt 2)) _ 1 None);
    [vm_compute; reflexivity | vm_compute; reflexivity | vm_compute; lia].
Defined.

(** C9.  Applying the replay of a list of log entries to a store a second
    time changes nothing (same store, same outcome), and recovery run any
    number of times on the same checkpoint file and log gives the same
    store and leaves the same files. *)
Theorem recovery_idempotent `{Pickle Record} `{Pickle Store} :
  (∀ (S : Store) (ops : list Record),
     apply_ops (snd (apply_ops S ops)) ops = apply_ops S ops) ∧
  (∀ (d : Disk) (n : nat), recover_times n d = KVStore.__init__ d).
Proof.
  split; [apply apply_ops_twice |].
  intros d n. induction n as [| n IH]; simpl; [done |].
  unfold KVStore.__init__ in *.
  destruct (KVStore._load_from_disk d) as [e | S]; simpl; [done |].
  simpl in IH. exact IH.
Qed.


(** ** Durability and batches (C1, C2, C6) *)

Section claims_durability.
Context `{Pickle Record} `{Pickle Store} `{!PickleLaws Record} `{!PickleLaws Store}.

Lemma call_ok_well_keyed kv m v kv' :
  KVStore.call kv m = (inr v, kv') → well_keyed m.
Proof.
  destruct m as [key value | key | key | items |]; simpl; try done.
  - unfold KVStore.set. destruct (WriteAheadLog.log_operation _ _); [done |].
    unfold dict_setitem. destruct (py_hash key) eqn:Ek; simpl; [done |].
    intros _. by eapply py_hash_hashable.
  - unfold KVStore.bulk_set. destruct (WriteAheadLog.log_operation _ _); [done |].
    destruct (setitems (store kv) items) as [[e | []] S'] eqn:Es; [done |].
    intros _. by eapply setitems_ok_hashable.
Qed.

(** After a write answered [OK] the directory stands for the store. *)
Lemma acknowledged_holds kv request response kv1 :
  disk_holds (disk kv) (store kv) →
  KVStoreServer._process_request kv request = (response, kv1) →
  is_write (obj_get request "operation") = true →
  status_ok response →
  disk_holds (disk kv1) (store kv1).
Proof.
  intros Hh Hp Hw Hok.
  destruct (server_write_ok kv request response kv1 Hp Hw Hok) as (m & b & Hm & Hmut & Hc).
  pose proof (call_holds kv m Hh (call_ok_well_keyed _ _ _ _ Hc)) as Hh1.
  by rewrite Hc in Hh1.
Qed.

(** The states inside the rewriting of [data.pkl] are states of a
    checkpoint, and recovery raises on each of them. *)
Lemma checkpoint_torn kv n :
  n < length (dumps (store kv)) →
  let d := mkDisk (Some (take n (dumps (store kv)))) (wal_file (disk kv)) in
  d ∈ KVStore.call_trace kv CCheckpoint ∧ ∃ e, KVStore._load_from_disk d = inl e.
Proof.
  intros Hn d. split.
  - simpl. apply elem_of_cons. right. unfold KVStore.checkpoint_trace.
    apply elem_of_app. left. apply list_elem_of_fmap. exists n.
    split; [done |]. apply elem_of_seq. lia.
  - by eapply (torn_load_raises _ (store kv) n).
Qed.

(** C1 fails of the code.  A write answered [OK] has its effect on the
    store (each string key is bound as the request asks) and, with no crash,
    recovery returns that store.  At every crash point of every run of
    calls that follows, recovery raises or returns the store as it was after
    the write and some of the calls that followed it, each of them whole.
    But recovery does raise, so that the write is not recovered: at every
    state inside the rewriting of [data.pkl] by a checkpoint that comes
    next (there is at least one: the file just emptied); at every state
    inside the log write of a [set] that comes next; and for good once a
    [set] with an unhashable key has been logged. *)
Theorem acknowledged_write_lost_in_crash kv request response kv1 :
  disk_holds (disk kv) (store kv) →
  KVStoreServer._process_request kv request = (response, kv1) →
  is_write (obj_get request "operation") = true →
  status_ok response →
  (∀ k, store kv1 !! KStr k
        = acknowledged_write request response k (store kv !! KStr k)) ∧
  KVStore._load_from_disk (disk kv1) = inr (store kv1) ∧
  (∀ later d, d ∈ KVStore.run_trace kv1 later →
     (∃ e, KVStore._load_from_disk d = inl e)
     ∨ ∃ past, past `prefix_of` later ∧
               KVStore._load_from_disk d = inr (store (KVStore.run kv1 past))) ∧
  0 < length (dumps (store kv1)) ∧
  (∀ n later, n < length (dumps (store kv1)) →
     let d := mkDisk (Some (take n (dumps (store kv1)))) (wal_file (disk kv1)) in
     d ∈ KVStore.run_trace kv1 (CCheckpoint :: later) ∧
     ∃ e, KVStore._load_from_disk d = inl e) ∧
  (∀ key value b n later,
     WriteAheadLog.frame (RSet key value) = inr b → 0 < n < length b →
     let d := mkDisk (data_file (disk kv1)) (wal_file (disk kv1) ++ take n b) in
     d ∈ KVStore.run_trace kv1 (CSet key value :: later) ∧
     ∃ e, KVStore._load_from_disk d = inl e) ∧
  (∀ key value b,
     hashable key = false → WriteAheadLog.frame (RSet key value) = inr b →
     ∃ e, KVStore._load_from_disk (disk (KVStore.run kv1 [CSet key value])) = inl e).
Proof.
  intros Hh Hp Hw Hok.
  pose proof (acknowledged_holds kv request response kv1 Hh Hp Hw Hok) as Hh1.
  split_and!.
  - intros k. apply process_request_binding; [done |].
    by eapply acknowledged_keys_hashable.
  - by apply disk_holds_load.
  - intros later d Hd. apply run_trace_recovery; [by apply disk_holds_tracks | done].
  - apply dump_nonempty.
  - intros n later Hn d. destruct (checkpoint_torn kv1 n Hn) as [Hin He].
    split; [| done]. cbn [KVStore.run_trace]. apply elem_of_app. by left.
  - intros key value b n later Hb Hn d. split.
    + cbn [KVStore.run_trace KVStore.call_trace]. apply elem_of_app. left.
      apply log_operation_trace_torn; [done | lia].
    + destruct Hh1 as (S0 & ops & _ & Hl & _). by eapply torn_log_raises.
  - intros key value b Hk Hb. cbn [KVStore.run KVStore.call].
    unfold KVStore.set, WriteAheadLog.log_operation. rewrite Hb. simpl.
    unfold dict_setitem. destruct (py_hash key) as [e | k] eqn:Ek.
    2: { apply py_hash_hashable in Ek. congruence. }
    simpl. destruct Hh1 as (S0 & ops & Hd & Hl & Ha).
    rewrite (load_whole _ S0 (ops ++ [RSet key value]));
      [| done | by apply log_bytes_snoc].
    rewrite apply_ops_app, Ha. simpl. unfold dict_setitem. rewrite Ek. simpl.
    by eexists.
Qed.

(** C2 fails of the code.  A [BULK_SET] answered [OK] appended one log
    entry holding every binding the request asks for, and nothing else
    reached the directory; replaying that entry applies the whole batch, and
    the store then has every string key of the batch at the value of its
    last item, every other one as before.  At every state the directory
    goes through during the call and during any calls after it, recovery
    never returns a store with a part of the batch: it returns the store
    before the batch, or the store with all of it (after some of the later
    calls, each of them whole), or it raises.  And it does raise, so that
    the recovered store has neither all of the batch nor none: at every
    state inside the write of the entry (it has at least five bytes), and
    at every state inside the rewriting of [data.pkl] by a checkpoint that
    comes next. *)
Theorem bulk_set_torn_by_crash kv request response kv' :
  disk_holds (disk kv) (store kv) →
  is_str (obj_get request "operation") "BULK_SET" = true →
  KVStoreServer._process_request kv request = (response, kv') →
  status_ok response →
  let items := batch_bindings request in
  ∃ b,
    WriteAheadLog.frame (RBulkSet items) = inr b ∧
    disk kv' = mkDisk (data_file (disk kv)) (wal_file (disk kv) ++ b) ∧
    apply_op (store kv) (RBulkSet items) = (inr (), store kv') ∧
    (∀ k, store kv' !! KStr k = match last_item items k with
                                | Some v => Some v
                                | None => store kv !! KStr k
                                end) ∧
    KVStore._load_from_disk (disk kv) = inr (store kv) ∧
    KVStore._load_from_disk (disk kv') = inr (store kv') ∧
    (∀ later d, d ∈ KVStore.run_trace kv (CBulkSet items :: later) →
       (∃ e, KVStore._load_from_disk d = inl e)
       ∨ KVStore._load_from_disk d = inr (store kv)
       ∨ ∃ past, past `prefix_of` later ∧
                 KVStore._load_from_disk d = inr (store (KVStore.run kv' past))) ∧
    4 < length b ∧
    (∀ n later, 0 < n < length b →
       let d := mkDisk (data_file (disk kv)) (wal_file (disk kv) ++ take n b) in
       d ∈ KVStore.run_trace kv (CBulkSet items :: later) ∧
       ∃ e, KVStore._load_from_disk d = inl e) ∧
    0 < length (dumps (store kv')) ∧
    (∀ n later, n < length (dumps (store kv')) →
       let d := mkDisk (Some (take n (dumps (store kv')))) (wal_file (disk kv')) in
       d ∈ KVStore.run_trace kv (CBulkSet items :: CCheckpoint :: later) ∧
       ∃ e, KVStore._load_from_disk d = inl e).
Proof.
  intros Hh Hop Hp Hok items.
  assert (is_write (obj_get request "operation") = true) as Hw.
  { unfold is_write. rewrite Hop. by rewrite orb_true_r. }
  pose proof (acknowledged_holds kv request response kv' Hh Hp Hw Hok) as Hh'.
  pose proof (process_request_binding kv request response kv') as Hbind.
  assert (KVStore.bulk_set kv items = (inr true, kv')) as Hcall.
  { revert Hp Hok. unfold KVStoreServer._process_request, KVStoreServer.process_body,
      status_ok.
    rewrite Hop.
    destruct (is_str _ "SET") eqn:E1.
    { apply is_str_true in E1. apply is_str_true in Hop. congruence. }
    destruct (is_str _ "GET") eqn:E2.
    { apply is_str_true in E2. apply is_str_true in Hop. congruence. }
    destruct (is_str _ "DELETE") eqn:E3.
    { apply is_str_true in E3. apply is_str_true in Hop. congruence. }
    destruct (obj_getitem request "items") as [e | xs] eqn:Exs; simpl.
    { by intros [= <- <-]. }
    destruct (items_of xs) as [e | items'] eqn:Ei; simpl.
    { by intros [= <- <-]. }
    rewrite (items_of_batch_bindings request xs items' Exs Ei). fold items.
    unfold KVStore.bulk_set.
    destruct (WriteAheadLog.log_operation _ _) as [e | d]; simpl.
    { by intros [= <- <-]. }
    destruct (setitems (store kv) items) as [[e | []] S']; simpl.
    { by intros [= <- <-]. }
    by intros [= <- <-]. }
  pose proof Hcall as Hcall'. unfold KVStore.bulk_set in Hcall'.
  unfold WriteAheadLog.log_operation in Hcall'.
  destruct (WriteAheadLog.frame (RBulkSet items)) as [e | b] eqn:Eb; [done |].
  simpl in Hcall'.
  destruct (setitems (store kv) items) as [[e | []] S'] eqn:Es; [done |].
  injection Hcall' as Hkv'.
  assert (disk kv' = mkDisk (data_file (disk kv)) (wal_file (disk kv) ++ b)) as Hdisk.
  { by rewrite <- Hkv'. }
  assert (store kv' = S') as Hstore by (by rewrite <- Hkv').
  assert (snd (KVStore.call kv (CBulkSet items)) = kv') as Hsnd.
  { simpl. by rewrite Hcall. }
  exists b. split_and!.
  - done.
  - done.
  - simpl. by rewrite Es, Hstore.
  - intros k. rewrite (Hbind k Hp) by (by eapply acknowledged_keys_hashable).
    unfold acknowledged_write. apply is_str_true in Hop as Hop'.
    pose proof Hok as Hok'. unfold status_ok in Hok'. unfold obj_get at 1.
    rewrite Hok'. rewrite Hop'. cbn [default id is_str].
    rewrite bool_decide_eq_true_2 by done.
    rewrite !bool_decide_eq_false_2 by done.
    by rewrite bool_decide_eq_true_2 by done.
  - by apply disk_holds_load.
  - by apply disk_holds_load.
  - intros later d Hd.
    destruct (run_trace_recovery _ kv d (disk_holds_tracks _ _ Hh) Hd)
      as [He | (past & Hpast & Hs)]; [by left |].
    right. rewrite Hs. destruct past as [| c past]; [by left |].
    pose proof (prefix_cons_inv_1 _ _ _ _ Hpast) as ->.
    apply prefix_cons_inv_2 in Hpast.
    right. exists past. split; [done |]. cbn [KVStore.run]. by rewrite Hsnd.
  - by eapply frame_longer.
  - intros n later Hn d. split.
    + cbn [KVStore.run_trace KVStore.call_trace].
      apply elem_of_app. left. apply log_operation_trace_torn; [done | lia].
    + destruct Hh as (S0 & ops & _ & Hl & _). by eapply torn_log_raises.
  - apply dump_nonempty.
  - intros n later Hn d. destruct (checkpoint_torn kv' n Hn) as [Hin He].
    split; [| done]. cbn [KVStore.run_trace].
    apply elem_of_app. right. rewrite Hsnd. apply elem_of_app. by left.
Qed.
End claims_durability.

(** The states after the writes of a dump handed over in pieces. *)
Lemma sys_trace_writes chunks : ∀ acc w rest j,
  j < length chunks →
  sys_trace (mkDisk (Some acc) w) (map (SysWrite DataFile) chunks ++ rest) !! j
  = Some (mkDisk (Some (acc ++ concat (take (S j) chunks))) w).
Proof.
  induction chunks as [| c chunks IH]; intros acc w rest j Hj; simpl in Hj; [lia |].
  destruct j as [| j]; simpl.
  - by rewrite (right_id_L [] (++)).
  - rewrite IH by lia. simpl. by rewrite (assoc_L (++)).
Qed.

Lemma sys_trace_writes_end chunks : ∀ acc w rest k,
  sys_trace (mkDisk (Some acc) w) (map (SysWrite DataFile) chunks ++ rest)
    !! (length chunks + k)
  = sys_trace (mkDisk (Some (acc ++ concat chunks)) w) rest !! k.
Proof.
  induction chunks as [| c chunks IH]; intros acc w rest k; simpl.
  - by rewrite (right_id_L [] (++)).
  - rewrite IH. by rewrite (assoc_L (++)).
Qed.

Lemma concat_take_prefix (chunks : list (list byte)) i :
  concat (take i chunks) `prefix_of` concat chunks.
Proof.
  exists (concat (drop i chunks)). by rewrite <- concat_app, take_drop.
Qed.

(** C6, as the code has it.  [checkpoint] writes into the live checkpoint
    path itself.  Whatever the pieces in which the dump reaches the file,
    after the [i]-th system call of [checkpoint] the live file holds the
    pieces written so far, a prefix of the dump (nothing at first: opening
    the file empties it); the log is as before through all the writes, and
    it is emptied by the last call only, when the live file holds the whole
    dump.  There is no temporary file and no rename. *)
Theorem checkpoint_written_in_place `{Pickle Store}
    (kv : KVStore) (chunks : list (list byte)) (i : nat) (d : Disk) :
  concat chunks = dumps (store kv) →
  sys_trace (disk kv) (KVStore.checkpoint_calls chunks) !! i = Some d →
  data_file d = Some (concat (take i chunks)) ∧
  concat (take i chunks) `prefix_of` dumps (store kv) ∧
  (i ≤ length chunks → wal_file d = wal_file (disk kv)) ∧
  (length chunks < i → wal_file d = [] ∧ data_file d = Some (dumps (store kv))).
Proof.
  intros Hc Hi. split_and!.
  2: { rewrite <- Hc. apply concat_take_prefix. }
  all: unfold KVStore.checkpoint_calls in Hi; destruct i as [| i]; simpl in Hi.
  all: try (injection Hi as <-; simpl; first [done | lia]).
  all: destruct (decide (i < length chunks)) as [Hlt | Hge].
  all: try (rewrite sys_trace_writes in Hi by done; injection Hi as <-; simpl;
            first [done | lia]).
  all: replace i with (length chunks + (i - length chunks)) in Hi by lia;
         rewrite sys_trace_writes_end in Hi;
         destruct (i - length chunks) as [| k] eqn:Ek; [| done];
         injection Hi as <-; simpl; rewrite <- ?Hc.
  - rewrite take_ge by lia. done.
  - lia.
  - done.
Qed.

(** Every state [checkpoint] goes through, whatever the pieces, is among
    those of [checkpoint_trace]. *)
Lemma checkpoint_calls_in_trace `{Pickle Store} (kv : KVStore) chunks d :
  concat chunks = dumps (store kv) →
  d ∈ sys_trace (disk kv) (KVStore.checkpoint_calls chunks) →
  d ∈ KVStore.checkpoint_trace kv.
Proof.
  intros Hc [i Hi]%list_elem_of_lookup.
  unfold KVStore.checkpoint_calls in Hi. unfold KVStore.checkpoint_trace.
  assert (∀ j, j ≤ length chunks →
            mkDisk (Some (concat (take j chunks))) (wal_file (disk kv))
            ∈ map (λ n, mkDisk (Some (take n (dumps (store kv)))) (wal_file (disk kv)))
                  (seq 0 (S (length (dumps (store kv)))))) as Hpre.
  { intros j Hj. apply list_elem_of_fmap.
    destruct (concat_take_prefix chunks j) as [rest Hr]. rewrite Hc in Hr.
    exists (length (concat (take j chunks))). split.
    - rewrite Hr at 1. by rewrite take_app_length.
    - apply elem_of_seq. rewrite Hr, length_app. lia. }
  destruct i as [| i]; simpl in Hi.
  { injection Hi as <-. apply elem_of_app. left. apply (Hpre 0). lia. }
  destruct (decide (i < length chunks)) as [Hlt | Hge].
  { rewrite sys_trace_writes in Hi by done. injection Hi as <-.
    apply elem_of_app. left. apply (Hpre (S i)). lia. }
  replace i with (length chunks + (i - length chunks)) in Hi by lia.
  rewrite sys_trace_writes_end in Hi.
  destruct (i - length chunks) as [| k]; [| done]. injection Hi as <-.
  apply elem_of_app. right. apply list_elem_of_singleton. simpl. by rewrite Hc.
Qed.

Lemma acknowledged_write_lost_in_crash_witness :
  let request := bulk_set_request [("a", VInt 1); ("b", VInt 2)] in
  let response := fst (@KVStoreServer._process_request reference_record fresh request) in
  let kv1 := snd (@KVStoreServer._process_request reference_record fresh request) in
  let load := @KVStore._load_from_disk reference_record reference_store in
  let run_trace := @KVStore.run_trace reference_record reference_store in
  (∀ k, store kv1 !! KStr k
        = acknowledged_write request response k (store fresh !! KStr k)) ∧
  load (disk kv1) = inr (store kv1) ∧
  (∀ later d, d ∈ run_trace kv1 later →
     (∃ e, load d = inl e)
     ∨ ∃ past, past `prefix_of` later ∧
               load d = inr (store (@KVStore.run reference_record reference_store kv1 past))) ∧
  0 < length (@dumps _ reference_store (store kv1)) ∧
  (∀ n later, n < length (@dumps _ reference_store (store kv1)) →
     let d := mkDisk (Some (take n (@dumps _ reference_store (store kv1))))
                     (wal_file (disk kv1)) in
     d ∈ run_trace kv1 (CCheckpoint :: later) ∧ ∃ e, load d = inl e) ∧
  (∀ key value b n later,
     @WriteAheadLog.frame reference_record (RSet key value) = inr b → 0 < n < length b →
     let d := mkDisk (data_file (disk kv1)) (wal_file (disk kv1) ++ take n b) in
     d ∈ run_trace kv1 (CSet key value :: later) ∧ ∃ e, load d = inl e) ∧
  (∀ key value b,
     hashable key = false →
     @WriteAheadLog.frame reference_record (RSet key value) = inr b →
     ∃ e, load (disk (@KVStore.run reference_record reference_store kv1 [CSet key value]))
          = inl e).
Proof.
  intros request response kv1 load run_trace.
  apply (@acknowledged_write_lost_in_crash reference_record reference_store
           reference_record_laws reference_store_laws fresh request response kv1).
  - exists ∅, []. split_and!; [left; split; reflexivity | reflexivity | reflexivity].
  - apply surjective_pairing.
  - reflexivity.
  - vm_compute. reflexivity.
Defined.

(** C1 at a concrete input: [SET a 1] is answered [OK]; the next checkpoint
    opens [data.pkl] for writing, which empties it; a crash there leaves a
    directory from which recovery raises, so no store is recovered. *)
Lemma durability_lost_inside_checkpoint :
  ∃ response kv1 d,
    @KVStoreServer._process_request reference_record fresh (set_request "a" (VInt 1))
    = (response, kv1) ∧
    status_ok response ∧
    d ∈ @KVStore.run_trace reference_record reference_store kv1 [CCheckpoint] ∧
    ∃ e, @KVStore._load_from_disk reference_record reference_store d = inl e.
Proof.
  eexists _, _, _. split; [vm_compute; reflexivity |].
  split; [reflexivity |]. split.
  - apply list_elem_of_lookup. exists 1. vm_compute. reflexivity.
  - eexists. vm_compute. reflexivity.
Qed.

(** Outside the protocol (keys are strings): a [SET] whose key is a list
    is logged before the store assignment raises [TypeError]; the client
    gets an [ERROR] reply, and the entry stays in the log, where it makes
    every later recovery raise. *)
Lemma unhashable_key_stays_in_log :
  let requests := [set_request "a" (VInt 1);
                   [("operation", VStr "SET"); ("key", VList [VInt 1]); ("value", VInt 2)]] in
  let served := @KVStoreServer.serve reference_record fresh requests in
  fst served = [reply_success true; reply_error "unhashable type: 'list'"] ∧
  @KVStore._load_from_disk reference_record reference_store (disk (snd served))
  = inl (TypeError "unhashable type: 'list'").
Proof. split; vm_compute; reflexivity. Qed.

(** C2 at a concrete input: a batch of two items is sent to an empty
    store and the process dies when the first byte of its log entry has
    reached [wal.log]; recovery raises on that log. *)
Lemma batch_entry_cut_short :
  let items := [(VStr "a", VInt 1); (VStr "b", VInt 2)] in
  ∃ b,
    @WriteAheadLog.frame reference_record (RBulkSet items) = inr b ∧
    mkDisk None (take 1 b)
      ∈ @KVStore.call_trace reference_record reference_store fresh (CBulkSet items) ∧
    ∃ e, @KVStore._load_from_disk reference_record reference_store (mkDisk None (take 1 b))
         = inl e.
Proof.
  intros items. eexists. split; [vm_compute; reflexivity |]. split.
  - apply list_elem_of_lookup. exists 1. vm_compute. reflexivity.
  - eexists. vm_compute. reflexivity.
Qed.

Lemma bulk_set_torn_by_crash_witness :
  let request := bulk_set_request [("a", VInt 1); ("b", VInt 2)] in
  let kv' := snd (@KVStoreServer._process_request reference_record fresh request) in
  let load := @KVStore._load_from_disk reference_record reference_store in
  let run_trace := @KVStore.run_trace reference_record reference_store in
  let items := batch_bindings request in
  items = [(VStr "a", VInt 1); (VStr "b", VInt 2)] ∧
  ∃ b,
    @WriteAheadLog.frame reference_record (RBulkSet items) = inr b ∧
    disk kv' = mkDisk (data_file (disk fresh)) (wal_file (disk fresh) ++ b) ∧
    apply_op (store fresh) (RBulkSet items) = (inr (), store kv') ∧
    (∀ k, store kv' !! KStr k = match last_item items k with
                                | Some v => Some v
                                | None => store fresh !! KStr k
                                end) ∧
    load (disk fresh) = inr (store fresh) ∧
    load (disk kv') = inr (store kv') ∧
    (∀ later d, d ∈ run_trace fresh (CBulkSet items :: later) →
       (∃ e, load d = inl e) ∨ load d = inr (store fresh)
       ∨ ∃ past, past `prefix_of` later ∧
                 load d = inr (store (@KVStore.run reference_record reference_store
                                        kv' past))) ∧
    4 < length b ∧
    (∀ n later, 0 < n < length b →
       let d := mkDisk (data_file (disk fresh)) (wal_file (disk fresh) ++ take n b) in
       d ∈ run_trace fresh (CBulkSet items :: later) ∧ ∃ e, load d = inl e) ∧
    0 < length (@dumps _ reference_store (store kv')) ∧
    (∀ n later, n < length (@dumps _ reference_store (store kv')) →
       let d := mkDisk (Some (take n (@dumps _ reference_store (store kv'))))
                       (wal_file (disk kv')) in
       d ∈ run_trace fresh (CBulkSet items :: CCheckpoint :: later) ∧
       ∃ e, load d = inl e).
Proof.
  intros request kv' load run_trace items. split; [reflexivity |].
  apply (@bulk_set_torn_by_crash reference_record reference_store
           reference_record_laws reference_store_laws fresh request
           (fst (@KVStoreServer._process_request reference_record fresh request))).
  - exists ∅, []. split_and!; [left; split; reflexivity | reflexivity | reflexivity].
  - reflexivity.
  - apply surjective_pairing.
  - vm_compute. reflexivity.
Defined.

Lemma checkpoint_written_in_place_witness :
  let kv := snd (@KVStoreServer._process_request reference_record fresh
                   (set_request "a" (VInt 1))) in
  let whole := @dumps _ reference_store (store kv) in
  let chunks := [take 8 whole; drop 8 whole] in
  let d := mkDisk (Some (take 8 whole)) (wal_file (disk kv)) in
  data_file d = Some (concat (take 1 chunks)) ∧
  concat (take 1 chunks) `prefix_of` whole ∧
  (1 ≤ length chunks → wal_file d = wal_file (disk kv)) ∧
  (length chunks < 1 → wal_file d = [] ∧ data_file d = Some whole).
Proof.
  intros kv whole chunks d.
  apply (@checkpoint_written_in_place reference_store kv chunks 1 d).
  - vm_compute. reflexivity.
  - vm_compute. reflexivity.
Defined.

(** C6 as stated fails: during a checkpoint of the store [{a: 1}] the live
    checkpoint path holds a strict part of the dump (after the first call,
    nothing). *)
Lemma checkpoint_live_file_partial :
  let kv := snd (@KVStoreServer._process_request reference_record fresh
                   (set_request "a" (VInt 1))) in
  let whole := @dumps _ reference_store (store kv) in
  ∃ d bs,
    d ∈ sys_trace (disk kv) (KVStore.checkpoint_calls [whole]) ∧
    data_file d = Some bs ∧ bs `prefix_of` whole ∧ bs ≠ whole.
Proof.
  intros kv whole.
  exists (mkDisk (Some []) (wal_file (disk kv))), []. split_and!.
  - apply list_elem_of_here.
  - reflexivity.
  - apply prefix_nil.
  - vm_compute. discriminate.
Qed.

(** ** Reads (C5) *)

Section claims_reads.
Context `{Pickle Record} `{Pickle Store}.

Lemma serve_binding requests : ∀ kv k,
  Forall batch_keys_hashable requests →
  store (snd (KVStoreServer.serve kv requests)) !! KStr k
  = spec_binding (store kv !! KStr k)
      (zip requests (fst (KVStoreServer.serve kv requests))) k.
Proof.
  induction requests as [| request requests IH]; intros kv k Hk; simpl; [done |].
  inversion Hk as [| ? ? Hr Hrs]; subst.
  destruct (KVStoreServer._process_request kv request) as [response kv1] eqn:Ep.
  specialize (IH kv1 k Hrs).
  destruct (KVStoreServer.serve kv1 requests) as [responses kv2]. simpl in *.
  rewrite IH. unfold spec_binding. simpl.
  by rewrite (process_request_binding kv request response kv1 k Ep Hr).
Qed.

Lemma get_reply_lookup kv key :
  fst (KVStoreServer._process_request kv (get_request key))
  = match store kv !! KStr key with
    | Some VNone | None => reply_not_found
    | Some v => reply_value v
    end.
Proof.
  unfold KVStoreServer._process_request, KVStoreServer.process_body, get_request. simpl.
  unfold get_reply, KVStore.get, dict_get. simpl.
  by destruct (store kv !! KStr key) as [[] |].
Qed.

(** C5, as the code has it.  After any history of requests in which no
    [BULK_SET] has a list or an object as an item key, [GET k] answers [OK]
    with the value [v] bound by the most recent acknowledged [SET] or
    [BULK_SET] to [k] whenever [v] is not null; and it answers [NOT_FOUND]
    exactly when the most recent acknowledged write to [k] was a [DELETE],
    or there was none, or it bound [k] to null.  The writes are read off the
    requests as the protocol writes them.  (What the store holds when the
    history starts counts as written before it.) *)
Theorem get_reads_last_acknowledged_write kv requests key :
  Forall batch_keys_hashable requests →
  let responses := fst (KVStoreServer.serve kv requests) in
  let kv' := snd (KVStoreServer.serve kv requests) in
  let binding := spec_binding (store kv !! KStr key) (zip requests responses) key in
  let reply := fst (KVStoreServer._process_request kv' (get_request key)) in
  (∀ v, binding = Some v → v ≠ VNone → reply = reply_value v) ∧
  (reply = reply_not_found ↔ binding = None ∨ binding = Some VNone).
Proof.
  intros Hk responses kv' binding reply.
  assert (store kv' !! KStr key = binding) as Hb by (by apply serve_binding).
  subst reply. rewrite get_reply_lookup, Hb. split.
  - intros v -> Hv. by destruct v.
  - destruct binding as [[] |]; split; try done; try (by left); try (by right);
      intros [? | ?]; done.
Qed.
End claims_reads.

Lemma get_reads_last_acknowledged_write_witness :
  let requests := [set_request "a" (VInt 1); delete_request "b";
                   bulk_set_request [("a", VInt 2); ("b", VStr "x")];
                   [("operation", VStr "SET"); ("key", VList [VInt 1]); ("value", VInt 3)]] in
  let responses := fst (@KVStoreServer.serve reference_record fresh requests) in
  let kv' := snd (@KVStoreServer.serve reference_record fresh requests) in
  let binding := spec_binding (store fresh !! KStr "a") (zip requests responses) "a" in
  let reply := fst (@KVStoreServer._process_request reference_record kv' (get_request "a")) in
  binding = Some (VInt 2) ∧
  (∀ v, binding = Some v → v ≠ VNone → reply = reply_value v) ∧
  (reply = reply_not_found ↔ binding = None ∨ binding = Some VNone).
Proof.
  intros requests. split; [vm_compute; reflexivity |].
  apply (@get_reads_last_acknowledged_write reference_record fresh requests "a").
  repeat constructor; intros Hop; try discriminate Hop; vm_compute; repeat constructor.
Defined.

(** C5 as stated fails on null: [SET a null] is answered [OK], it is the
    most recent acknowledged write to [a] and it binds [a] to null, yet
    [GET a] answers [NOT_FOUND]. *)
Lemma get_null_not_found :
  let requests := [set_request "a" VNone; get_request "a"] in
  let responses := fst (@KVStoreServer.serve reference_record fresh requests) in
  responses = [reply_success true; reply_not_found] ∧
  spec_binding None (zip requests responses) "a" = Some VNone.
Proof. split; vm_compute; reflexivity. Qed.

(** ** The dispatchers never raise (C10) *)

Section claims_dispatch.
Context `{Pickle Record} `{Pickle Store}.

Lemma items_of_lacks_field l :
  Exists lacks_field l → ∃ e, items_of (VList l) = inl e.
Proof.
  unfold items_of. simpl. induction 1 as [item l (o & -> & Ho) | item l _ IH]; simpl.
  - unfold obj_getitem. destruct Ho as [-> | Ho]; [by eexists |].
    destruct (obj_lookup o "key"); simpl; [| by eexists].
    rewrite Ho. by eexists.
  - destruct (py_getitem item "key") as [e | key]; simpl; [by eexists |].
    destruct (py_getitem item "value") as [e | value]; simpl; [by eexists |].
    destruct IH as [e ->]. by eexists.
Qed.

(** A request with a field missing does not get as far as a store call. *)
Lemma missing_field_no_call request :
  missing_field request → ∃ e, request_call request = Some (inl e).
Proof.
  unfold missing_field, request_call, obj_getitem.
  destruct (obj_get request "operation") as [| | | s | |]; simpl;
    try (intros [[? _] | [[? _] | [[? _] | [? _]]]]; done).
  intros [[Hs Hf] | [[Hs Hf] | [[Hs Hf] | [Hs Hf]]]];
    apply bool_decide_eq_true in Hs; subst;
    rewrite ?bool_decide_eq_false_2 by done.
  - rewrite bool_decide_eq_true_2 by done.
    destruct Hf as [-> | Hf]; [by eexists |].
    destruct (obj_lookup request "key"); simpl; [| by eexists].
    rewrite Hf. by eexists.
  - rewrite bool_decide_eq_true_2 by done. rewrite Hf. by eexists.
  - rewrite bool_decide_eq_true_2 by done. rewrite Hf. by eexists.
  - rewrite bool_decide_eq_true_2 by done.
    destruct Hf as [-> | (l & -> & Hl)]; [by eexists |]. simpl.
    destruct (items_of_lacks_field l Hl) as [e ->]. by eexists.
Qed.

Lemma call_reply_status c r response :
  call_reply c r = inr response →
  ∃ st, obj_lookup response "status" = Some (VStr st).
Proof.
  destruct c, r as [e | v]; simpl; try done; try (intros [= <-]; by eexists).
  destruct v; intros [= <-]; by eexists.
Qed.

Lemma server_total kv request :
  (∃ st, obj_lookup (fst (KVStoreServer._process_request kv request)) "status" = Some (VStr st)) ∧
  (∀ e kv1, KVStoreServer.process_body kv request = (inl e, kv1) →
     KVStoreServer._process_request kv request = (reply_error (str_exn e), kv1)) ∧
  (missing_field request →
     is_error_reply (fst (KVStoreServer._process_request kv request)) ∧
     snd (KVStoreServer._process_request kv request) = kv).
Proof.
  split_and!.
  - unfold KVStoreServer._process_request. rewrite server_body_call.
    destruct (request_call request) as [[e | c] |]; simpl; [by eexists | | by eexists].
    destruct (call_reply c _) as [e | response] eqn:Er; simpl; [by eexists |].
    by eapply call_reply_status.
  - intros e kv1 Hb. unfold KVStoreServer._process_request. by rewrite Hb.
  - intros [e He]%missing_field_no_call.
    unfold KVStoreServer._process_request. rewrite server_body_call, He. simpl.
    split; [| done]. split; [done | by eexists].
Qed.
End claims_dispatch.

Section claims_dispatch_cluster.
Context `{Pickle Record} `{Pickle Store}.

Lemma handle_cluster_message_status n message now :
  has_status (fst (ClusterNode._handle_cluster_message n message now)).
Proof.
  unfold ClusterNode._handle_cluster_message, has_status.
  destruct (is_str _ "HEARTBEAT").
  { destruct (py_max_int _ _); simpl; [done |]. intros ? [= <-]. by eexists. }
  destruct (is_str _ "VOTE_REQUEST").
  { destruct (py_gt_int _ _) as [e | newer]; simpl; [done |].
    match goal with |- context [if ?c then _ else _] => destruct c end;
      simpl; intros ? [= <-]; by eexists. }
  destruct (is_str _ "REPLICATE").
  { case_decide; [| simpl; intros ? [= <-]; by eexists].
    destruct (ClusterNode._apply_operation_locally _ _) as [[e | []] kv']; simpl; [done |].
    intros ? [= <-]. by eexists. }
  simpl. intros ? [= <-]. by eexists.
Qed.

Lemma finish_write_status n request r :
  has_status (fst (fst (ClusterNode.finish_write n request r))).
Proof.
  unfold ClusterNode.finish_write, has_status.
  destruct (fst r) as [e | b]; simpl; [done |]. intros ? [= <-]. by eexists.
Qed.

Lemma get_reply_status kv request : has_status (get_reply kv request).
Proof.
  unfold get_reply, has_status.
  destruct (obj_getitem request "key") as [e | key]; simpl; [done |].
  destruct (KVStore.get kv key) as [e | v]; simpl; [done |].
  destruct v; intros ? [= <-]; by eexists.
Qed.

Lemma cluster_body_status n request now :
  has_status (fst (fst (ClusterNode.process_body n request now))).
Proof.
  unfold ClusterNode.process_body.
  destruct (is_cluster_message _); [apply handle_cluster_message_status |].
  destruct (is_write _ && _).
  { simpl. intros ? [= <-]. by eexists. }
  destruct (is_str _ "SET").
  { destruct (obj_getitem request "key") as [e | key]; simpl; [done |].
    destruct (obj_getitem request "value") as [e | value]; simpl; [done |].
    apply finish_write_status. }
  destruct (is_str _ "GET"); [apply get_reply_status |].
  destruct (is_str _ "DELETE").
  { destruct (obj_getitem request "key") as [e | key]; simpl; [done |].
    apply finish_write_status. }
  destruct (is_str _ "BULK_SET").
  { destruct (obj_getitem request "items") as [e | xs]; simpl; [done |].
    destruct (items_of xs) as [e | items]; simpl; [done |].
    apply finish_write_status. }
  simpl. intros ? [= <-]. by eexists.
Qed.

(** Closes "this reply is an error reply, and the node is as it was". *)
Ltac error_reply_unchanged := split; [split; [done | by eexists] | done].

(** On a node, a request with a field missing is answered by an error and
    leaves the node as it was: "Not primary" where writes are refused, the
    exception's text otherwise. *)
Lemma cluster_missing_field n request now :
  missing_field request →
  is_error_reply (fst (fst (ClusterNode._process_request n request now))) ∧
  snd (fst (ClusterNode._process_request n request now)) = n.
Proof.
  intros Hm. pose proof Hm as [e He]%missing_field_no_call.
  unfold ClusterNode._process_request, ClusterNode.process_body.
  unfold missing_field in Hm. unfold request_call in He.
  destruct (obj_get request "operation") as [| | | s | |];
    try (destruct Hm as [[? _] | [[? _] | [[? _] | [? _]]]]; done).
  assert (is_cluster_message (VStr s) = false) as ->.
  { unfold is_cluster_message. cbn [is_str].
    destruct Hm as [[Hs _] | [[Hs _] | [[Hs _] | [Hs _]]]];
      apply bool_decide_eq_true in Hs; subst; by rewrite !bool_decide_eq_false_2. }
  destruct (is_write (VStr s) && bool_decide (role n ≠ PRIMARY)).
  { simpl. error_reply_unchanged. }
  destruct (is_str (VStr s) "SET").
  { injection He as He. unfold mbind, Res_bind in He.
    destruct (obj_getitem request "key") as [e1 | key]; simpl.
    { error_reply_unchanged. }
    destruct (obj_getitem request "value") as [e1 | value]; simpl; [| done].
    error_reply_unchanged. }
  destruct (is_str (VStr s) "GET").
  { injection He as He. unfold get_reply.
    destruct (obj_getitem request "key") as [e1 | key]; simpl; [| done].
    error_reply_unchanged. }
  destruct (is_str (VStr s) "DELETE").
  { injection He as He.
    destruct (obj_getitem request "key") as [e1 | key]; simpl; [| done].
    error_reply_unchanged. }
  destruct (is_str (VStr s) "BULK_SET"); [| done].
  injection He as He.
  destruct (obj_getitem request "items") as [e1 | xs]; simpl.
  { error_reply_unchanged. }
  simpl in He. destruct (items_of xs) as [e1 | items]; simpl; [| done].
  error_reply_unchanged.
Qed.

(** C10.  Both dispatchers answer every request object with a reply that
    has a status; whatever the body of their [try] raises becomes the
    [ERROR] reply carrying the exception's text; and a request with a known
    operation and a required field missing gets an [ERROR] reply with a
    message and leaves the store (and the whole node) as it was. *)
Theorem dispatcher_total :
  (∀ kv request,
     (∃ st, obj_lookup (fst (KVStoreServer._process_request kv request)) "status"
            = Some (VStr st)) ∧
     (∀ e kv1, KVStoreServer.process_body kv request = (inl e, kv1) →
        KVStoreServer._process_request kv request = (reply_error (str_exn e), kv1)) ∧
     (missing_field request →
        is_error_reply (fst (KVStoreServer._process_request kv request)) ∧
        snd (KVStoreServer._process_request kv request) = kv)) ∧
  (∀ n request now,
     (∃ st, obj_lookup (fst (fst (ClusterNode._process_request n request now))) "status"
            = Some (VStr st)) ∧
     (∀ e n1 out, ClusterNode.process_body n request now = (inl e, n1, out) →
        ClusterNode._process_request n request now = (reply_error (str_exn e), n1, out)) ∧
     (missing_field request →
        is_error_reply (fst (fst (ClusterNode._process_request n request now))) ∧
        snd (fst (ClusterNode._process_request n request now)) = n)).
Proof.
  split; [apply server_total |]. intros n request now. split_and!.
  - pose proof (cluster_body_status n request now) as Hs.
    unfold ClusterNode._process_request.
    destruct (ClusterNode.process_body n request now) as [[[e | response] n1] out]; simpl.
    + by eexists.
    + by apply Hs.
  - intros e n1 out Hb. unfold ClusterNode._process_request. by rewrite Hb.
  - apply cluster_missing_field.
Qed.
End claims_dispatch_cluster.

(** ** Votes, heartbeats and elections (C7, C8, C3) *)

Section claims_cluster.
Context `{Pickle Record}.

Lemma vote_request_fields T candidate_id :
  obj_get (vote_request_message T candidate_id) "operation" = VStr "VOTE_REQUEST" ∧
  obj_get_default (vote_request_message T candidate_id) "term" (VInt 0) = VInt T ∧
  obj_get (vote_request_message T candidate_id) "candidate_id" = candidate_id.
Proof. done. Qed.

Lemma heartbeat_fields t h p :
  obj_get (heartbeat_message t h p) "operation" = VStr "HEARTBEAT" ∧
  obj_get_default (heartbeat_message t h p) "term" (VInt 0) = VInt t ∧
  obj_get (heartbeat_message t h p) "primary_host" = VStr h ∧
  obj_get (heartbeat_message t h p) "primary_port" = VInt p.
Proof. done. Qed.

(** The vote branch, on a well-formed request. *)
Lemma handle_vote_request n T candidate_id now :
  ClusterNode._handle_cluster_message n (vote_request_message T candidate_id) now =
  let n1 := if bool_decide (term n < T)%Z
            then set_voted_for (set_term n T) VNone else n in
  if match voted_for n1 with VNone => true | v => py_eqb v candidate_id end
  then (inr (reply_vote true (term n1)), set_voted_for n1 candidate_id)
  else (inr (reply_vote false (term n1)), n1).
Proof.
  unfold ClusterNode._handle_cluster_message.
  destruct (vote_request_fields T candidate_id) as (-> & -> & ->).
  cbn [is_str py_gt_int py_int]. rewrite bool_decide_eq_false_2 by done.
  rewrite bool_decide_eq_true_2 by done. done.
Qed.

(** The heartbeat branch, on a well-formed heartbeat. *)
Lemma handle_heartbeat n t h p now :
  ClusterNode._handle_cluster_message n (heartbeat_message t h p) now =
  let n1 := set_primary_node (set_last_heartbeat n now) (VList [VStr h; VInt p]) in
  let n2 := set_term n1 (if bool_decide (term n < t)%Z then t else term n) in
  (inr reply_ok, if decide (role n2 ≠ SECONDARY) then set_role n2 SECONDARY else n2).
Proof.
  unfold ClusterNode._handle_cluster_message.
  destruct (heartbeat_fields t h p) as (-> & -> & -> & ->).
  cbn [is_str]. rewrite bool_decide_eq_true_2 by done. done.
Qed.

(** C7, as the code has it.  On [VOTE_REQUEST] with term [T] a node first
    adopts [T] and forgets its vote when [T] is above its term; it then
    grants exactly when it has no vote or its vote is the candidate's.  So
    the vote is granted iff [T] is above the node's term, or [voted_for] is
    none or the candidate, whether [T] equals the node's term or is below
    it: a request is never refused for its term.  The reply carries the
    decision and the node's term (the larger of the two); a granted vote is
    recorded; the role is untouched. *)
Theorem vote_decision (n : ClusterNode) (T : Z) (candidate_id : Value) (now : Z) :
  ∃ granted : bool,
    let n' := snd (ClusterNode._handle_cluster_message n (vote_request_message T candidate_id) now) in
    fst (ClusterNode._handle_cluster_message n (vote_request_message T candidate_id) now)
    = inr (reply_vote granted (term n')) ∧
    (granted = true ↔
       (term n < T)%Z ∨ voted_for n = VNone ∨ py_eqb (voted_for n) candidate_id = true) ∧
    term n' = Z.max (term n) T ∧
    voted_for n' = (if granted then candidate_id else voted_for n) ∧
    role n' = role n.
Proof.
  rewrite handle_vote_request. cbn zeta.
  case_bool_decide as Hnew.
  - exists true. simpl. split_and!; [done | | lia | done | done].
    split; [by left | done].
  - destruct (match voted_for n with VNone => true | v => py_eqb v candidate_id end)
      eqn:Eg.
    + exists true. simpl. split_and!; [done | | lia | done | done].
      split; [| done]. intros _. right.
      destruct (voted_for n); [by left | by right ..].
    + exists false. simpl. split_and!; [done | | lia | done | done].
      split; [done |]. intros [? | [Hv | Hv]]; [lia | |].
      * by rewrite Hv in Eg.
      * destruct (voted_for n); [done | by rewrite Hv in Eg ..].
Qed.

(** C8, as the code has it.  A heartbeat whose term is a number makes the
    node [SECONDARY] whatever that term, below the node's own, equal to it
    or above it (the node's term becomes the larger of the two; a heartbeat
    without a term counts as term 0); on a heartbeat whose term is not a
    number the handler raises and role and term stay.  A vote request
    whose term is not above the node's leaves role and term as they are.
    So a primary leaves the role on a heartbeat of its own term or of an
    older one, and on no vote request of such a term. *)
Theorem heartbeat_demotes_whatever_term (n : ClusterNode) (now : Z) :
  (∀ message t,
     is_str (obj_get message "operation") "HEARTBEAT" = true →
     py_int (obj_get_default message "term" (VInt 0)) = Some t →
     let handled := ClusterNode._handle_cluster_message n message now in
     fst handled = inr reply_ok ∧
     role (snd handled) = SECONDARY ∧ term (snd handled) = Z.max (term n) t) ∧
  (∀ message,
     is_str (obj_get message "operation") "HEARTBEAT" = true →
     py_int (obj_get_default message "term" (VInt 0)) = None →
     let handled := ClusterNode._handle_cluster_message n message now in
     (∃ e, fst handled = inl e) ∧
     role (snd handled) = role n ∧ term (snd handled) = term n) ∧
  (∀ message T,
     is_str (obj_get message "operation") "VOTE_REQUEST" = true →
     py_int (obj_get_default message "term" (VInt 0)) = Some T →
     (T ≤ term n)%Z →
     let handled := ClusterNode._handle_cluster_message n message now in
     role (snd handled) = role n ∧ term (snd handled) = term n).
Proof.
  split_and!.
  - intros message t Hop Ht. unfold ClusterNode._handle_cluster_message.
    rewrite Hop. cbn zeta. unfold py_max_int, py_gt_int. rewrite Ht. simpl.
    split_and!; [done | |].
    + case_decide as Hr; simpl; [done |]. by destruct (role n).
    + case_decide; simpl; case_bool_decide; lia.
  - intros message Hop Ht. unfold ClusterNode._handle_cluster_message.
    rewrite Hop. cbn zeta. unfold py_max_int, py_gt_int. rewrite Ht. simpl.
    split_and!; [by eexists | done | done].
  - intros message T Hop HT Hle. unfold ClusterNode._handle_cluster_message.
    apply is_str_true in Hop. rewrite Hop. cbn [is_str].
    rewrite bool_decide_eq_false_2 by done.
    rewrite bool_decide_eq_true_2 by done. cbn zeta.
    unfold py_gt_int. rewrite HT. simpl.
    rewrite bool_decide_eq_false_2 by lia.
    match goal with |- context [if ?c then _ else _] => destruct c end; done.
Qed.
End claims_cluster.

(** C7 as stated fails below the node's term: a node of term 5 that has not
    voted grants the vote to a candidate of term 3. *)
Lemma stale_vote_granted :
  let n := set_term (ClusterNode.__init__ 2 "localhost" 10002 [] 0) 5 in
  (3 < term n)%Z ∧
  fst (@ClusterNode._handle_cluster_message reference_record n
         (vote_request_message 3 (VInt 1)) 0)
  = inr (reply_vote true 5).
Proof. split; [done | vm_compute; reflexivity]. Qed.

Lemma heartbeat_demotes_whatever_term_witness :
  let n := set_term (ClusterNode.main_primary 0 "localhost" 10001 [] 0) 5 in
  let handled message :=
    snd (@ClusterNode._handle_cluster_message reference_record n message 0) in
  (role (handled (heartbeat_message 3 "localhost" 10002)) = SECONDARY ∧
   term (handled (heartbeat_message 3 "localhost" 10002)) = Z.max 5 3) ∧
  (role (handled (heartbeat_message 7 "localhost" 10002)) = SECONDARY ∧
   term (handled (heartbeat_message 7 "localhost" 10002)) = Z.max 5 7) ∧
  (role (handled [("operation", VStr "HEARTBEAT"); ("term", VStr "7")]) = PRIMARY ∧
   term (handled [("operation", VStr "HEARTBEAT"); ("term", VStr "7")]) = 5%Z) ∧
  (role (handled (vote_request_message 5 (VInt 1))) = PRIMARY ∧
   term (handled (vote_request_message 5 (VInt 1))) = 5%Z).
Proof.
  intros n handled.
  pose proof (@heartbeat_demotes_whatever_term reference_record n 0) as (Hb & Hbad & Hv).
  split_and!.
  - exact (proj1 (proj2 (Hb (heartbeat_message 3 "localhost" 10002) 3%Z eq_refl eq_refl))).
  - exact (proj2 (proj2 (Hb (heartbeat_message 3 "localhost" 10002) 3%Z eq_refl eq_refl))).
  - exact (proj1 (proj2 (Hb (heartbeat_message 7 "localhost" 10002) 7%Z eq_refl eq_refl))).
  - exact (proj2 (proj2 (Hb (heartbeat_message 7 "localhost" 10002) 7%Z eq_refl eq_refl))).
  - exact (proj1 (proj2 (Hbad [("operation", VStr "HEARTBEAT"); ("term", VStr "7")]
                           eq_refl eq_refl))).
  - exact (proj2 (proj2 (Hbad [("operation", VStr "HEARTBEAT"); ("term", VStr "7")]
                           eq_refl eq_refl))).
  - refine (proj1 (Hv (vote_request_message 5 (VInt 1)) 5%Z eq_refl eq_refl _)).
    simpl. lia.
  - refine (proj2 (Hv (vote_request_message 5 (VInt 1)) 5%Z eq_refl eq_refl _)).
    simpl. lia.
Defined.

(** C8 as stated fails: a primary of term 5 becomes secondary on a
    heartbeat of term 3, and on one of term 5. *)
Lemma primary_demoted_by_stale_heartbeat :
  let n := set_term (ClusterNode.main_primary 0 "localhost" 10001 [] 0) 5 in
  role n = PRIMARY ∧ term n = 5%Z ∧
  role (snd (@ClusterNode._handle_cluster_message reference_record n
               (heartbeat_message 3 "localhost" 10002) 0)) = SECONDARY ∧
  role (snd (@ClusterNode._handle_cluster_message reference_record n
               (heartbeat_message 5 "localhost" 10002) 0)) = SECONDARY.
Proof. split_and!; vm_compute; reflexivity. Qed.

(** C3 fails of the code.  After the heartbeat timeout node 0 runs an
    election and wins term 1; before it has sent a heartbeat, node 1's
    timeout fires too: it asks for votes in term 2; node 0 adopts term 2 and
    grants, and stays primary, since a vote request never changes the
    role; node 1 wins.  Both are then [PRIMARY] with term 2. *)
Theorem two_primaries_in_one_term :
  ∃ w, @ClusterNode.reachable reference_record (ClusterNode.mkWorld three_nodes 0) w ∧
       two_primaries w.
Proof.
  eexists. split.
  - eapply rtc_l; [apply (ClusterNode.step_tick _ 6000); done |].
    eapply rtc_l.
    { eapply (ClusterNode.step_election _ 0 _ (λ _, true)); [reflexivity | done | done]. }
    eapply rtc_l; [| apply rtc_refl].
    eapply (ClusterNode.step_election _ 1 _ (λ _, true)).
    + vm_compute. reflexivity.
    + done.
    + done.
  - exists 0, 1. eexists _, _. split; [done |].
    split; [vm_compute; reflexivity |]. split; [vm_compute; reflexivity |].
    split_and!; reflexivity.
Qed.

(** Outside the protocol again: a batch with an unhashable key is logged
    whole, applied up to that key, and answered [ERROR]; the bindings made
    before the key raised are read back although the batch was never
    acknowledged. *)
Lemma unacknowledged_batch_partly_applied :
  let batch : Obj :=
    [("operation", VStr "BULK_SET");
     ("items", VList [VDict [("key", VStr "a"); ("value", VInt 1)];
                      VDict [("key", VList [VInt 1]); ("value", VInt 2)]])] in
  fst (@KVStoreServer.serve reference_record fresh [batch; get_request "a"])
  = [reply_error "unhashable type: 'list'"; reply_value (VInt 1)].
Proof. vm_compute. reflexivity. Qed.

(** * Further properties of the code *)

(** ** The log and the store, call by call *)

Section more_wal.
Context `{Pickle Record} `{!PickleLaws Record}.

(** X1.  Append, then read back: on a log made of whole entries,
    [log_operation] followed by [replay] returns the entries that were
    there, in order, followed by the new one; the append leaves the
    checkpoint file alone, and after [WriteAheadLog.checkpoint] the log
    replays to nothing. *)
Theorem log_operation_then_replay (d d' : Disk) (ops : list Record) (op : Record) :
  log_bytes ops = inr (wal_file d) →
  WriteAheadLog.log_operation d op = inr d' →
  WriteAheadLog.replay d = inr ops ∧
  WriteAheadLog.replay d' = inr (ops ++ [op]) ∧
  data_file d' = data_file d ∧
  WriteAheadLog.replay (WriteAheadLog.checkpoint d') = inr [].
Proof.
  intros Hl Hlog. unfold WriteAheadLog.log_operation in Hlog.
  destruct (WriteAheadLog.frame op) as [e | b] eqn:Eb; [done |].
  injection Hlog as <-. split_and!.
  - by apply replay_log.
  - apply replay_log. simpl. by apply log_bytes_snoc.
  - done.
  - done.
Qed.
End more_wal.

Lemma log_operation_then_replay_witness :
  let op := RDelete (VStr "a") in
  let d := disk (snd (@KVStore.set reference_record fresh (VStr "a") (VInt 1))) in
  let d' := sys_exec d (SysWrite WalFile
              (default [] (match @WriteAheadLog.frame reference_record op with
                           | inr b => Some b | inl _ => None end))) in
  @WriteAheadLog.replay reference_record d' = inr [RSet (VStr "a") (VInt 1); op].
Proof.
  intros op d d'.
  refine (proj1 (proj2 (@log_operation_then_replay reference_record reference_record_laws
                          d d' [RSet (VStr "a") (VInt 1)] op _ _))).
  - vm_compute. reflexivity.
  - vm_compute. reflexivity.
Defined.

Section more_store.
Context `{Pickle Record} `{Pickle Store}.

(** X2.  Insert, then look up: when [set] returns, it returns [True],
    [get] of every key that is the same dictionary key (equal hash and
    [==], as [True] and [1]) returns the value, also when the value is
    [None], and [get] of every other key returns what it returned
    before. *)
Theorem get_after_set (kv kv' : KVStore) (key value : Value) (b : bool) :
  KVStore.set kv key value = (inr b, kv') →
  b = true ∧
  (∀ key', py_hash key' = py_hash key → KVStore.get kv' key' = inr value) ∧
  (∀ key', py_hash key' ≠ py_hash key → KVStore.get kv' key' = KVStore.get kv key').
Proof.
  unfold KVStore.set, KVStore.get, dict_setitem, dict_get.
  destruct (WriteAheadLog.log_operation _ _) as [e | d]; [done |].
  destruct (py_hash key) as [e | k] eqn:Ek; simpl; [done |].
  intros [= <- <-]. split_and!; [done | |].
  - intros key' ->. simpl. by rewrite lookup_insert_eq.
  - intros key' Hne. simpl. destruct (py_hash key') as [e | k']; simpl; [done |].
    rewrite lookup_insert_ne; [done | congruence].
Qed.

(** X3.  [delete] returns whether the key was bound.  A bound key is
    unbound after one log entry was appended; an unbound key changes
    nothing, on disk or in memory.  In both cases [get] of the key then
    returns [None] and a second [delete] returns [False] and does
    nothing. *)
Theorem delete_returns_presence (kv kv' : KVStore) (key : Value) (b : bool) :
  KVStore.delete kv key = (inr b, kv') →
  ∃ k, py_hash key = inr k ∧
       b = bool_decide (is_Some (store kv !! k)) ∧
       store kv' = base.delete k (store kv) ∧
       (if b then WriteAheadLog.log_operation (disk kv) (RDelete key) = inr (disk kv')
        else kv' = kv) ∧
       KVStore.get kv' key = inr VNone ∧
       KVStore.delete kv' key = (inr false, kv').
Proof.
  unfold KVStore.delete, KVStore.get, dict_contains, dict_pop, dict_get.
  destruct (py_hash key) as [e | k] eqn:Ek; simpl; [done |].
  case_bool_decide as Hin.
  - destruct (WriteAheadLog.log_operation _ _) as [e | d]; [done |].
    intros [= <- <-]. exists k. simpl. rewrite lookup_delete_eq. simpl.
    split_and!; try done.
    by rewrite bool_decide_eq_true_2.
  - intros [= <- <-]. exists k. split_and!; try done.
    + by rewrite bool_decide_eq_false_2.
    + rewrite delete_id; [done |]. by apply eq_None_not_Some.
    + apply eq_None_not_Some in Hin. by rewrite Hin.
    + by rewrite bool_decide_eq_false_2.
Qed.

(** The running store after the items of a batch were set one by one. *)
Lemma run_sets_setitems (items : list (Value * Value)) : ∀ (kv : KVStore) (S' : Store),
  setitems (store kv) items = (inr (), S') →
  Forall (λ item, ∃ bs, WriteAheadLog.frame (RSet item.1 item.2) = inr bs) items →
  store (KVStore.run kv (map (λ item, CSet item.1 item.2) items)) = S'.
Proof.
  induction items as [| [key value] items IH]; intros kv S'; simpl.
  - by intros [= <-].
  - destruct (dict_setitem (store kv) key value) as [e | S1] eqn:Es; [done |].
    intros Hs Hf. inversion Hf as [| ? ? [bs Hbs] Hf']; subst. simpl in Hbs.
    unfold KVStore.set, WriteAheadLog.log_operation. rewrite Hbs, Es. simpl.
    by apply IH.
Qed.

(** X4.  A batch is the sequence of its sets: when [bulk_set] returns, the
    store is the one that [set] called on the items one after the other
    leaves (each of them small enough for a log entry), and replaying the
    one [bulk_set] entry has the effect of replaying the [set] entries of
    the items. *)
Theorem bulk_set_as_sets (kv kv' : KVStore) (items : list (Value * Value)) (b : bool) :
  KVStore.bulk_set kv items = (inr b, kv') →
  Forall (λ item, ∃ bs, WriteAheadLog.frame (RSet item.1 item.2) = inr bs) items →
  store (KVStore.run kv (map (λ item, CSet item.1 item.2) items)) = store kv' ∧
  apply_ops (store kv) (map (λ item, RSet item.1 item.2) items) = (inr (), store kv') ∧
  apply_op (store kv) (RBulkSet items) = (inr (), store kv').
Proof.
  unfold KVStore.bulk_set.
  destruct (WriteAheadLog.log_operation _ _) as [e | d]; [done |].
  destruct (setitems (store kv) items) as [[e | []] S'] eqn:Es; [done |].
  intros [= <- <-] Hf. simpl. split_and!; [by apply run_sets_setitems | | done].
  clear Hf. revert Es. generalize (store kv). clear.
  induction items as [| [key value] items IH]; intros S; simpl.
  - by intros [= <-].
  - destruct (dict_setitem S key value) as [e | S1]; [done |]. apply IH.
Qed.

(** A call that is not a checkpoint leaves the checkpoint file alone and
    keeps the log as a prefix of the new log. *)
Lemma call_appends (kv : KVStore) (c : Call) :
  c ≠ CCheckpoint →
  data_file (disk (snd (KVStore.call kv c))) = data_file (disk kv) ∧
  wal_file (disk kv) `prefix_of` wal_file (disk (snd (KVStore.call kv c))).
Proof.
  intros Hc.
  assert (∀ op d, WriteAheadLog.log_operation (disk kv) op = inr d →
            data_file d = data_file (disk kv) ∧ wal_file (disk kv) `prefix_of` wal_file d)
    as Hlog.
  { intros op d. unfold WriteAheadLog.log_operation.
    destruct (WriteAheadLog.frame op) as [e | bs]; [done |]. intros [= <-].
    split; [done |]. by apply prefix_app_r. }
  destruct c as [key value | key | key | items |]; simpl; [| done | | | done].
  - unfold KVStore.set.
    destruct (WriteAheadLog.log_operation _ _) as [e | d] eqn:El; [done |].
    destruct (dict_setitem _ _ _); simpl; eauto.
  - unfold KVStore.delete.
    destruct (dict_contains _ _) as [e | []]; [done | | done].
    destruct (WriteAheadLog.log_operation _ _) as [e | d] eqn:El; [done |].
    destruct (dict_pop _ _); simpl; eauto.
  - unfold KVStore.bulk_set.
    destruct (WriteAheadLog.log_operation _ _) as [e | d] eqn:El; [done |].
    destruct (setitems _ _) as [[e | []] S']; simpl; eauto.
Qed.

(** X5.  Between two checkpoints the data directory only grows: whatever
    the calls ([set], [get], [delete], [bulk_set], whether they return
    or raise), the checkpoint file is left as it was and the log keeps
    what it held, with bytes added at its end only. *)
Theorem log_append_only (kv : KVStore) (cs : list Call) :
  Forall (λ c, c ≠ CCheckpoint) cs →
  data_file (disk (KVStore.run kv cs)) = data_file (disk kv) ∧
  wal_file (disk kv) `prefix_of` wal_file (disk (KVStore.run kv cs)).
Proof.
  revert kv. induction cs as [| c cs IH]; intros kv Hcs; simpl; [done |].
  inversion Hcs as [| ? ? Hc Hcs']; subst.
  destruct (call_appends kv c Hc) as [H1 H2].
  destruct (IH (snd (KVStore.call kv c)) Hcs') as [H3 H4].
  split; [congruence | by etrans].
Qed.
End more_store.

Lemma get_after_set_witness :
  @KVStore.get (snd (@KVStore.set reference_record fresh (VBool true) VNone)) (VInt 1)
  = inr VNone.
Proof.
  refine (proj1 (proj2 (@get_after_set reference_record fresh _ (VBool true) VNone true _))
            (VInt 1) _).
  - vm_compute. reflexivity.
  - reflexivity.
Defined.

Lemma delete_returns_presence_witness :
  let kv := snd (@KVStore.set reference_record fresh (VStr "a") (VInt 1)) in
  let kv' := snd (@KVStore.delete reference_record kv (VStr "a")) in
  KVStore.get kv' (VStr "a") = inr VNone ∧
  @KVStore.delete reference_record kv' (VStr "a") = (inr false, kv').
Proof.
  intros kv kv'.
  destruct (@delete_returns_presence reference_record kv kv' (VStr "a") true)
    as (k & _ & _ & _ & _ & Hget & Hdel).
  - vm_compute. reflexivity.
  - exact (conj Hget Hdel).
Defined.

Lemma bulk_set_as_sets_witness :
  let items := [(VStr "a", VInt 1); (VBool true, VStr "x"); (VInt 1, VStr "y")] in
  store (@KVStore.run reference_record reference_store fresh (map (λ item, CSet item.1 item.2) items))
  = store (snd (@KVStore.bulk_set reference_record fresh items)).
Proof.
  intros items.
  refine (proj1 (@bulk_set_as_sets reference_record reference_store fresh _ items true _ _)).
  - vm_compute. reflexivity.
  - repeat constructor; eexists; vm_compute; reflexivity.
Defined.

Lemma log_append_only_witness :
  let cs := [CSet (VStr "a") (VInt 1); CGet (VStr "a"); CSet (VList []) VNone;
             CDelete (VStr "a"); CDelete (VStr "a"); CBulkSet []] in
  data_file (disk (@KVStore.run reference_record reference_store fresh cs)) = None ∧
  [] `prefix_of` wal_file (disk (@KVStore.run reference_record reference_store fresh cs)).
Proof.
  intros cs. apply (@log_append_only reference_record reference_store fresh cs).
  repeat constructor; discriminate.
Defined.

Section more_recovery.
Context `{Pickle Record} `{Pickle Store} `{!PickleLaws Record} `{!PickleLaws Store}.

(** X6.  Checkpoint, then reopen: whatever the data directory held
    before (also a log that does not replay), after [checkpoint] (and so
    after [shutdown]) the checkpoint file is the dump of the store, the
    log is empty, and [KVStore(data_dir)] on that directory gives the
    store as it was in memory. *)
Theorem checkpoint_then_reopen (kv : KVStore) :
  KVStore.shutdown kv = KVStore.checkpoint kv ∧
  store (KVStore.checkpoint kv) = store kv ∧
  disk (KVStore.checkpoint kv) = mkDisk (Some (dumps (store kv))) [] ∧
  KVStore.__init__ (disk (KVStore.checkpoint kv)) = inr (KVStore.checkpoint kv).
Proof.
  split_and!; try done.
  unfold KVStore.__init__, KVStore._load_from_disk, KVStore.checkpoint. simpl.
  unfold pickle_loads. by rewrite loads_dumps.
Qed.

Lemma run_holds (cs : list Call) : ∀ kv : KVStore,
  disk_holds (disk kv) (store kv) → Forall well_keyed cs →
  disk_holds (disk (KVStore.run kv cs)) (store (KVStore.run kv cs)).
Proof.
  induction cs as [| c cs IH]; intros kv Hh Hk; simpl; [done |].
  inversion Hk; subst. apply IH; [by apply call_holds | done].
Qed.

Lemma run_app (cs cs' : list Call) : ∀ kv : KVStore,
  KVStore.run kv (cs ++ cs') = KVStore.run (KVStore.run kv cs) cs'.
Proof. induction cs as [| c cs IH]; intros kv; simpl; [done | apply IH]. Qed.

(** X7.  Restart is transparent between calls: after any run of calls
    with hashable keys (checkpoints included) on a store that agrees
    with its data directory, [KVStore(data_dir)] returns the very state
    of the running store, so a run continued after a restart ends where
    the uninterrupted run ends. *)
Theorem restart_between_calls (kv : KVStore) (cs cs' : list Call) :
  disk_holds (disk kv) (store kv) → Forall well_keyed cs →
  KVStore.__init__ (disk (KVStore.run kv cs)) = inr (KVStore.run kv cs) ∧
  (λ kv1, KVStore.run kv1 cs') <$> KVStore.__init__ (disk (KVStore.run kv cs))
  = inr (KVStore.run kv (cs ++ cs')).
Proof.
  intros Hh Hk.
  assert (KVStore.__init__ (disk (KVStore.run kv cs)) = inr (KVStore.run kv cs)) as Hi.
  { unfold KVStore.__init__.
    rewrite (disk_holds_load _ _ (run_holds cs kv Hh Hk)). simpl.
    by destruct (KVStore.run kv cs). }
  split; [done |]. rewrite Hi. simpl. by rewrite run_app.
Qed.
End more_recovery.

Lemma checkpoint_then_reopen_witness :
  let kv := mkKV {[ KStr "a" := VInt 1 ]} (mkDisk (Some []) ["000"%byte]) in
  @KVStore.__init__ reference_record reference_store
    (disk (@KVStore.checkpoint reference_store kv))
  = inr (@KVStore.checkpoint reference_store kv).
Proof.
  intros kv.
  exact (proj2 (proj2 (proj2
    (@checkpoint_then_reopen reference_record reference_store reference_store_laws kv)))).
Defined.

Lemma restart_between_calls_witness :
  let cs := [CSet (VStr "a") (VInt 1); CCheckpoint; CDelete (VStr "a");
             CBulkSet [(VStr "b", VNone)]] in
  @KVStore.__init__ reference_record reference_store
    (disk (@KVStore.run reference_record reference_store fresh cs))
  = inr (@KVStore.run reference_record reference_store fresh cs).
Proof.
  intros cs.
  refine (proj1 (@restart_between_calls reference_record reference_store
                   reference_record_laws reference_store_laws fresh cs [] _ _)).
  - exists ∅, []. split_and!; [left; split; reflexivity | reflexivity | reflexivity].
  - repeat constructor.
Defined.

(** ** One node: client requests and cluster messages *)

Section more_node.
Context `{Pickle Record}.

Lemma set_kvstore_same (n : ClusterNode) : set_kvstore n (kvstore n) = n.
Proof. by destruct n. Qed.

Lemma is_write_not_get (operation : Value) :
  is_write operation = true → is_str operation "GET" = false.
Proof.
  destruct operation as [| | | s | |]; try done. unfold is_write. cbn [is_str].
  repeat case_bool_decide; subst; done.
Qed.

Lemma is_write_cases (operation : Value) :
  is_write operation = false →
  is_str operation "SET" = false ∧ is_str operation "DELETE" = false ∧
  is_str operation "BULK_SET" = false.
Proof.
  unfold is_write. destruct (is_str _ "SET"), (is_str _ "DELETE"), (is_str _ "BULK_SET");
    done.
Qed.

(** A client request on a node, in terms of the single-node server. *)
Lemma cluster_request_served (n : ClusterNode) (request : Obj) (now : Z) :
  is_cluster_message (obj_get request "operation") = false →
  let served := KVStoreServer._process_request (kvstore n) request in
  ClusterNode._process_request n request now =
  if is_write (obj_get request "operation") && bool_decide (role n ≠ PRIMARY)
  then (reply_not_primary (primary_node n), n, [])
  else (fst served, set_kvstore n (snd served),
        if is_write (obj_get request "operation")
           && is_str (obj_get (fst served) "status") "OK"
        then map (λ peer, (peer, replicate_message request)) (peers n) else []).
Proof.
  intros Hc. cbn zeta.
  unfold ClusterNode._process_request, ClusterNode.process_body,
    KVStoreServer._process_request, KVStoreServer.process_body.
  rewrite Hc.
  destruct (is_write _ && bool_decide _) eqn:Hw; [done |].
  assert (∀ r : Res bool * KVStore,
    is_write (obj_get request "operation") = true →
    (let '(response, n', out) :=
       ClusterNode.finish_write n request r in
     match response with
     | inr response => (response, n', out)
     | inl e => (reply_error (str_exn e), n', out)
     end) =
    (let '(response, kv') := (let '(success, kv') := r in (reply_success <$> success, kv')) in
     match response with
     | inr response => (response, set_kvstore n kv',
         if is_str (obj_get response "status") "OK"
         then map (λ peer, (peer, replicate_message request)) (peers n) else [])
     | inl e => (reply_error (str_exn e), set_kvstore n kv', [])
     end)) as Hfin.
  { intros [[e | b] kv'] Hwr; unfold ClusterNode.finish_write; simpl; [done |].
    rewrite Hwr in Hw. simpl in Hw. apply bool_decide_eq_false in Hw.
    rewrite decide_True; [reflexivity |]. by destruct (decide (role n = PRIMARY)). }
  destruct (is_str _ "SET") eqn:E1.
  { assert (is_write (obj_get request "operation") = true) as Hwr
      by (unfold is_write; by rewrite E1).
    rewrite Hwr. cbn [andb].
    destruct (obj_getitem request "key") as [e | key]; simpl.
    { by rewrite set_kvstore_same. }
    destruct (obj_getitem request "value") as [e | value]; simpl.
    { by rewrite set_kvstore_same. }
    specialize (Hfin (KVStore.set (kvstore n) key value) Hwr).
    destruct (ClusterNode.finish_write _ _ _) as [[r1 n1] out1].
    destruct (KVStore.set (kvstore n) key value) as [[e | b] kv1]; simpl in *;
      destruct r1; exact Hfin. }
  destruct (is_str _ "GET") eqn:E2.
  { destruct (is_write _) eqn:Hwr.
    { apply is_write_not_get in Hwr. congruence. }
    cbn [andb].
    destruct (get_reply (kvstore n) request); simpl; by rewrite set_kvstore_same. }
  destruct (is_str _ "DELETE") eqn:E3.
  { assert (is_write (obj_get request "operation") = true) as Hwr
      by (unfold is_write; rewrite E3; by destruct (is_str _ "SET")).
    rewrite Hwr. cbn [andb].
    destruct (obj_getitem request "key") as [e | key]; simpl.
    { by rewrite set_kvstore_same. }
    specialize (Hfin (KVStore.delete (kvstore n) key) Hwr).
    destruct (ClusterNode.finish_write _ _ _) as [[r1 n1] out1].
    destruct (KVStore.delete (kvstore n) key) as [[e | b] kv1]; simpl in *;
      destruct r1; exact Hfin. }
  destruct (is_str _ "BULK_SET") eqn:E4.
  { assert (is_write (obj_get request "operation") = true) as Hwr
      by (unfold is_write; rewrite E4; by destruct (is_str _ "SET"), (is_str _ "DELETE")).
    rewrite Hwr. cbn [andb].
    destruct (obj_getitem request "items") as [e | xs]; simpl.
    { by rewrite set_kvstore_same. }
    destruct (items_of xs) as [e | items]; simpl.
    { by rewrite set_kvstore_same. }
    specialize (Hfin (KVStore.bulk_set (kvstore n) items) Hwr).
    destruct (ClusterNode.finish_write _ _ _) as [[r1 n1] out1].
    destruct (KVStore.bulk_set (kvstore n) items) as [[e | b] kv1]; simpl in *;
      destruct r1; exact Hfin. }
  assert (is_write (obj_get request "operation") = false) as ->
    by (unfold is_write; by rewrite E1, E3, E4).
  simpl. by rewrite set_kvstore_same.
Qed.

(** X8.  A client request on a node: a write on a node that is not
    primary is refused with "Not primary" and the known primary, nothing
    changes and nothing is sent; every other request is answered, and
    changes the node's store, exactly as the single-node server does, and
    a primary sends the request on to every peer exactly when it was a
    write whose store call returned. *)
Theorem cluster_serves_as_server (n : ClusterNode) (request : Obj) (now : Z) :
  is_cluster_message (obj_get request "operation") = false →
  let served := KVStoreServer._process_request (kvstore n) request in
  let '(response, n', out) := ClusterNode._process_request n request now in
  if is_write (obj_get request "operation") && bool_decide (role n ≠ PRIMARY)
  then response = reply_not_primary (primary_node n) ∧ n' = n ∧ out = []
  else response = fst served ∧ n' = set_kvstore n (snd served) ∧
       out = if is_write (obj_get request "operation")
                && is_str (obj_get response "status") "OK"
             then map (λ peer, (peer, replicate_message request)) (peers n)
             else [].
Proof.
  intros Hc. cbn zeta. rewrite (cluster_request_served n request now Hc). cbn zeta.
  destruct (is_write _ && bool_decide _); done.
Qed.

(** Applying a replicated request changes the store as serving it does. *)
Lemma apply_locally_as_server (kv : KVStore) (request : Obj) :
  snd (ClusterNode._apply_operation_locally kv (VDict request))
  = snd (KVStoreServer._process_request kv request) ∧
  (is_str (obj_get (fst (KVStoreServer._process_request kv request)) "status") "OK" = true →
   fst (ClusterNode._apply_operation_locally kv (VDict request)) = inr ()).
Proof.
  unfold ClusterNode._apply_operation_locally, KVStoreServer._process_request,
    KVStoreServer.process_body.
  destruct (is_str _ "SET") eqn:E1.
  { destruct (obj_getitem request "key") as [e | key]; simpl; [done |].
    destruct (obj_getitem request "value") as [e | value]; simpl; [done |].
    by destruct (KVStore.set kv key value) as [[e | b] kv1]. }
  destruct (is_str _ "GET") eqn:E2.
  { assert (is_str (obj_get request "operation") "DELETE" = false
            ∧ is_str (obj_get request "operation") "BULK_SET" = false) as [-> ->].
    { destruct (obj_get request "operation") as [| | | s | |]; try done.
      simpl in *. repeat case_bool_decide; subst; done. }
    by destruct (get_reply kv request). }
  destruct (is_str _ "DELETE") eqn:E3.
  { destruct (obj_getitem request "key") as [e | key]; simpl; [done |].
    by destruct (KVStore.delete kv key) as [[e | b] kv1]. }
  destruct (is_str _ "BULK_SET") eqn:E4; [| done].
  destruct (obj_getitem request "items") as [e | xs]; simpl; [done |].
  destruct (items_of xs) as [e | items]; simpl; [done |].
  by destruct (KVStore.bulk_set kv items) as [[e | b] kv1].
Qed.

(** X9.  A [REPLICATE] message: a secondary serves the wrapped request on
    its own store, which changes as if the single-node server had served
    it, and answers [OK] whenever that server would; a node that is not
    secondary answers [OK] and applies nothing.  Nothing is sent on. *)
Theorem replicate_applies_as_server (n : ClusterNode) (request : Obj) (now : Z) :
  let served := KVStoreServer._process_request (kvstore n) request in
  let '(response, n', out) :=
    ClusterNode._process_request n (replicate_message request) now in
  n' = replica request n ∧ out = [] ∧
  (role n ≠ SECONDARY ∨ is_str (obj_get (fst served) "status") "OK" = true →
   response = reply_ok).
Proof.
  cbn zeta. unfold ClusterNode._process_request, ClusterNode.process_body, replica.
  change (is_cluster_message (obj_get (replicate_message request) "operation")) with true.
  cbv iota. unfold ClusterNode._handle_cluster_message.
  change (obj_get (replicate_message request) "operation") with (VStr "REPLICATE").
  change (obj_get (replicate_message request) "original_operation") with (VDict request).
  cbn [is_str]. rewrite !bool_decide_eq_false_2 by done.
  rewrite bool_decide_eq_true_2 by done.
  destruct (decide (role n = SECONDARY)) as [Hr | Hr]; [| done].
  destruct (apply_locally_as_server (kvstore n) request) as [Hs Hok].
  destruct (ClusterNode._apply_operation_locally _ _) as [[e | []] kv1]; simpl in *.
  - split_and!; [by rewrite Hs | done |]. intros [? | Hst]; [done |].
    by specialize (Hok Hst).
  - split_and!; [by rewrite Hs | done | done].
Qed.

Lemma py_max_int_ge (n t : Z) (v : Value) : py_max_int n v = inr t → (n ≤ t)%Z.
Proof.
  unfold py_max_int, py_gt_int. destruct (py_int v) as [m |]; simpl; [| done].
  case_bool_decide; intros [= <-]; lia.
Qed.

Lemma node_extends_refl (n : ClusterNode) : node_extends n n.
Proof. unfold node_extends. split_and!; (done || lia). Qed.

Lemma node_extends_trans (a b c : ClusterNode) :
  node_extends a b → node_extends b c → node_extends a c.
Proof.
  unfold node_extends. intros (? & ? & ? & ? & ? & ?) (? & ? & ? & ? & ? & ?).
  split_and!; (congruence || lia).
Qed.

Lemma handle_extends (n : ClusterNode) (message : Obj) (now : Z) :
  node_extends n (snd (ClusterNode._handle_cluster_message n message now)).
Proof.
  unfold ClusterNode._handle_cluster_message.
  destruct (is_str _ "HEARTBEAT").
  { simpl. destruct (py_max_int _ _) as [e | t] eqn:Et; simpl.
    - unfold node_extends. simpl. split_and!; (done || lia).
    - apply py_max_int_ge in Et.
      case_decide; simpl; unfold node_extends; simpl; split_and!; done. }
  destruct (is_str _ "VOTE_REQUEST").
  { unfold py_gt_int.
    destruct (py_int (obj_get_default message "term" (VInt 0))) as [m |]; simpl;
      [| apply node_extends_refl].
    case_bool_decide; simpl;
      try match goal with |- context [if ?c then _ else _] => destruct c end; simpl;
      unfold node_extends; simpl; split_and!; (done || lia). }
  destruct (is_str _ "REPLICATE"); [| apply node_extends_refl].
  case_decide; [| apply node_extends_refl].
  destruct (ClusterNode._apply_operation_locally _ _) as [[e | []] kv1]; simpl;
    unfold node_extends; simpl; split_and!; (done || lia).
Qed.

(** Whatever a node is sent, it keeps its identity and its peers, and its
    term does not go down. *)
Lemma process_request_extends (n : ClusterNode) (request : Obj) (now : Z) :
  node_extends n (ClusterNode._process_request n request now).1.2.
Proof.
  destruct (is_cluster_message (obj_get request "operation")) eqn:Hc.
  - unfold ClusterNode._process_request, ClusterNode.process_body. rewrite Hc.
    pose proof (handle_extends n request now) as He.
    by destruct (ClusterNode._handle_cluster_message n request now) as [[e | r] n1].
  - rewrite (cluster_request_served n request now Hc). cbn zeta.
    destruct (_ && bool_decide _); simpl; [apply node_extends_refl |].
    unfold node_extends. simpl. split_and!; (done || lia).
Qed.

(** A heartbeat makes the node a follower of its sender. *)
Lemma process_heartbeat (n : ClusterNode) (t : Z) (h : string) (p : Z) (now : Z) :
  ClusterNode._process_request n (heartbeat_message t h p) now
  = (reply_ok, follower n t h p now, []).
Proof.
  unfold ClusterNode._process_request, ClusterNode.process_body.
  change (is_cluster_message (obj_get (heartbeat_message t h p) "operation")) with true.
  cbv iota. rewrite handle_heartbeat. cbn zeta. unfold follower.
  assert ((if bool_decide (term n < t)%Z then t else term n) = Z.max (term n) t) as ->
    by (case_bool_decide; lia).
  case_decide as Hr; simpl; [done |].
  destruct n as [? ? ? ? ? r ? ? ? ? ?]. simpl in *. destruct r; by try done.
Qed.

Lemma follower_idemp (n : ClusterNode) (t : Z) (h : string) (p : Z) (now : Z) :
  follower (follower n t h p now) t h p now = follower n t h p now.
Proof. unfold follower. simpl. f_equal. lia. Qed.

(** A vote request: the voter's term and vote may change, nothing else;
    the candidate itself is left as it is by its own request. *)
Lemma process_vote_request (n : ClusterNode) (T : Z) (candidate_id : Value) (now : Z) :
  vote_extends T n
    (ClusterNode._process_request n (vote_request_message T candidate_id) now).1.2.
Proof.
  unfold ClusterNode._process_request, ClusterNode.process_body.
  change (is_cluster_message (obj_get (vote_request_message T candidate_id) "operation"))
    with true.
  cbv iota. rewrite handle_vote_request. cbn zeta.
  case_bool_decide; simpl;
    try match goal with |- context [if ?c then _ else _] => destruct c end; simpl;
    unfold vote_extends, node_extends; simpl; split_and!; (done || lia).
Qed.

Lemma process_own_vote_request (n : ClusterNode) (now : Z) :
  (ClusterNode._process_request (candidate n)
     (vote_request_message (term n + 1) (VInt (node_id n))) now).1.2 = candidate n.
Proof.
  unfold ClusterNode._process_request, ClusterNode.process_body.
  change (is_cluster_message
            (obj_get (vote_request_message (term n + 1) (VInt (node_id n))) "operation"))
    with true.
  cbv iota. rewrite handle_vote_request. cbn zeta.
  rewrite bool_decide_eq_false_2 by (simpl; lia). simpl.
  unfold py_eqb. simpl. by rewrite Z.eqb_refl.
Qed.
End more_node.

(** ** Rounds of messages between the nodes *)

Section more_rounds.
Context `{Pickle Record}.

(** Where an address resolves depends on the addresses of the nodes only. *)
Lemma resolve_addresses (nodes : list ClusterNode) (peer : Addr) :
  fst <$> ClusterNode.resolve nodes peer
  = fst <$> list_find (λ a, a = peer) ((λ n, (host n, port n)) <$> nodes).
Proof.
  unfold ClusterNode.resolve. rewrite list_find_fmap.
  by destruct (list_find _ nodes) as [[j n] |].
Qed.

Lemma resolve_insert (nodes : list ClusterNode) (j : nat) (n n' : ClusterNode)
    (peer : Addr) :
  nodes !! j = Some n → node_extends n n' →
  fst <$> ClusterNode.resolve (<[j := n']> nodes) peer
  = fst <$> ClusterNode.resolve nodes peer.
Proof.
  intros Hj (_ & Hh & Hp & _). rewrite !resolve_addresses, list_fmap_insert.
  rewrite list_insert_id; [done |]. rewrite list_lookup_fmap, Hj. simpl. congruence.
Qed.

Lemma resolve_lookup (nodes : list ClusterNode) (peer : Addr) (j : nat) (n : ClusterNode) :
  ClusterNode.resolve nodes peer = Some (j, n) → nodes !! j = Some n.
Proof. unfold ClusterNode.resolve. by intros (? & _)%list_find_Some. Qed.

(** One send: the node the address resolves to serves the message, when
    the address answers; every other node is as it was. *)
Lemma send_to_peer_lookup (nodes : list ClusterNode) (up : Addr → bool) (peer : Addr)
    (message : Obj) (now : Z) (j : nat) :
  snd (ClusterNode._send_to_peer nodes up peer message now) !! j
  = (if bool_decide (up peer = true ∧ fst <$> ClusterNode.resolve nodes peer = Some j)
     then λ n, (ClusterNode._process_request n message now).1.2 else id) <$> nodes !! j.
Proof.
  unfold ClusterNode._send_to_peer. destruct (up peer).
  2: { rewrite bool_decide_eq_false_2 by (by intros [? _]). by rewrite option_fmap_id. }
  destruct (ClusterNode.resolve nodes peer) as [[j0 n0] |] eqn:Er.
  2: { rewrite bool_decide_eq_false_2 by (by intros [_ ?]). by rewrite option_fmap_id. }
  pose proof (resolve_lookup _ _ _ _ Er) as Hj0.
  destruct (ClusterNode._process_request n0 message now) as [[r n'] out] eqn:Ep.
  destruct (decide (j0 = j)) as [-> | Hne].
  - rewrite bool_decide_eq_true_2 by done. cbn [snd].
    rewrite list_lookup_insert_eq by (by eapply lookup_lt_Some).
    rewrite Hj0. simpl. by rewrite Ep.
  - rewrite bool_decide_eq_false_2 by (intros [_ ?]; simpl in *; congruence). cbn [snd].
    rewrite list_lookup_insert_ne by done. by rewrite option_fmap_id.
Qed.

Lemma send_to_peer_resolve (nodes : list ClusterNode) (up : Addr → bool) (peer peer' : Addr)
    (message : Obj) (now : Z) :
  fst <$> ClusterNode.resolve (snd (ClusterNode._send_to_peer nodes up peer message now)) peer'
  = fst <$> ClusterNode.resolve nodes peer'.
Proof.
  unfold ClusterNode._send_to_peer. destruct (up peer); simpl; [| done].
  destruct (ClusterNode.resolve nodes peer) as [[j0 n0] |] eqn:Er; simpl; [| done].
  pose proof (process_request_extends n0 message now) as He.
  destruct (ClusterNode._process_request n0 message now) as [[r n'] out]. simpl in *.
  eapply resolve_insert; [by eapply resolve_lookup | done].
Qed.

Lemma send_to_peer_deliveries (nodes : list ClusterNode) (up : Addr → bool) (peer : Addr)
    (message : Obj) (now : Z) (targets : list Addr) (j : nat) :
  deliveries (snd (ClusterNode._send_to_peer nodes up peer message now)) up targets j
  = deliveries nodes up targets j.
Proof.
  unfold deliveries. f_equal. apply list_filter_iff. intros peer'.
  by rewrite send_to_peer_resolve.
Qed.

(** A round: every node has served the message once for each delivery
    that reached it. *)
Lemma send_all_lookup (up : Addr → bool) (message : Obj) (now : Z) (targets : list Addr) :
  ∀ (nodes : list ClusterNode) (j : nat),
    ClusterNode.send_all nodes up targets message now !! j
    = Nat.iter (deliveries nodes up targets j)
               (λ n, (ClusterNode._process_request n message now).1.2) <$> nodes !! j.
Proof.
  induction targets as [| peer targets IH]; intros nodes j.
  - simpl. by rewrite option_fmap_id.
  - unfold ClusterNode.send_all in *. simpl. rewrite IH.
    rewrite send_to_peer_deliveries, send_to_peer_lookup.
    unfold deliveries. rewrite filter_cons.
    case_bool_decide as Hd.
    + rewrite decide_True by done. simpl. rewrite <- option_fmap_compose.
      apply option_fmap_ext. intros n. unfold compose. by rewrite Nat.iter_succ_r.
    + rewrite decide_False by done. by rewrite option_fmap_id.
Qed.

Lemma iter_heartbeat (k : nat) (nj : ClusterNode) (t : Z) (h : string) (p : Z) (now : Z) :
  Nat.iter k (λ n, (ClusterNode._process_request n (heartbeat_message t h p) now).1.2) nj
  = if decide (k = 0) then nj else follower nj t h p now.
Proof.
  induction k as [| k IH]; [done |]. rewrite Nat.iter_succ, IH, process_heartbeat.
  cbn [fst snd]. destruct (decide (S k = 0)); [done |].
  destruct (decide (k = 0)); [done | apply follower_idemp].
Qed.

(** X10.  A round of heartbeats from node [i]: every node that a peer
    address of [i] reaches (the address answers, and the node is the one
    listening on it) ends as a follower of [i], secondary whatever it was
    and whatever its term, with [i]'s address as its primary, its timer
    reset, and the larger of the two terms; a node reached several times
    ends the same; every other node is as it was. *)
Theorem heartbeat_round (nodes : list ClusterNode) (i : nat) (n : ClusterNode)
    (up : Addr → bool) (now : Z) :
  nodes !! i = Some n →
  ∀ j, ClusterNode._send_heartbeats nodes i up now !! j
       = (if decide (deliveries nodes up (peers n) j = 0) then id
          else λ nj, follower nj (term n) (host n) (port n) now) <$> nodes !! j.
Proof.
  intros Hi j. unfold ClusterNode._send_heartbeats. rewrite Hi, send_all_lookup.
  apply option_fmap_ext. intros nj. rewrite iter_heartbeat.
  by destruct (decide (_ = 0)).
Qed.

Lemma is_write_not_cluster (operation : Value) :
  is_write operation = true → is_cluster_message operation = false.
Proof.
  destruct operation as [| | | s | |]; try done. unfold is_write, is_cluster_message.
  cbn [is_str]. repeat case_bool_decide; subst; done.
Qed.

Lemma process_replicate (n : ClusterNode) (request : Obj) (now : Z) :
  (ClusterNode._process_request n (replicate_message request) now).1.2
  = replica request n.
Proof.
  unfold ClusterNode._process_request, ClusterNode.process_body, replica.
  change (is_cluster_message (obj_get (replicate_message request) "operation")) with true.
  cbv iota. unfold ClusterNode._handle_cluster_message.
  change (obj_get (replicate_message request) "operation") with (VStr "REPLICATE").
  change (obj_get (replicate_message request) "original_operation") with (VDict request).
  cbn [is_str]. rewrite !bool_decide_eq_false_2 by done.
  rewrite bool_decide_eq_true_2 by done.
  destruct (decide (role n = SECONDARY)) as [Hr | Hr]; [| done].
  destruct (apply_locally_as_server (kvstore n) request) as [Hs _].
  destruct (ClusterNode._apply_operation_locally _ _) as [[e | []] kv1]; simpl in *;
    by rewrite Hs.
Qed.

Lemma iter_replicate (k : nat) (nj : ClusterNode) (request : Obj) (now : Z) :
  Nat.iter k (λ n, (ClusterNode._process_request n (replicate_message request) now).1.2) nj
  = Nat.iter k (replica request) nj.
Proof.
  induction k as [| k IH]; [done |]. rewrite !Nat.iter_succ, IH.
  apply process_replicate.
Qed.

Lemma iter_replica_not_secondary (k : nat) (n : ClusterNode) (request : Obj) :
  role n ≠ SECONDARY → Nat.iter k (replica request) n = n.
Proof.
  intros Hr. induction k as [| k IH]; [done |]. rewrite Nat.iter_succ, IH.
  unfold replica. by rewrite decide_False.
Qed.

Lemma fold_send_replicate (up : Addr → bool) (message : Obj) (now : Z)
    (targets : list Addr) : ∀ nodes : list ClusterNode,
  fold_left (λ ns '(peer, message), snd (ClusterNode._send_to_peer ns up peer message now))
            (map (λ peer, (peer, message)) targets) nodes
  = ClusterNode.send_all nodes up targets message now.
Proof.
  induction targets as [| peer targets IH]; intros nodes; [done |]. simpl. apply IH.
Qed.

Lemma deliveries_insert (nodes : list ClusterNode) (i : nat) (n n' : ClusterNode)
    (up : Addr → bool) (targets : list Addr) (j : nat) :
  nodes !! i = Some n → node_extends n n' →
  deliveries (<[i := n']> nodes) up targets j = deliveries nodes up targets j.
Proof.
  intros Hi He. unfold deliveries. f_equal. apply list_filter_iff. intros peer.
  by rewrite (resolve_insert nodes i n n' peer Hi He).
Qed.

(** X11.  A write acknowledged by the primary at position [i]: the
    primary has served it as the single-node server does, and every other
    node has applied it once for each delivery of the [REPLICATE] message
    that reached it, secondaries changing their store as the server would
    and the others ignoring it.  In particular a secondary that held the
    primary's store and is reached once holds the primary's new store. *)
Theorem replication_round (nodes : list ClusterNode) (i : nat) (n : ClusterNode)
    (request : Obj) (up : Addr → bool) (now : Z) :
  nodes !! i = Some n → role n = PRIMARY →
  is_write (obj_get request "operation") = true →
  status_ok (fst (KVStoreServer._process_request (kvstore n) request)) →
  let n' := set_kvstore n (snd (KVStoreServer._process_request (kvstore n) request)) in
  let nodes' := ClusterNode.client_request nodes i request up now in
  nodes' !! i = Some n' ∧
  (∀ j nj, j ≠ i → nodes !! j = Some nj →
     nodes' !! j = Some (Nat.iter (deliveries nodes up (peers n) j) (replica request) nj)) ∧
  (∀ j nj, nodes !! j = Some nj → role nj = SECONDARY → kvstore nj = kvstore n →
     deliveries nodes up (peers n) j = 1 →
     kvstore <$> nodes' !! j = Some (kvstore n')).
Proof.
  intros Hi Hr Hw Hok n' nodes'.
  assert (∀ j, nodes' !! j
               = Nat.iter (deliveries nodes up (peers n) j) (replica request)
                   <$> <[i := n']> nodes !! j) as Hlook.
  { intros j. unfold nodes', ClusterNode.client_request. rewrite Hi.
    rewrite (cluster_request_served n request now (is_write_not_cluster _ Hw)).
    cbn zeta. rewrite Hw, Hr. rewrite bool_decide_eq_false_2 by (by intros ?).
    cbn [andb]. unfold status_ok in Hok. unfold obj_get. rewrite Hok. 
    change (is_str (default VNone (Some (VStr "OK"))) "OK") with true. cbv iota.
    rewrite fold_send_replicate, send_all_lookup.
    rewrite (deliveries_insert nodes i n) by (done || (unfold node_extends; simpl; split_and!; (done || lia))).
    apply option_fmap_ext. intros nj. apply iter_replicate. }
  split_and!.
  - rewrite Hlook, list_lookup_insert_eq by (by eapply lookup_lt_Some). simpl.
    rewrite iter_replica_not_secondary; [done |]. unfold n'. simpl. by rewrite Hr.
  - intros j nj Hne Hj. rewrite Hlook, list_lookup_insert_ne by done. by rewrite Hj.
  - intros j nj Hj Hrj Hkv Hd.
    assert (j ≠ i) as Hne by (intros ->; congruence).
    rewrite Hlook, list_lookup_insert_ne by done. rewrite Hj, Hd. simpl.
    unfold replica. rewrite decide_True by done. simpl. unfold n'. simpl. by rewrite Hkv.
Qed.

(** The number of peer addresses that answer and have a node behind them. *)
Lemma answering_send (nodes : list ClusterNode) (up : Addr → bool) (peer : Addr)
    (message : Obj) (now : Z) (targets : list Addr) :
  filter (λ p, up p = true
               ∧ is_Some (ClusterNode.resolve
                            (snd (ClusterNode._send_to_peer nodes up peer message now)) p))
         targets
  = filter (λ p, up p = true ∧ is_Some (ClusterNode.resolve nodes p)) targets.
Proof.
  apply list_filter_iff. intros p.
  pose proof (send_to_peer_resolve nodes up peer p message now) as Hr.
  by rewrite <- (fmap_is_Some fst (ClusterNode.resolve (snd _) p)), Hr, fmap_is_Some.
Qed.

(** The vote-collecting loop sends as any round does, and counts at most
    one vote for each address that answers. *)
Lemma collect_votes_round (up : Addr → bool) (message : Obj) (now : Z)
    (targets : list Addr) : ∀ (nodes : list ClusterNode) (votes0 : nat),
  let r := fold_left
             (λ '(votes, ns) peer,
                let '(response, ns') := ClusterNode._send_to_peer ns up peer message now in
                (if py_truthy (obj_get response "vote_granted") then S votes else votes, ns'))
             targets (votes0, nodes) in
  snd r = ClusterNode.send_all nodes up targets message now ∧
  votes0 ≤ fst r ≤
    votes0 + length (filter (λ p, up p = true ∧ is_Some (ClusterNode.resolve nodes p))
                            targets).
Proof.
  induction targets as [| peer targets IH]; intros nodes votes0; simpl.
  { split; [done | lia]. }
  destruct (ClusterNode._send_to_peer nodes up peer message now) as [response ns1] eqn:Es.
  match goal with |- context [fold_left _ targets (?v, ns1)] =>
    destruct (IH ns1 v) as [IH1 IH2] end.
  split.
  - by rewrite IH1.
  - pose proof (answering_send nodes up peer message now targets) as Ha.
    rewrite Es in Ha. simpl in Ha. rewrite Ha in IH2. rewrite filter_cons.
    unfold ClusterNode._send_to_peer in Es. destruct (up peer) eqn:Eup.
    + destruct (ClusterNode.resolve nodes peer) as [[j0 n0] |] eqn:Er.
      * rewrite decide_True by (split; [done | by eexists]). simpl.
        destruct (py_truthy _); lia.
      * injection Es as <- <-.
        change (py_truthy (obj_get (reply_error "connection refused") "vote_granted"))
          with false in *. cbv iota in *.
        rewrite decide_False by (intros [_ [? ?]]; done). lia.
    + injection Es as <- <-.
      change (py_truthy (obj_get (reply_error "timed out") "vote_granted"))
        with false in *. cbv iota in *.
      rewrite decide_False by (by intros [? _]). lia.
Qed.

Lemma vote_extends_refl (T : Z) (n : ClusterNode) : vote_extends T n n.
Proof.
  unfold vote_extends. split_and!; try done; try lia; apply node_extends_refl.
Qed.

Lemma iter_vote_request (k : nat) (nj : ClusterNode) (T : Z) (candidate_id : Value)
    (now : Z) :
  vote_extends T nj
    (Nat.iter k (λ n, (ClusterNode._process_request n
                         (vote_request_message T candidate_id) now).1.2) nj).
Proof.
  induction k as [| k IH]; [apply vote_extends_refl |]. rewrite Nat.iter_succ.
  pose proof (process_vote_request
                (Nat.iter k (λ n, (ClusterNode._process_request n
                   (vote_request_message T candidate_id) now).1.2) nj)
                T candidate_id now) as Hs.
  destruct IH as (He1 & ? & ? & ? & ? & ?). destruct Hs as (He2 & ? & ? & ? & ? & ?).
  unfold vote_extends. split_and!; try congruence; try lia; by eapply node_extends_trans.
Qed.

Lemma iter_own_vote_request (k : nat) (n : ClusterNode) (now : Z) :
  Nat.iter k (λ n0, (ClusterNode._process_request n0
                       (vote_request_message (term n + 1) (VInt (node_id n))) now).1.2)
           (candidate n)
  = candidate n.
Proof.
  induction k as [| k IH]; [done |]. rewrite Nat.iter_succ, IH.
  apply process_own_vote_request.
Qed.

(** X12.  An election started by node [i].  The node ends as the
    candidate it made itself into (next term, voted for itself) with the
    role decided by the count: [PRIMARY], with its own address as primary,
    when the votes exceed half of the cluster size (rounded down), else
    [SECONDARY]; never [CANDIDATE].  The count is its own vote plus at most
    one for each peer address that answers.  Of every other node only
    the term (raised at most to the candidate's) and the vote can have
    changed: no role, store, known primary or heartbeat timer does. *)
Theorem election_outcome (nodes : list ClusterNode) (i : nat) (n : ClusterNode)
    (up : Addr → bool) (now : Z) :
  nodes !! i = Some n →
  let nodes' := ClusterNode._start_election nodes i up now in
  ∃ votes : nat,
    1 ≤ votes ≤ 1 + length (filter (λ p, up p = true ∧ is_Some (ClusterNode.resolve nodes p))
                                   (peers n)) ∧
    nodes' !! i =
      Some (if decide ((length (peers n) + 1) `div` 2 < votes)
            then set_primary_node (set_role (candidate n) PRIMARY)
                   (VList [VStr (host n); VInt (port n)])
            else set_role (candidate n) SECONDARY) ∧
    ∀ j nj, j ≠ i → nodes !! j = Some nj →
      ∃ nj', nodes' !! j = Some nj' ∧ vote_extends (term n + 1) nj nj'.
Proof.
  intros Hi nodes'. unfold nodes', ClusterNode._start_election, ClusterNode.collect_votes.
  rewrite Hi. fold (candidate n).
  change (peers (candidate n)) with (peers n).
  change (term (candidate n)) with (term n + 1)%Z.
  change (node_id (candidate n)) with (node_id n).
  pose proof (collect_votes_round up
                (vote_request_message (term n + 1) (VInt (node_id n))) now (peers n)
                (<[i := candidate n]> nodes) 1) as [Hs Hv].
  cbn zeta in Hs, Hv.
  destruct (fold_left _ (peers n) (1, <[i := candidate n]> nodes)) as [votes ns2].
  simpl in Hs, Hv. subst ns2.
  assert (node_extends n (candidate n)) as Hc
    by (unfold node_extends; simpl; split_and!; (done || lia)).
  exists votes. split; [| split].
  - split; [lia |]. etrans; [apply Hv |]. apply Nat.eq_le_incl. do 2 f_equal.
    apply list_filter_iff. intros p.
    by rewrite <- (fmap_is_Some fst (ClusterNode.resolve (<[i:=_]> _) p)),
      (resolve_insert nodes i n (candidate n) p), fmap_is_Some.
  - assert (ClusterNode.send_all (<[i := candidate n]> nodes) up (peers n)
              (vote_request_message (term n + 1) (VInt (node_id n))) now !! i
            = Some (candidate n)) as Hci.
    { rewrite send_all_lookup, list_lookup_insert_eq by (by eapply lookup_lt_Some).
      simpl. by rewrite iter_own_vote_request. }
    case_decide; rewrite list_lookup_alter_eq, Hci; done.
  - intros j nj Hne Hj.
    eexists. split.
    + assert (∀ f (l : list ClusterNode), alter f i l !! j = l !! j) as Ha
        by (intros; by apply list_lookup_alter_ne).
      case_decide; rewrite Ha, send_all_lookup, list_lookup_insert_ne, Hj by done; done.
    + apply iter_vote_request.
Qed.



(** X14.  A node that handles requests one after the other, each to its
    end before the next is taken up, keeps its id, address, peer list and
    timeout, and its term never goes down: after any further requests it
    is at least what it was.  ([_handle_cluster_message] takes no lock:
    handlers that interleave on two connections of a node are not runs of
    this kind.) *)
Theorem term_kept_request_by_request (n : ClusterNode)
    (before after : list (Obj * Z)) :
  let handle_all := fold_left (λ n0 x, (ClusterNode._process_request n0 x.1 x.2).1.2) in
  node_extends n (handle_all before n) ∧
  node_extends (handle_all before n) (handle_all (before ++ after) n).
Proof.
  intros handle_all.
  assert (∀ requests n0, node_extends n0 (handle_all requests n0)) as Hall.
  { induction requests as [| [request now] requests IH]; intros n0; simpl.
    - apply node_extends_refl.
    - eapply node_extends_trans; [apply process_request_extends | apply IH]. }
  split; [apply Hall |]. subst handle_all. cbv beta. rewrite fold_left_app.
  apply Hall.
Qed.
End more_rounds.

Lemma cluster_serves_as_server_witness :
  let n := ClusterNode.main_primary 0 "localhost" 10001 [("localhost", 10002%Z)] 0 in
  @ClusterNode._process_request reference_record n (set_request "a" (VInt 1)) 0
  = (reply_success true,
     set_kvstore n (snd (@KVStore.set reference_record fresh (VStr "a") (VInt 1))),
     [(("localhost", 10002%Z), replicate_message (set_request "a" (VInt 1)))]).
Proof.
  intros n.
  pose proof (@cluster_serves_as_server reference_record n (set_request "a" (VInt 1)) 0
                eq_refl) as Hs.
  cbn zeta in Hs. destruct (ClusterNode._process_request _ _ _) as [[response n'] out].
  destruct Hs as (-> & -> & ->). vm_compute. reflexivity.
Defined.

Lemma replicate_applies_as_server_witness :
  let n := ClusterNode.__init__ 1 "localhost" 10002 [("localhost", 10001%Z)] 0 in
  (@ClusterNode._process_request reference_record n
     (replicate_message (set_request "a" (VInt 1))) 0).1.2
  = @replica reference_record (set_request "a" (VInt 1)) n.
Proof.
  intros n.
  pose proof (@replicate_applies_as_server reference_record n (set_request "a" (VInt 1)) 0)
    as Hr.
  cbn zeta in Hr. destruct (ClusterNode._process_request _ _ _) as [[r n'] out].
  exact (proj1 Hr).
Defined.

Lemma heartbeat_round_witness :
  @ClusterNode._send_heartbeats reference_record primary_and_two 0 (λ _, true) 1000 !! 1
  = Some (follower (ClusterNode.__init__ 1 "localhost" 10002
                      [("localhost", 10001%Z); ("localhost", 10003%Z)] 0)
                   0 "localhost" 10001 1000).
Proof.
  exact (@heartbeat_round reference_record primary_and_two 0 _ (λ _, true) 1000 eq_refl 1).
Defined.

Lemma replication_round_witness :
  kvstore <$> @ClusterNode.client_request reference_record primary_and_two 0
                (set_request "a" (VInt 1)) (λ _, true) 0 !! 1
  = kvstore <$> @ClusterNode.client_request reference_record primary_and_two 0
                  (set_request "a" (VInt 1)) (λ _, true) 0 !! 0.
Proof.
  destruct (@replication_round reference_record primary_and_two 0 _
              (set_request "a" (VInt 1)) (λ _, true) 0 eq_refl eq_refl eq_refl)
    as (H0 & _ & H1).
  - vm_compute. reflexivity.
  - rewrite H0. exact (H1 1 _ eq_refl eq_refl eq_refl eq_refl).
Defined.

Lemma election_outcome_witness :
  ∃ n', @ClusterNode._start_election reference_record three_nodes 0 (λ _, true) 6000 !! 1
        = Some n' ∧ role n' = SECONDARY.
Proof.
  destruct (@election_outcome reference_record three_nodes 0 _ (λ _, true) 6000 eq_refl)
    as (votes & _ & _ & Hothers).
  destruct (Hothers 1 _ (ltac:(discriminate) : 1 ≠ 0) eq_refl)
    as (n' & Hn' & _ & Hrole & _).
  exists n'. exact (conj Hn' Hrole).
Defined.


(** ** The client against the server *)

Section more_client.
Context `{Pickle Record}.

(** The batch a client sends decodes to the pairs it was built from. *)
Lemma items_of_client_items (items : list (Value * Value)) :
  items_of (VList (map (λ '(k, v), VDict [("key", k); ("value", v)]) items)) = inr items.
Proof.
  unfold items_of. simpl. induction items as [| [k v] items IH]; [done |].
  simpl. unfold mbind, Res_bind in *. simpl.
  destruct (mapM _ _) as [e | l]; [done |]. by injection IH as ->.
Qed.

(** X15.  A client connected to the server: each method has the effect
    on the server's store of the store method of the same name and
    returns what that method returned; where the store method raises
    (an unhashable key, an entry too large for the log) [Set], [Delete]
    and [BulkSet] return [False] and [Get] returns [None], so an error
    cannot be told from a refusal or from a missing key.  [BulkSet]
    hands the server exactly the pairs it was given. *)
Theorem client_methods_as_store_calls (kv : KVStore) :
  (∀ key value,
     KVStoreClient.Set_ KVStoreServer._process_request kv key value
     = (match fst (KVStore.set kv key value) with inr b => VBool b | inl _ => VBool false end,
        snd (KVStore.set kv key value))) ∧
  (∀ key,
     KVStoreClient.Get KVStoreServer._process_request kv key
     = (match KVStore.get kv key with inr v => v | inl _ => VNone end, kv)) ∧
  (∀ key,
     KVStoreClient.Delete KVStoreServer._process_request kv key
     = (match fst (KVStore.delete kv key) with inr b => VBool b | inl _ => VBool false end,
        snd (KVStore.delete kv key))) ∧
  (∀ items,
     KVStoreClient.BulkSet KVStoreServer._process_request kv items
     = (match fst (KVStore.bulk_set kv items) with inr b => VBool b | inl _ => VBool false end,
        snd (KVStore.bulk_set kv items))).
Proof.
  split_and!.
  - intros key value. unfold KVStoreClient.Set_, KVStoreServer._process_request,
      KVStoreServer.process_body.
    change (is_str (obj_get _ "operation") "SET") with true. cbv iota.
    change (obj_getitem _ "key") with (@inr exn _ key).
    change (obj_getitem _ "value") with (@inr exn _ value). simpl.
    by destruct (KVStore.set kv key value) as [[e | b] kv'].
  - intros key. unfold KVStoreClient.Get, KVStoreServer._process_request,
      KVStoreServer.process_body, get_reply.
    change (is_str (obj_get _ "operation") "SET") with false.
    change (is_str (obj_get _ "operation") "GET") with true. cbv iota.
    change (obj_getitem _ "key") with (@inr exn _ key). simpl.
    destruct (KVStore.get kv key) as [e | v]; simpl; [done |]. by destruct v.
  - intros key. unfold KVStoreClient.Delete, KVStoreServer._process_request,
      KVStoreServer.process_body.
    change (is_str (obj_get _ "operation") "SET") with false.
    change (is_str (obj_get _ "operation") "GET") with false.
    change (is_str (obj_get _ "operation") "DELETE") with true. cbv iota.
    change (obj_getitem _ "key") with (@inr exn _ key). simpl.
    by destruct (KVStore.delete kv key) as [[e | b] kv'].
  - intros items. unfold KVStoreClient.BulkSet, KVStoreServer._process_request,
      KVStoreServer.process_body.
    change (is_str (obj_get _ "operation") "SET") with false.
    change (is_str (obj_get _ "operation") "GET") with false.
    change (is_str (obj_get _ "operation") "DELETE") with false.
    change (is_str (obj_get _ "operation") "BULK_SET") with true. cbv iota.
    match goal with |- context [obj_getitem ?r "items"] =>
      change (obj_getitem r "items")
        with (@inr exn _ (VList (map (λ '(k, v), VDict [("key", k); ("value", v)]) items)))
    end.
    simpl mbind. rewrite items_of_client_items.
    by destruct (KVStore.bulk_set kv items) as [[e | b] kv'].
Qed.
End more_client.

(** ** A request served twice *)

Section more_retry.
Context `{Pickle Record} `{Pickle Store}.

Lemma setitems_twice (S : Store) (items : list (Value * Value)) :
  setitems (snd (setitems S items)) items = setitems S items.
Proof. rewrite !setitems_writes. simpl. by rewrite do_writes_idempotent. Qed.

Lemma delete_cases (kv : KVStore) (key : Value) :
  KVStore.delete kv key =
  match py_hash key with
  | inl e => (inl e, kv)
  | inr k =>
      if bool_decide (is_Some (store kv !! k)) then
        match WriteAheadLog.frame (RDelete key) with
        | inl e => (inl e, kv)
        | inr bs => (inr true, mkKV (base.delete k (store kv))
                                    (sys_exec (disk kv) (SysWrite WalFile bs)))
        end
      else (inr false, kv)
  end.
Proof.
  unfold KVStore.delete, WriteAheadLog.log_operation, dict_contains, dict_pop.
  destruct (py_hash key) as [e | k]; simpl; [done |].
  destruct (bool_decide _); [| done].
  by destruct (WriteAheadLog.frame (RDelete key)).
Qed.

(** A store call made again right after itself leaves the mapping as the
    first call left it, and returns the same unless it is a [delete]. *)
Lemma call_twice (kv : KVStore) (c : Call) :
  let once := KVStore.call kv c in
  let twice := KVStore.call (snd once) c in
  store (snd twice) = store (snd once) ∧
  (match c with CDelete _ => True | _ => fst twice = fst once end).
Proof.
  destruct c as [key value | key | key | items |]; cbn zeta; simpl.
  - unfold KVStore.set, WriteAheadLog.log_operation, dict_setitem.
    destruct (WriteAheadLog.frame (RSet key value)) as [e | bs]; simpl; [done |].
    destruct (py_hash key) as [e | k]; simpl; [done |].
    by rewrite insert_insert_eq.
  - done.
  - rewrite !delete_cases.
    destruct (py_hash key) as [e | k] eqn:Ek; [done |].
    destruct (bool_decide (is_Some (store kv !! k))) eqn:Hin.
    + destruct (WriteAheadLog.frame (RDelete key)) as [e | bs]; simpl.
      * by rewrite Hin.
      * rewrite bool_decide_eq_false_2; [done |].
        rewrite lookup_delete_eq. by intros [? ?].
    + simpl. by rewrite Hin.
  - unfold KVStore.bulk_set, WriteAheadLog.log_operation.
    destruct (WriteAheadLog.frame (RBulkSet items)) as [e | bs]; simpl; [done |].
    pose proof (setitems_twice (store kv) items) as Ht.
    destruct (setitems (store kv) items) as [[e | []] S1] eqn:Es; simpl in *;
      by rewrite Ht.
  - done.
Qed.

Lemma process_request_call (kv : KVStore) (request : Obj) :
  KVStoreServer._process_request kv request =
  match request_call request with
  | None => (reply_error "Unknown operation", kv)
  | Some (inl e) => (reply_error (str_exn e), kv)
  | Some (inr c) =>
      (match call_reply c (fst (KVStore.call kv c)) with
       | inr response => response
       | inl e => reply_error (str_exn e)
       end, snd (KVStore.call kv c))
  end.
Proof.
  unfold KVStoreServer._process_request. rewrite server_body_call.
  destruct (request_call request) as [[e | c] |]; [done | | done].
  by destruct (call_reply c _).
Qed.

(** The requests that ask for a store call: which call for which
    operation. *)
Lemma request_call_operation (request : Obj) (c : Call) :
  request_call request = Some (inr c) →
  match c with
  | CDelete _ => is_str (obj_get request "operation") "DELETE" = true
  | CCheckpoint => False
  | _ => True
  end.
Proof.
  unfold request_call.
  destruct (is_str _ "SET").
  { destruct (obj_getitem request "key"); simpl; [done |].
    destruct (obj_getitem request "value"); simpl; [done |]. by intros [= <-]. }
  destruct (is_str _ "GET").
  { destruct (obj_getitem request "key"); simpl; [done |]. by intros [= <-]. }
  destruct (is_str _ "DELETE").
  { destruct (obj_getitem request "key"); simpl; [done |]. by intros [= <-]. }
  destruct (is_str _ "BULK_SET"); [| done].
  destruct (obj_getitem request "items"); simpl; [done |].
  destruct (items_of _); simpl; [done |]. by intros [= <-].
Qed.

(** X22.  A request served again right after itself (a client that
    retries): the store's mapping is as the first serving left it,
    whatever the request (a write, a read, an unknown operation, one
    that raised half-way), and the second reply is the first reply
    again unless the request is a [DELETE]; the checkpoint file is
    untouched and the log has only grown. *)
Theorem request_served_twice (kv : KVStore) (request : Obj) :
  let once := KVStoreServer._process_request kv request in
  let twice := KVStoreServer._process_request (snd once) request in
  store (snd twice) = store (snd once) ∧
  (is_str (obj_get request "operation") "DELETE" = false → fst twice = fst once) ∧
  data_file (disk (snd twice)) = data_file (disk kv) ∧
  wal_file (disk kv) `prefix_of` wal_file (disk (snd twice)).
Proof.
  cbn zeta. rewrite (process_request_call kv request).
  destruct (request_call request) as [[e | c] |] eqn:Hc; simpl;
    rewrite process_request_call, Hc; simpl; [done | | done].
  pose proof (call_twice kv c) as [Hs Hr]. cbn zeta in Hs, Hr.
  pose proof (request_call_operation request c Hc) as Hop.
  assert (c ≠ CCheckpoint) as Hck by (by intros ->).
  destruct (call_appends kv c Hck) as [Hd1 Hw1].
  destruct (call_appends (snd (KVStore.call kv c)) c Hck) as [Hd2 Hw2].
  split_and!; [done | | congruence | by etrans].
  intros Hdel.
  assert (fst (KVStore.call (snd (KVStore.call kv c)) c) = fst (KVStore.call kv c))
    as -> by (destruct c; (done || congruence)).
  done.
Qed.
End more_retry.

Lemma request_served_twice_witness :
  let batch : Obj :=
    [("operation", VStr "BULK_SET");
     ("items", VList [VDict [("key", VStr "a"); ("value", VInt 1)];
                      VDict [("key", VList [VInt 1]); ("value", VInt 2)]])] in
  fst (@KVStoreServer._process_request reference_record
         (snd (@KVStoreServer._process_request reference_record fresh batch)) batch)
  = fst (@KVStoreServer._process_request reference_record fresh batch).
Proof.
  intros batch.
  exact (proj1 (proj2 (@request_served_twice reference_record reference_store fresh batch))
           eq_refl).
Defined.

(** ** Messages on the wire *)

Lemma recv_length (sock : Socket) (bufsize : nat) :
  length (fst (recv sock bufsize)) + length (concat (snd (recv sock bufsize)))
  = length (concat sock).
Proof.
  destruct sock as [| piece rest]; simpl; [done |]. case_decide; simpl.
  - by rewrite length_app.
  - rewrite !length_app, length_take, length_drop. lia.
Qed.

Lemma recv_nonempty (sock : Socket) (bufsize : nat) :
  Forall (λ piece, piece ≠ []) sock →
  Forall (λ piece, piece ≠ []) (snd (recv sock bufsize)).
Proof.
  intros Hs. destruct sock as [| piece rest]; simpl; [done |].
  inversion Hs as [| ? ? Hp Hr]; subst. case_decide as Hl; simpl; [done |].
  constructor; [| done]. intros Hd. apply (f_equal length) in Hd.
  rewrite length_drop in Hd. simpl in Hd. lia.
Qed.

(** What the loop has read was on the socket. *)
Lemma read_message_length (fuel : nat) : ∀ (sock : Socket) (n : nat) (data : list byte),
  length (fst (read_message fuel sock n data)) ≤ length data + length (concat sock).
Proof.
  induction fuel as [| fuel IH]; intros sock n data; simpl; [lia |].
  case_decide; [| simpl; lia].
  pose proof (recv_length sock ((n - length data) `min` 4096)) as Hr.
  destruct (recv sock _) as [chunk sock'] eqn:Er. simpl in Hr.
  destruct chunk as [| b chunk]; [simpl; lia |].
  etrans; [apply IH |]. rewrite length_app. lia.
Qed.

(** The pieces of a message are read up to its last byte, and no further. *)
Lemma read_message_whole (k : nat) : ∀ (pieces rest : Socket) (n fuel : nat) (data : list byte),
  length (concat pieces) = k → Forall (λ piece, piece ≠ []) pieces →
  length data + k = n → k ≤ fuel →
  read_message fuel (pieces ++ rest) n data = (data ++ concat pieces, rest).
Proof.
  induction k as [k IH] using lt_wf_ind. intros pieces rest n fuel data Hk Hne Hn Hf.
  destruct pieces as [| piece pieces].
  { simpl in *. rewrite (right_id_L [] (++)).
    destruct fuel; simpl; [done |]. by rewrite decide_False by lia. }
  pose proof (Forall_inv Hne) as Hp. pose proof (Forall_inv_tail Hne) as Hps.
  assert (0 < length piece) by (destruct piece; [done | simpl; lia]).
  simpl in Hk. rewrite length_app in Hk.
  destruct fuel as [| fuel]; [lia |]. simpl.
  rewrite decide_True by lia.
  case_decide as Hl.
  - destruct piece as [| b piece]; [done |].
    rewrite (IH (length (concat pieces)))
      by (try done; rewrite ?length_app; simpl in *; lia).
    by rewrite <- (assoc_L (++)).
  - set (m := (n - length data) `min` 4096) in *.
    assert (0 < m < length piece) as Hm by (unfold m; lia).
    destruct (take m piece) as [| b chunk] eqn:Et.
    { apply (f_equal length) in Et. rewrite length_take in Et. simpl in Et. lia. }
    rewrite <- Et.
    change (drop m piece :: pieces ++ rest) with ((drop m piece :: pieces) ++ rest).
    assert (drop m piece ≠ []) as Hd.
    { intros Hd. apply (f_equal length) in Hd. rewrite length_drop in Hd.
      simpl in Hd. lia. }
    rewrite (IH (length (concat (drop m piece :: pieces))))
      by (try done; try (by constructor);
          simpl; rewrite ?length_app, ?length_take, ?length_drop; lia).
    simpl. rewrite <- !(assoc_L (++)). by rewrite (assoc_L (++) (take m piece)), take_drop.
Qed.

(** The client's loop reads what the server's loop reads, and raises
    where that one stops short. *)
Lemma read_response_message (fuel : nat) : ∀ (sock : Socket) (n : nat) (data : list byte),
  n - length data ≤ fuel →
  read_response fuel sock n data
  = (if decide (length (fst (read_message fuel sock n data)) < n)
     then inl (ConnectionError "Connection closed by server")
     else inr (fst (read_message fuel sock n data)),
     snd (read_message fuel sock n data)).
Proof.
  induction fuel as [| fuel IH]; intros sock n data Hf; simpl.
  { by rewrite decide_False by lia. }
  case_decide as Hlt; [| simpl; by rewrite decide_False by lia].
  destruct (recv sock _) as [chunk sock'].
  destruct chunk as [| b chunk]; [simpl; by rewrite decide_True by lia |].
  apply IH. rewrite length_app. simpl. lia.
Qed.

Section wire.
Context `{Json}.

Lemma sentinv (v : Value) (bs : list byte) :
  message_bytes v = inr bs →
  ∃ pre, bs = pre ++ json_dumps v ∧ length pre = 4 ∧
         N.to_nat (from_bytes pre) = length (json_dumps v).
Proof.
  unfold message_bytes.
  destruct (to_bytes4 _) as [e | pre] eqn:E; [done |]. intros [= <-].
  apply from_bytes_to_bytes4 in E as [E1 E2].
  exists pre. rewrite E1. split_and!; [done | done | lia].
Qed.

(** The first read of a message that arrives whole returns its length
    prefix, and leaves the pieces of its payload. *)
Lemma recv_prefix (pre data : list byte) (pieces rest : Socket) :
  arrives (pre ++ data) pieces → length pre = 4 →
  ∃ pieces', recv (pieces ++ rest) 4 = (pre, pieces' ++ rest) ∧
             concat pieces' = data ∧ Forall (λ piece, piece ≠ []) pieces'.
Proof.
  intros (Hc & Hne & Hh) Hpre.
  destruct pieces as [| piece pieces]; [simpl in Hh; lia |]. simpl in Hh, Hc.
  inversion Hne as [| ? ? Hp Hps]; subst. simpl. case_decide as Hl.
  - assert (length piece = length pre) as Hlen by lia.
    apply app_inj_1 in Hc as [-> <-]; [| done]. by exists pieces.
  - exists (drop 4 piece :: pieces). split_and!.
    + do 2 f_equal. apply (f_equal (take 4)) in Hc.
      rewrite take_app_le in Hc by lia. rewrite Hc.
      by rewrite take_app_length' by done.
    + simpl. apply (f_equal (drop 4)) in Hc.
      rewrite drop_app_le in Hc by lia. rewrite Hc.
      by rewrite drop_app_length' by done.
    + constructor; [| done]. intros Hd. apply (f_equal length) in Hd.
      rewrite length_drop in Hd. simpl in Hd. lia.
Qed.

(** A connection that is cut short gives no whole message. *)
Lemma cut_short_read (sock : Socket) :
  cut_short sock →
  fst (recv sock 4) ≠ [] ∧
  length (fst (read_message (N.to_nat (from_bytes (fst (recv sock 4))))
                 (snd (recv sock 4)) (N.to_nat (from_bytes (fst (recv sock 4)))) []))
  < N.to_nat (from_bytes (fst (recv sock 4))).
Proof.
  intros [Hne Hlt]. split.
  - intros He. rewrite He in Hlt. change (N.to_nat (from_bytes [])) with 0 in Hlt. lia.
  - eapply Nat.le_lt_trans; [apply read_message_length |]. simpl.
    pose proof (recv_length sock 4). lia.
Qed.
End wire.

Lemma reference_json_laws : @JsonLaws reference_json.
Proof.
  constructor. intros v. apply (@loads_dumps Value _ (reference_pickle_laws Value)).
Qed.

Section wire_server.
Context `{Json} `{!JsonLaws} `{Pickle Record}.

(** The handler's loop on whole messages followed by a close or by a
    message cut short: the requests are served in order, the replies sent
    in order. *)
Lemma handle_loop_serves (requests : list Obj) (segments : list Socket) (tail : Socket) :
  Forall2 (λ request pieces,
             ∃ bs, message_bytes (VDict request) = inr bs ∧ arrives bs pieces)
          requests segments →
  tail = [] ∨ cut_short tail →
  ∀ (kv : KVStore) (sent : list byte) (fuel : nat) (frames : list (list byte)),
    length (concat (concat segments ++ tail)) < fuel →
    mapM (λ response, message_bytes (VDict response))
         (fst (KVStoreServer.serve kv requests)) = inr frames →
    handle_loop KVStoreServer._process_request fuel kv (concat segments ++ tail) sent
    = (snd (KVStoreServer.serve kv requests), sent ++ concat frames).
Proof.
  intros Hall Htail.
  induction Hall as [| request pieces requests segments (bs & Hbs & Harr) Hrest IH];
    intros kv sent fuel frames Hf Hm.
  - simpl in *. injection Hm as <-. simpl. rewrite (right_id_L [] (++)).
    destruct fuel as [| fuel]; [lia |]. simpl.
    destruct Htail as [-> | Hcut]; [done |].
    destruct (cut_short_read tail Hcut) as [Hne Hlt].
    destruct (recv tail 4) as [length_bytes sock]. simpl in Hne, Hlt.
    destruct length_bytes as [| b0 length_bytes]; [done |].
    destruct (read_message _ _ _ _) as [message_data sock']. simpl in Hlt.
    rewrite decide_True by lia. done.
  - destruct fuel as [| fuel]; [lia |].
    apply sentinv in Hbs as (pre & -> & Hpre & Hlen).
    simpl concat. rewrite <- (assoc_L (++)).
    destruct (recv_prefix pre _ pieces (concat segments ++ tail) Harr Hpre)
      as (pieces' & Hrecv & Hdata & Hne).
    assert (length (concat pieces ++ concat (concat segments ++ tail)) < S fuel) as Hf'.
    { simpl in Hf. by rewrite <- (assoc_L (++)), concat_app in Hf. }
    destruct Harr as (Hc & _ & _). rewrite length_app, Hc, length_app in Hf'.
    simpl handle_loop. rewrite Hrecv.
    destruct pre as [| b0 pre']; [done |].
    rewrite Hlen.
    rewrite (read_message_whole (length (concat pieces')))
      by (try done; rewrite ?Hdata; simpl; lia).
    simpl "++". rewrite Hdata. rewrite decide_False by (intros Hn; by apply Hn).
    rewrite json_loads_dumps. simpl process_decoded.
    simpl in Hm.
    destruct (KVStoreServer._process_request kv request) as [response kv1] eqn:Ep.
    destruct (KVStoreServer.serve kv1 requests) as [responses kv2] eqn:Es.
    simpl in Hm.
    destruct (message_bytes (VDict response)) as [e | frame]; [done |]. simpl in Hm.
    destruct (mapM _ responses) as [e | frames'] eqn:Em; [done |]. simpl in Hm.
    injection Hm as <-.
    rewrite (IH kv1 (sent ++ frame) fuel frames').
    + simpl. rewrite Ep, Es. simpl. by rewrite <- (assoc_L (++)).
    + simpl in Hf'. lia.
    + by rewrite Es.
Qed.

(** X16.  A connection served by [_handle_client]: when each request
    arrives whole (its bytes in any pieces, the first holding the 4-byte
    length at least) and the connection then closes, or ends inside a
    further message, the requests are decoded and served in order, the
    replies are sent back in order, length-prefixed, and nothing is
    served or sent for the message that was cut short. *)
Theorem handle_client_serves (kv : KVStore) (requests : list Obj)
    (segments : list Socket) (tail : Socket) (frames : list (list byte)) :
  Forall2 (λ request pieces,
             ∃ bs, message_bytes (VDict request) = inr bs ∧ arrives bs pieces)
          requests segments →
  tail = [] ∨ cut_short tail →
  mapM (λ response, message_bytes (VDict response))
       (fst (KVStoreServer.serve kv requests)) = inr frames →
  _handle_client KVStoreServer._process_request kv (concat segments ++ tail)
  = (snd (KVStoreServer.serve kv requests), concat frames).
Proof.
  intros Hall Htail Hm. unfold _handle_client.
  rewrite (handle_loop_serves requests segments tail Hall Htail kv [] _ frames);
    [done | lia | done].
Qed.
End wire_server.

Section wire_client.
Context `{Json} `{!JsonLaws}.

(** X17.  [_send_request] on a connection that delivers: it sends the
    length-prefixed request in one piece, and when the reply arrives
    whole (in any pieces, the first holding the 4-byte length at least)
    it returns the decoded reply and leaves on the socket what came
    after it. *)
Theorem send_request_receives (request : Obj) (response : Value)
    (request_bytes response_bytes : list byte) (pieces rest : Socket) :
  message_bytes (VDict request) = inr request_bytes →
  message_bytes response = inr response_bytes →
  arrives response_bytes pieces →
  _send_request request (pieces ++ rest) = (request_bytes, inr response, rest).
Proof.
  intros Hreq Hresp Harr. unfold _send_request. rewrite Hreq.
  apply sentinv in Hresp as (pre & -> & Hpre & Hlen).
  destruct (recv_prefix pre _ pieces rest Harr Hpre) as (pieces' & -> & Hdata & Hne).
  destruct pre as [| b0 pre']; [done |].
  rewrite Hlen, read_response_message by (simpl; lia).
  rewrite (read_message_whole (length (concat pieces')))
    by (try done; rewrite ?Hdata; simpl; lia).
  simpl. rewrite Hdata. rewrite decide_False by lia. by rewrite json_loads_dumps.
Qed.
End wire_client.

(** X18.  [_send_request] on a connection that fails: when the server
    closes without a reply, or the connection ends inside the reply,
    the request has been sent and [ConnectionError] is raised; no
    partial reply is decoded. *)
Theorem send_request_connection_closed `{Json} (request : Obj)
    (request_bytes : list byte) (sock : Socket) :
  message_bytes (VDict request) = inr request_bytes →
  sock = [] ∨ cut_short sock →
  ∃ sock', _send_request request sock
           = (request_bytes, inl (ConnectionError "Connection closed by server"), sock').
Proof.
  intros Hreq Hsock. unfold _send_request. rewrite Hreq.
  destruct Hsock as [-> | Hcut]; [by eexists |].
  destruct (cut_short_read sock Hcut) as [Hne Hlt].
  destruct (recv sock 4) as [length_bytes sock1]. simpl in Hne, Hlt.
  destruct length_bytes as [| b0 length_bytes]; [done |].
  rewrite read_response_message by lia.
  rewrite decide_True by done. by eexists.
Qed.

Lemma handle_client_serves_witness :
  let requests := [set_request "a" (VInt 1); get_request "a"] in
  let segments := map (λ request, in_two_pieces (reference_message (VDict request)))
                      requests in
  @_handle_client reference_json KVStore (@KVStoreServer._process_request reference_record)
    fresh (concat segments ++ [["001"%byte]])
  = (snd (@KVStoreServer.serve reference_record fresh requests),
     reference_message (VDict (reply_success true))
     ++ reference_message (VDict (reply_value (VInt 1)))).
Proof.
  intros requests segments.
  rewrite (@handle_client_serves reference_json reference_json_laws reference_record fresh
             requests segments [["001"%byte]]
             [reference_message (VDict (reply_success true));
              reference_message (VDict (reply_value (VInt 1)))]).
  - f_equal; try (cbn [concat]; by rewrite (right_id_L [] (++))).
  - repeat constructor.
    + exists (reference_message (VDict (set_request "a" (VInt 1)))).
      split; [vm_compute; reflexivity |].
      split_and!; [vm_compute; reflexivity | repeat constructor; discriminate |
                   vm_compute; lia].
    + exists (reference_message (VDict (get_request "a"))).
      split; [vm_compute; reflexivity |].
      split_and!; [vm_compute; reflexivity | repeat constructor; discriminate |
                   vm_compute; lia].
  - right. split; [repeat constructor; discriminate | vm_compute; lia].
  - vm_compute. reflexivity.
Defined.

Lemma send_request_receives_witness :
  @_send_request reference_json (get_request "a")
    (in_two_pieces (reference_message (VDict (reply_value (VInt 1)))) ++ [])
  = (reference_message (VDict (get_request "a")), inr (VDict (reply_value (VInt 1))), []).
Proof.
  apply (@send_request_receives reference_json reference_json_laws (get_request "a")
           (VDict (reply_value (VInt 1)))
           (reference_message (VDict (get_request "a")))
           (reference_message (VDict (reply_value (VInt 1))))).
  - vm_compute. reflexivity.
  - vm_compute. reflexivity.
  - split_and!; [vm_compute; reflexivity | repeat constructor; discriminate |
                 vm_compute; lia].
Defined.

Lemma send_request_connection_closed_witness :
  ∃ sock', @_send_request reference_json (get_request "a")
             [take 9 (reference_message (VDict reply_not_found))]
           = (reference_message (VDict (get_request "a")),
              inl (ConnectionError "Connection closed by server"), sock').
Proof.
  apply (@send_request_connection_closed reference_json (get_request "a")).
  - vm_compute. reflexivity.
  - right. split; [repeat constructor; discriminate | vm_compute; lia].
Defined.

Lemma reference_json_object_laws : @JsonObjectLaws reference_json.
Proof.
  constructor. intros o n.
  apply (@loads_truncated Value _ (reference_pickle_laws Value)).
Qed.

(** X23.  The reply to a peer message is read by a single [recv]: when
    the whole reply arrives in one piece, [_send_to_peer] returns it
    decoded; when it arrives cut in two anywhere inside its JSON text,
    only the first piece is read, decoding raises, and [_send_to_peer]
    returns the [ERROR] dictionary although the peer has answered (a
    vote granted that way is not counted).  [KVStoreClient._send_request]
    reads on until the announced length is there. *)
Theorem send_to_peer_reply_in_one_piece `{Json} `{!JsonLaws} `{!JsonObjectLaws}
    (message response : Obj) (sent bs : list byte) (rest : Socket) :
  message_bytes (VDict message) = inr sent →
  message_bytes (VDict response) = inr bs →
  send_to_peer_socket message (bs :: rest) = (sent, Reply (VDict response)) ∧
  ∀ n, 4 < n < length bs →
       send_to_peer_socket message (take n bs :: drop n bs :: rest)
       = (sent, ErrorDict).
Proof.
  intros Hm Hbs. unfold send_to_peer_socket. rewrite Hm.
  apply sentinv in Hbs as (pre & -> & Hpre & Hlen).
  destruct pre as [| b0 pre'] eqn:Epre; [done |]. rewrite <- Epre in *.
  assert (take 4 (pre ++ json_dumps (VDict response)) = pre) as Htake
    by (by rewrite take_app_length').
  assert (drop 4 (pre ++ json_dumps (VDict response)) = json_dumps (VDict response))
    as Hdrop by (by rewrite drop_app_length').
  split.
  - unfold recv at 1. case_decide as Hl.
    + rewrite length_app in Hl.
      assert (json_dumps (VDict response) = []) as Hnil
        by (destruct (json_dumps (VDict response)); [done | simpl in Hl; lia]).
      rewrite Hnil, (right_id_L [] (++)) in *. rewrite Epre. rewrite <- Epre.
      destruct rest as [| piece rest']; simpl.
      * pose proof (json_loads_dumps (VDict response)) as Hj. rewrite Hnil in Hj.
        by rewrite Hj.
      * simpl in Hlen. rewrite Hlen.
        pose proof (json_loads_truncated response 0) as Ht. rewrite Hnil in Ht.
        case_decide as Hp.
        -- destruct piece; [| simpl in Hp; lia].
           pose proof (json_loads_dumps (VDict response)) as Hj. rewrite Hnil in Hj.
           by rewrite Hj.
        -- rewrite take_0.
           pose proof (json_loads_dumps (VDict response)) as Hj. rewrite Hnil in Hj.
           by rewrite Hj.
    + rewrite Htake, Hdrop. rewrite Epre. rewrite <- Epre. rewrite Hlen. simpl.
      rewrite decide_True by done. by rewrite json_loads_dumps.
  - intros n Hn. rewrite length_app in Hn.
    unfold recv at 1. rewrite decide_False by (rewrite length_take, length_app; lia).
    rewrite take_take, Nat.min_l by lia. rewrite Htake. rewrite Epre. rewrite <- Epre.
    rewrite Hlen.
    assert (drop 4 (take n (pre ++ json_dumps (VDict response)))
            = take (n - 4) (json_dumps (VDict response))) as ->.
    { rewrite take_app_ge by lia. rewrite Hpre. by rewrite drop_app_length' by done. }
    simpl. rewrite decide_True by (rewrite length_take; lia).
    by rewrite json_loads_truncated by lia.
Qed.

Lemma send_to_peer_reply_in_one_piece_witness :
  let request := vote_request_message 1 (VInt 0) in
  let reply := reference_message (VDict (reply_vote true 1)) in
  @send_to_peer_socket reference_json request [take 100 reply; drop 100 reply]
  = (reference_message (VDict request), ErrorDict).
Proof.
  intros request reply.
  refine (proj2 (@send_to_peer_reply_in_one_piece reference_json reference_json_laws
                   reference_json_object_laws request (reply_vote true 1)
                   (reference_message (VDict request)) reply [] _ _) 100 _).
  - vm_compute. reflexivity.
  - vm_compute. reflexivity.
  - vm_compute. lia.
Defined.

(** ** The full-text index *)

Set Warnings "-clear-no-such-hyp".

Section more_index.
Context `{Tokenizer}.

Lemma postings_remove (index : Index) (key k : PyKey) (word : string) :
  k ∈ postings (InvertedIndex.remove_document index key) word
  ↔ k ≠ key ∧ k ∈ postings index word.
Proof.
  unfold postings, InvertedIndex.remove_document. rewrite lookup_omap.
  destruct (index !! word) as [keys |]; simpl; [| set_solver].
  case_decide; [case_decide |]; simpl; set_solver.
Qed.

Lemma remove_no_empty (index : Index) (key : PyKey) :
  no_empty_words index → no_empty_words (InvertedIndex.remove_document index key).
Proof.
  intros Hne word. unfold InvertedIndex.remove_document. rewrite lookup_omap.
  specialize (Hne word). destruct (index !! word) as [keys |]; simpl; [| done].
  case_decide; [case_decide |]; simpl; congruence.
Qed.

Lemma postings_add (key k : PyKey) (word : string) (tokens : list string) :
  ∀ index : Index,
    k ∈ postings (fold_left (λ index token,
                               <[token := postings index token ∪ {[key]}]> index)
                            tokens index) word
    ↔ k ∈ postings index word ∨ (k = key ∧ word ∈ tokens).
Proof.
  induction tokens as [| token tokens IH]; intros index; simpl.
  { rewrite elem_of_nil. tauto. }
  rewrite IH, elem_of_cons. unfold postings at 1.
  destruct (decide (token = word)) as [-> | Hne].
  - rewrite lookup_insert_eq. simpl. set_solver.
  - rewrite lookup_insert_ne by done. fold (postings index word). set_solver.
Qed.

Lemma add_no_empty (key : PyKey) (tokens : list string) : ∀ index : Index,
  no_empty_words index →
  no_empty_words (fold_left (λ index token,
                               <[token := postings index token ∪ {[key]}]> index)
                            tokens index).
Proof.
  induction tokens as [| token tokens IH]; intros index Hne; simpl; [done |].
  apply IH. intros word. destruct (decide (token = word)) as [-> | Hw].
  - rewrite lookup_insert_eq. intros [= He]. set_solver.
  - rewrite lookup_insert_ne by done. apply Hne.
Qed.

Lemma postings_index_document (index : Index) (key k : PyKey) (value : Value)
    (word : string) :
  k ∈ postings (InvertedIndex.index_document index key value) word
  ↔ (k = key ∧ word ∈ tokenize value) ∨ (k ≠ key ∧ k ∈ postings index word).
Proof.
  unfold InvertedIndex.index_document. rewrite postings_add, postings_remove.
  destruct (decide (k = key)); tauto.
Qed.

(** X19.  [index_document] and [remove_document].  After
    [index_document(key, value)] a word leads to [key] exactly when it is a
    token of [value] (what an earlier value of the key put in the index
    is gone), and to any other key exactly when it did before; after
    [remove_document(key)] no word leads to [key] and the other keys are
    as before.  Neither leaves a word with an empty set. *)
Theorem index_document_postings (index : Index) (key k : PyKey) (value : Value)
    (word : string) :
  (k ∈ postings (InvertedIndex.index_document index key value) word
   ↔ (k = key ∧ word ∈ tokenize value) ∨ (k ≠ key ∧ k ∈ postings index word)) ∧
  (k ∈ postings (InvertedIndex.remove_document index key) word
   ↔ k ≠ key ∧ k ∈ postings index word) ∧
  (no_empty_words index →
   no_empty_words (InvertedIndex.remove_document index key) ∧
   no_empty_words (InvertedIndex.index_document index key value)).
Proof.
  split_and!; [apply postings_index_document | apply postings_remove |].
  intros Hne. split; [by apply remove_no_empty |].
  by apply add_no_empty, remove_no_empty.
Qed.

Lemma elem_of_fold_intersection (k : PyKey) (others : list (gset PyKey)) :
  ∀ first : gset PyKey,
    k ∈ fold_left (λ results s, results ∩ s) others first
    ↔ k ∈ first ∧ ∀ s, s ∈ others → k ∈ s.
Proof.
  induction others as [| s others IH]; intros first; simpl.
  { split; [intros ?; split; [done | by intros ? ?%elem_of_nil] | by intros [? _]]. }
  rewrite IH, elem_of_intersection. split.
  - intros [[? ?] Ho]. split; [done |]. intros s' [-> | ?]%elem_of_cons; auto.
  - intros [? Ho]. split_and!; [done | apply Ho; by left |].
    intros s' ?. apply Ho. by right.
Qed.

Lemma elem_of_fold_union (index : Index) (k : PyKey) (tokens : list string) :
  ∀ results : gset PyKey,
    k ∈ fold_left (λ results token, results ∪ postings index token) tokens results
    ↔ k ∈ results ∨ ∃ word, word ∈ tokens ∧ k ∈ postings index word.
Proof.
  induction tokens as [| token tokens IH]; intros results; simpl.
  { split; [by left | intros [? | (? & ?%elem_of_nil & _)]; done]. }
  rewrite IH, elem_of_union. split.
  - intros [[? | ?] | (word & ? & ?)]; [by left | right | right].
    + exists token. split; [by left | done].
    + exists word. split; [by right | done].
  - intros [? | (word & [-> | ?]%elem_of_cons & ?)].
    + left. by left.
    + left. by right.
    + right. by exists word.
Qed.

Lemma elem_of_search (index : Index) (query : Value) (k : PyKey) :
  k ∈ InvertedIndex.search index query
  ↔ tokenize query ≠ [] ∧ ∀ word, word ∈ tokenize query → k ∈ postings index word.
Proof.
  unfold InvertedIndex.search. destruct (tokenize query) as [| token tokens].
  { split; [by intros ?%elem_of_empty | by intros [? _]]. }
  simpl. rewrite elem_of_fold_intersection. split.
  - intros [? Ho]. split; [done |]. intros word [-> | Hw]%elem_of_cons; [done |].
    apply Ho. by apply list_elem_of_fmap_2.
  - intros [_ Ha]. split; [apply Ha; by left |].
    intros s (word & -> & Hw)%list_elem_of_fmap. apply Ha. by right.
Qed.

Lemma elem_of_search_or (index : Index) (query : Value) (k : PyKey) :
  k ∈ InvertedIndex.search_or index query
  ↔ ∃ word, word ∈ tokenize query ∧ k ∈ postings index word.
Proof.
  unfold InvertedIndex.search_or. destruct (tokenize query) as [| token tokens] eqn:Et.
  { split; [by intros ?%elem_of_empty | by intros (? & ?%elem_of_nil & _)]. }
  rewrite elem_of_fold_union. split; [intros [?%elem_of_empty | ?]; done | by right].
Qed.

(** X20.  [search] returns the keys that every word of the query leads
    to, [search_or] the keys that some word of the query leads to; a
    query without words finds nothing in both, and a word that is not
    in the index makes [search] find nothing. *)
Theorem search_all_and_any (index : Index) (query : Value) (k : PyKey) :
  (k ∈ InvertedIndex.search index query
   ↔ tokenize query ≠ [] ∧ ∀ word, word ∈ tokenize query → k ∈ postings index word) ∧
  (k ∈ InvertedIndex.search_or index query
   ↔ ∃ word, word ∈ tokenize query ∧ k ∈ postings index word) ∧
  (tokenize query = [] →
   InvertedIndex.search index query = ∅ ∧ InvertedIndex.search_or index query = ∅) ∧
  (∀ word, word ∈ tokenize query → index !! word = None →
           InvertedIndex.search index query = ∅).
Proof.
  split_and!; [apply elem_of_search | apply elem_of_search_or | |].
  - intros Ht. unfold InvertedIndex.search, InvertedIndex.search_or. by rewrite Ht.
  - intros word Hw Hnone. apply set_eq. intros k'. rewrite elem_of_search.
    split; [| by intros ?%elem_of_empty]. intros [_ Ha]. specialize (Ha word Hw).
    unfold postings in Ha. by rewrite Hnone in Ha.
Qed.
End more_index.

Section more_indexed.
Context `{Pickle Record} `{Pickle Store} `{Tokenizer}.

Lemma py_hash_key_value (k : PyKey) : py_hash (key_value k) = inr k.
Proof. by destruct k. Qed.

(** One more binding in the store, one more document in the index. *)
Lemma agrees_insert (S : Store) (index : Index) (k : PyKey) (value : Value) :
  (∀ word k', k' ∈ postings index word
              ↔ ∃ v, S !! k' = Some v ∧ word ∈ tokenize v) →
  ∀ word k', k' ∈ postings (InvertedIndex.index_document index k value) word
             ↔ ∃ v, <[k := value]> S !! k' = Some v ∧ word ∈ tokenize v.
Proof.
  intros Ha word k'. rewrite postings_index_document, Ha.
  destruct (decide (k' = k)) as [-> | Hne].
  - rewrite lookup_insert_eq. split.
    + intros [[_ ?] | [? _]]; [by exists value | done].
    + intros (v & [= <-] & ?). by left.
  - rewrite lookup_insert_ne by done. split.
    + by intros [[? _] | [_ ?]].
    + intros ?. by right.
Qed.

Lemma agrees_delete (S : Store) (index : Index) (k : PyKey) :
  (∀ word k', k' ∈ postings index word
              ↔ ∃ v, S !! k' = Some v ∧ word ∈ tokenize v) →
  ∀ word k', k' ∈ postings (InvertedIndex.remove_document index k) word
             ↔ ∃ v, base.delete k S !! k' = Some v ∧ word ∈ tokenize v.
Proof.
  intros Ha word k'. rewrite postings_remove, Ha.
  destruct (decide (k' = k)) as [-> | Hne].
  - rewrite lookup_delete_eq. split; [by intros [? _] | by intros (? & ? & _)].
  - rewrite lookup_delete_ne by done. split; [by intros [_ ?] | done].
Qed.

Lemma agrees_items (items : list (Value * Value)) : ∀ (S S' : Store) (index : Index),
  (∀ word k', k' ∈ postings index word
              ↔ ∃ v, S !! k' = Some v ∧ word ∈ tokenize v) →
  setitems S items = (inr (), S') →
  ∀ word k', k' ∈ postings (IndexedKVStore.index_items index items) word
             ↔ ∃ v, S' !! k' = Some v ∧ word ∈ tokenize v.
Proof.
  induction items as [| [key value] items IH]; intros S S' index Ha; simpl.
  { by intros [= <-]. }
  unfold dict_setitem. destruct (py_hash key) as [e | k]; simpl; [done |].
  intros Hs. eapply IH; [| done]. by apply agrees_insert.
Qed.

Lemma rebuild_agrees (kv : KVStore) :
  index_agrees (IndexedKVStore.__init__ kv).
Proof.
  unfold index_agrees, IndexedKVStore.__init__, IndexedKVStore._rebuild_indexes,
    KVStore.get_all_data. simpl.
  apply (map_fold_weak_ind
           (λ (index : Index) (S : Store),
              ∀ word k, k ∈ postings index word
                        ↔ ∃ v, S !! k = Some v ∧ word ∈ tokenize v)).
  - intros word k. unfold postings. rewrite !lookup_empty. simpl. split.
    + by intros ?%elem_of_empty.
    + by intros (? & ? & _).
  - intros k value S index _ Ha. by apply agrees_insert.
Qed.

(** Every call with hashable keys keeps the index in agreement with the
    store, and does to the store what the call on the store alone does. *)
Lemma call_agrees (st : IndexedKVStore) (c : Call) :
  index_agrees st → well_keyed c →
  index_agrees (IndexedKVStore.call st c) ∧
  indexed_kvstore (IndexedKVStore.call st c) = snd (KVStore.call (indexed_kvstore st) c).
Proof.
  intros Ha Hk. destruct st as [kv index]. unfold index_agrees in *. simpl in *.
  destruct c as [key value | key | key | items |]; simpl.
  - unfold IndexedKVStore.set, KVStore.set. simpl.
    destruct (WriteAheadLog.log_operation _ _) as [e | d]; [done |].
    apply hashable_py_hash in Hk as [k Hk]. unfold dict_setitem. rewrite Hk. simpl.
    split; [| done]. by apply agrees_insert.
  - done.
  - unfold IndexedKVStore.delete, KVStore.delete, dict_contains, dict_pop. simpl.
    destruct (py_hash key) as [e | k] eqn:Ek; simpl; [done |].
    case_bool_decide; [| done].
    destruct (WriteAheadLog.log_operation _ _) as [e | d]; [done |]. simpl.
    split; [| done]. by apply agrees_delete.
  - unfold IndexedKVStore.bulk_set, KVStore.bulk_set. simpl.
    destruct (WriteAheadLog.log_operation _ _) as [e | d]; [done |].
    destruct (setitems_hashable (store kv) items Hk) as (S' & Hs & _).
    rewrite Hs. simpl. split; [| done]. by eapply agrees_items.
  - done.
Qed.

Lemma run_agrees (cs : list Call) : ∀ st : IndexedKVStore,
  index_agrees st → Forall well_keyed cs →
  index_agrees (IndexedKVStore.run st cs) ∧
  indexed_kvstore (IndexedKVStore.run st cs) = KVStore.run (indexed_kvstore st) cs.
Proof.
  induction cs as [| c cs IH]; intros st Ha Hk; simpl; [done |].
  inversion Hk as [| ? ? Hc Hcs]; subst.
  destruct (call_agrees st c Ha Hc) as [Ha' Hkv].
  destruct (IH (IndexedKVStore.call st c) Ha' Hcs) as [IH1 IH2].
  split; [done |]. unfold IndexedKVStore.run in *. simpl. by rewrite IH2, Hkv.
Qed.

Lemma elem_of_search_fulltext (st : IndexedKVStore) (query : Value) (match_all : bool)
    (key : PyKey) (value : Value) :
  (key, value) ∈ IndexedKVStore.search_fulltext st query match_all
  ↔ key ∈ (if match_all then InvertedIndex.search (inverted_index st) query
           else InvertedIndex.search_or (inverted_index st) query) ∧
    store (indexed_kvstore st) !! key = Some value ∧ value ≠ VNone.
Proof.
  unfold IndexedKVStore.search_fulltext. rewrite list_elem_of_omap.
  setoid_rewrite elem_of_elements.
  unfold KVStore.get, dict_get. setoid_rewrite py_hash_key_value. simpl. split.
  - intros (k & Hk & Hv).
    destruct (store (indexed_kvstore st) !! k) as [v |] eqn:Ev; simpl in Hv; [| done].
    destruct v; simplify_eq; done.
  - intros (Hk & Hv & Hn). exists key. split; [done |]. rewrite Hv. simpl.
    by destruct value.
Qed.

(** X21.  Full-text search over an indexed store.  After
    [IndexedKVStore(kvstore)] on any store and any run of calls with
    hashable keys, the wrapped store is what the calls alone make of it, and
    [search_fulltext] returns exactly the pairs [(key, value)] of the
    store whose value is not [None] and holds every word of the query
    ([match_all], for a query with a word at least), or some word of the
    query (otherwise): no binding that matches is missed, none that was
    overwritten or deleted is returned. *)
Theorem search_fulltext_exact (kv : KVStore) (cs : list Call) (query : Value)
    (match_all : bool) (key : PyKey) (value : Value) :
  Forall well_keyed cs →
  let st := IndexedKVStore.run (IndexedKVStore.__init__ kv) cs in
  indexed_kvstore st = KVStore.run kv cs ∧
  ((key, value) ∈ IndexedKVStore.search_fulltext st query match_all
   ↔ store (KVStore.run kv cs) !! key = Some value ∧ value ≠ VNone ∧
     if match_all
     then tokenize query ≠ [] ∧ ∀ word, word ∈ tokenize query → word ∈ tokenize value
     else ∃ word, word ∈ tokenize query ∧ word ∈ tokenize value).
Proof.
  intros Hk st.
  destruct (run_agrees cs (IndexedKVStore.__init__ kv) (rebuild_agrees kv) Hk)
    as [Ha Hkv].
  fold st in Ha, Hkv. simpl in Hkv. split; [done |].
  rewrite elem_of_search_fulltext, Hkv. unfold index_agrees in Ha. rewrite Hkv in Ha.
  destruct match_all.
  - rewrite elem_of_search. split.
    + intros ([Hq Hw] & Hv & Hn). split_and!; try done.
      intros word Hin. apply Hw, Ha in Hin as (v & Hv' & ?). congruence.
    + intros (Hv & Hn & Hq & Hw). split_and!; try done.
      intros word Hin. apply Ha. exists value. auto.
  - rewrite elem_of_search_or. split.
    + intros ((word & Hin & Hp) & Hv & Hn). split_and!; try done.
      apply Ha in Hp as (v & Hv' & ?). exists word. split; [done | congruence].
    + intros (Hv & Hn & word & Hin & Hw). split_and!; try done.
      exists word. split; [done |]. apply Ha. by exists value.
Qed.
End more_indexed.

Lemma index_document_postings_witness :
  no_empty_words (@InvertedIndex.index_document one_word ∅ (KStr "doc1") (VStr "fox")).
Proof.
  refine (proj2 (proj2 (proj2 (@index_document_postings one_word ∅ (KStr "doc1") KNone
                                 (VStr "fox") "fox")) _)).
  intros word. by rewrite lookup_empty.
Defined.

Lemma search_all_and_any_witness :
  @InvertedIndex.search one_word {[ "fox" := {[ KStr "doc1" ]} ]} (VStr "dog") = ∅.
Proof.
  refine (proj2 (proj2 (proj2 (@search_all_and_any one_word {[ "fox" := {[ KStr "doc1" ]} ]}
                                 (VStr "dog") KNone))) "dog" _ _).
  - by left.
  - reflexivity.
Defined.

Lemma search_fulltext_exact_witness :
  let cs := [CSet (VStr "doc1") (VStr "dog"); CSet (VStr "doc2") (VStr "fox");
             CSet (VStr "doc1") (VStr "fox"); CDelete (VStr "doc2")] in
  (KStr "doc1", VStr "fox")
  ∈ @IndexedKVStore.search_fulltext one_word
      (@IndexedKVStore.run reference_record reference_store one_word
         (@IndexedKVStore.__init__ one_word fresh) cs)
      (VStr "fox") true.
Proof.
  intros cs.
  refine (proj2 (proj2 (@search_fulltext_exact reference_record reference_store one_word
                          fresh cs (VStr "fox") true (KStr "doc1") (VStr "fox") _)) _).
  - repeat constructor.
  - split_and!; [vm_compute; reflexivity | discriminate | discriminate |].
    intros word Hw. exact Hw.
Defined.
